(** * The TorchScript pickler and unpickler (torch/csrc/jit/pickler.cpp)

    A shallow embedding of the protocol-2 pickle encoder ([Pickler]) and of
    the stack-machine decoder ([Unpickler]), and the properties of the two
    that the specification states. *)

From Stdlib Require Import ZArith List Lia String Ascii.
From stdpp Require Import base gmap list.

Local Open Scope Z_scope.

(** ** Outcomes of a call *)

(** A call either returns, or leaves through a C++ exception ([AT_CHECK],
    [AT_ASSERT], [AT_ERROR], [std::out_of_range] of [vector::at]), or does
    something the language leaves undefined ([back()] of an empty vector, a
    read through a pointer outside the buffer, the value of an empty
    [optional]).  [OutOfFuel] belongs to the model only: the loop of
    [Unpickler::run] is given a bound (see [Unpickler.run_loop_fuel]). *)
Inductive error : Type :=
| Exception (what : string)
| UndefinedBehavior (what : string)
| OutOfFuel.

Inductive result (A : Type) : Type :=
| Ok (a : A)
| Err (e : error).
Arguments Ok {A} a.
Arguments Err {A} e.
Arguments Exception what%_string.
Arguments UndefinedBehavior what%_string.

#[global] Instance result_bind : MBind result :=
  λ A B f m, match m with Ok a => f a | Err e => Err e end.
#[global] Instance result_ret : MRet result := λ A a, Ok a.
#[global] Instance result_fmap : FMap result :=
  λ A B f m, match m with Ok a => Ok (f a) | Err e => Err e end.

Definition is_exception {A} (r : result A) : Prop :=
  ∃ what, r = Err (Exception what).

(** ** Bytes *)

(** A byte is a [Z] in [0, 256).  [le_bytes n z] is the object
    representation of the [n]-byte integer [z] on the little-endian host
    (two's complement, so it only depends on [z] modulo [256^n]). *)
Fixpoint le_bytes (n : nat) (z : Z) : list Z :=
  match n with
  | O => []
  | S n' => z mod 256 :: le_bytes n' (z / 256)
  end.

Fixpoint le_uint (bs : list Z) : Z :=
  match bs with
  | [] => 0
  | b :: bs' => b + 256 * le_uint bs'
  end.

(** The value of an [n]-byte pattern read as a signed integer. *)
Definition to_signed (n : nat) (z : Z) : Z :=
  if z <? 2 ^ (8 * Z.of_nat n - 1) then z else z - 2 ^ (8 * Z.of_nat n).

(** The character codes of a string literal. *)
Definition chars (s : string) : list Z :=
  map (λ c, Z.of_N (N_of_ascii c)) (list_ascii_of_string s).

Definition newline : Z := 10.

(** [std::to_string] of a [uint64_t]: its decimal digits, at most twenty. *)
Fixpoint to_string_digits (fuel : nat) (n : Z) (acc : list Z) : list Z :=
  match fuel with
  | O => acc
  | S fuel' =>
      let acc := (48 + n mod 10) :: acc in
      if n / 10 =? 0 then acc else to_string_digits fuel' (n / 10) acc
  end.

Definition to_string (n : Z) : list Z := to_string_digits 20 n [].
#[global] Arguments to_string : simpl never.

(** ** Opcodes *)

(** Modelled from the spec: the enumeration [OpCode] is declared in
    pickler.h; these are the enumerators the codec uses, with the byte values
    of the specification's table.  A byte that is none of them is an opcode
    the decoder's [switch] sends to [default]. *)
Inductive OpCode : Type :=
| MARK | STOP | BININT | BININT1 | LONG1 | BINFLOAT | BINUNICODE
| EMPTY_LIST | EMPTY_DICT | EMPTY_TUPLE | APPENDS | SETITEMS | TUPLE
| GLOBAL | REDUCE | NEWOBJ | BUILD | BINPUT | LONG_BINPUT | BINGET
| LONG_BINGET | BINPERSID | PROTO | NEWTRUE | NEWFALSE | NONE.

#[global] Instance OpCode_eq_dec : EqDecision OpCode.
Proof. solve_decision. Defined.

Definition OpCode_byte (op : OpCode) : Z :=
  match op with
  | MARK => 0x28 | STOP => 0x2E | BININT => 0x4A | BININT1 => 0x4B
  | LONG1 => 0x8A | BINFLOAT => 0x47 | BINUNICODE => 0x58
  | EMPTY_LIST => 0x5D | EMPTY_DICT => 0x7D | EMPTY_TUPLE => 0x29
  | APPENDS => 0x65 | SETITEMS => 0x75 | TUPLE => 0x74 | GLOBAL => 0x63
  | REDUCE => 0x52 | NEWOBJ => 0x81 | BUILD => 0x62 | BINPUT => 0x71
  | LONG_BINPUT => 0x72 | BINGET => 0x68 | LONG_BINGET => 0x6A
  | BINPERSID => 0x51 | PROTO => 0x80 | NEWTRUE => 0x88 | NEWFALSE => 0x89
  | NONE => 0x4E
  end.

(** [static_cast<OpCode>] of a byte. *)
Definition OpCode_of_byte (b : Z) : option OpCode :=
  match b with
  | 0x28 => Some MARK | 0x2E => Some STOP | 0x4A => Some BININT
  | 0x4B => Some BININT1 | 0x8A => Some LONG1 | 0x47 => Some BINFLOAT
  | 0x58 => Some BINUNICODE | 0x5D => Some EMPTY_LIST
  | 0x7D => Some EMPTY_DICT | 0x29 => Some EMPTY_TUPLE
  | 0x65 => Some APPENDS | 0x75 => Some SETITEMS | 0x74 => Some TUPLE
  | 0x63 => Some GLOBAL | 0x52 => Some REDUCE | 0x81 => Some NEWOBJ
  | 0x62 => Some BUILD | 0x71 => Some BINPUT | 0x72 => Some LONG_BINPUT
  | 0x68 => Some BINGET | 0x6A => Some LONG_BINGET | 0x51 => Some BINPERSID
  | 0x80 => Some PROTO | 0x88 => Some NEWTRUE | 0x89 => Some NEWFALSE
  | 0x4E => Some NONE
  | _ => None
  end.

Definition PROTOCOL_VERSION : Z := 2.

(** ** Custom classes *)

Inductive PicklerClass : Type := TENSOR | INTLIST.

#[global] Instance PicklerClass_eq_dec : EqDecision PicklerClass.
Proof. solve_decision. Defined.

(** Modelled from the spec: [enum class PicklerClass : uint8_t] is declared
    in pickler.h; its enumerators are numbered in the order the specification
    names them. *)
Definition PicklerClass_to_uint8 (cls : PicklerClass) : Z :=
  match cls with TENSOR => 0 | INTLIST => 1 end.

(** [static_cast<PicklerClass>(uint8_t(value))]; [None] is a value that is
    no enumerator. *)
Definition PicklerClass_of_uint8 (value : Z) : option PicklerClass :=
  match value mod 256 with
  | 0 => Some TENSOR
  | 1 => Some INTLIST
  | _ => None
  end.

Definition getClass (str : list Z) : result PicklerClass :=
  if decide (str = chars "build_tensor_from_id") then Ok TENSOR
  else if decide (str = chars "build_intlist") then Ok INTLIST
  else if decide (str = chars "TensorID") then Ok TENSOR
  else if decide (str = chars "IntList") then Ok INTLIST
  else Err (Exception "Unknown class name for unpickler").

Definition getClassName (cls : PicklerClass) : list Z :=
  match cls with
  | TENSOR => chars "build_tensor_from_id" ++ [newline]
  | INTLIST => chars "build_intlist" ++ [newline]
  end.

Definition getModuleName : list Z := chars "torch.jit._pickle" ++ [newline].

(** ** Tensors *)

(** Modelled from the spec: [at::Tensor] and its storage are external; a
    handle exposes the fields the specification lists.  [tensor_impl] and
    [storage_impl] are the addresses of the implementation objects, which is
    what makes two handles the same tensor or the same storage. *)
Inductive ScalarType : Type :=
| Float | Double | Half | Long | Int | Short | Char | Byte | Bool.

Definition toString (st : ScalarType) : list Z :=
  match st with
  | Float => chars "Float" | Double => chars "Double" | Half => chars "Half"
  | Long => chars "Long" | Int => chars "Int" | Short => chars "Short"
  | Char => chars "Char" | Byte => chars "Byte" | Bool => chars "Bool"
  end.

Inductive DeviceType : Type := CPU | CUDA.

Record Storage : Type := mkStorage {
  storage_impl : Z;
  device_type : DeviceType;
  storage_size : Z;
  storage_data : list Z;
}.

Record Tensor : Type := mkTensor {
  tensor_impl : Z;
  scalar_type : ScalarType;
  sizes : list Z;
  strides : list Z;
  storage : Storage;
  requires_grad : bool;
  numel : Z;
  element_size : Z;
}.

(** Modelled from the spec: [.cpu()] of a view of the whole storage keeps the
    bytes and moves them to a host storage. *)
Definition cpu (tensor : Tensor) : Tensor :=
  mkTensor (tensor_impl tensor) (scalar_type tensor)
    [storage_size (storage tensor)] [1]
    (mkStorage (storage_impl (storage tensor)) CPU
       (storage_size (storage tensor)) (storage_data (storage tensor)))
    (requires_grad tensor) (storage_size (storage tensor))
    (element_size tensor).

Definition getWriteableTensor (tensor : Tensor) : result (Tensor * Z) :=
  let record_size := element_size tensor * storage_size (storage tensor) in
  match device_type (storage tensor) with
  | CUDA =>
      let storage_tensor := cpu tensor in
      if decide (element_size storage_tensor *
                 storage_size (storage storage_tensor) = record_size)
      then Ok (storage_tensor, record_size)
      else Err (Exception "Storage tensor size did not match record size")
  | CPU => Ok (tensor, record_size)
  end.

Definition getStorageKey (tensor : Tensor) : Z :=
  storage_impl (storage tensor).

(** ** Values *)

(** The address of a heap object.  [inl a] is an object of the caller;
    [inr k] is the [k]-th temporary string the pickler allocates itself
    (both kinds stay alive for the whole session, so they never share an
    address). *)
Definition ptr : Type := (Z + nat)%type.

(** [c10::IValue], as the pickler sees it: the tag, the payload, and for the
    reference-counted variants the address [p] of the object.  A dict is
    given by its [iterationOrder()].  [IVOther] stands for every tag the
    pickler has no branch for. *)
#[warnings="-register-all"]
Inductive IValue : Type :=
| IVNone
| IVBool (b : bool)
| IVInt (n : Z)
| IVDouble (bits : Z)
| IVString (p : ptr) (s : list Z)
| IVTuple (p : ptr) (elements : list IValue)
| IVGenericList (p : ptr) (elements : list IValue)
| IVGenericDict (p : ptr) (iterationOrder : list (IValue * IValue))
| IVIntList (p : ptr) (elements : list Z)
| IVTensor (tensor : Tensor)
| IVOther (tagKind : string).

(** ** The encoder *)

Module Pickler.

Record t : Type := mk {
  stack_ : list Z;
  memo_map_ : gmap ptr Z;
  memoized_strings_map_ : gmap (list Z) Z;
  memoized_ivalues_ : list IValue;
  memo_id_ : Z;
  tensor_table_ : option (list Tensor);
  literal_tensors_ : list Tensor;
  temporaries_ : nat;
}.

(** A pickler at the start of a session; [tensor_table] is the side table of
    reference mode, [None] for literal mode. *)
Definition create (tensor_table : option (list Tensor)) : t :=
  mk [] ∅ ∅ [] 0 tensor_table [] 0.

Definition stack (p : t) : list Z := stack_ p.

(** [stack_.insert(stack_.end(), ...)] *)
Definition insert_end (bs : list Z) (p : t) : t :=
  mk (stack_ p ++ bs) (memo_map_ p) (memoized_strings_map_ p)
     (memoized_ivalues_ p) (memo_id_ p) (tensor_table_ p)
     (literal_tensors_ p) (temporaries_ p).

(** Modelled from the spec: [push<T>] is declared in pickler.h; it appends
    the [sizeof(T)] bytes of the value, little-endian. *)
Definition push (sizeof : nat) (value : Z) (p : t) : t :=
  insert_end (le_bytes sizeof value) p.

Definition pushOp (op : OpCode) (p : t) : t := push 1 (OpCode_byte op) p.

Definition pushString (string : list Z) (p : t) : t := insert_end string p.

Definition start (p : t) : t :=
  push 1 PROTOCOL_VERSION (pushOp PROTO p).

Definition startTuple (p : t) : t := pushOp MARK p.

Definition endTuple (p : t) : t := pushOp TUPLE p.

Definition pushTensorData (tensor : Tensor) (p : t) : result t :=
  let p := insert_end (le_bytes 8 (numel tensor)) p in
  '(storage_tensor, record_size) ← getWriteableTensor tensor;
  mret (insert_end
          (take (Z.to_nat record_size) (storage_data (storage storage_tensor)))
          p).

Definition forEach {A : Type} (f : A → t → result t)
  : list A → t → result t :=
  fix go (l : list A) (p : t) : result t :=
    match l with
    | [] => Ok p
    | x :: l' => p' ← f x p; go l' p'
    end.

Definition finish (p : t) : result t :=
  let p := pushOp STOP p in
  match literal_tensors_ p with
  | [] => Ok p
  | _ :: _ =>
      let p := start p in
      let p := pushOp MARK p in
      let p :=
        fold_left
          (λ p tensor,
             let key := to_string (getStorageKey tensor) in
             pushString key
               (push 4 (Z.of_nat (length key)) (pushOp BINUNICODE p)))
          (literal_tensors_ p) p in
      let p := pushOp TUPLE p in
      let p := pushOp STOP p in
      forEach pushTensorData (literal_tensors_ p) p
  end.

Definition getPointer (ivalue : IValue) : option ptr :=
  match ivalue with
  | IVGenericDict p _ => Some p
  | IVGenericList p _ => Some p
  | IVTuple p _ => Some p
  | IVString p _ => Some p
  | IVIntList p _ => Some p
  | _ => None
  end.

Definition pushInt (n : Z) (p : t) : t :=
  if (-128 <=? n) && (n <=? 127) then
    push 1 n (pushOp BININT1 p)
  else if (-2147483648 <=? n) && (n <=? 2147483647) then
    push 4 n (pushOp BININT p)
  else
    push 8 n (push 1 8 (pushOp LONG1 p)).

Definition pushBinGet (memo_id : Z) (p : t) : t :=
  if memo_id <=? 255 then
    push 1 memo_id (pushOp BINGET p)
  else
    push 4 memo_id (pushOp LONG_BINGET p).

(** Modelled from the spec: the declaration of [memo_id_] is in pickler.h.
    The specification has an error for a memo id beyond [2^32 - 1], so the
    counter is not reduced modulo [2^32] and the assertion below can fail. *)
Definition pushNextBinPut (p : t) : result (t * Z) :=
  let p' :=
    if memo_id_ p <=? 255 then
      push 1 (memo_id_ p) (pushOp BINPUT p)
    else
      push 4 (memo_id_ p) (pushOp LONG_BINPUT p) in
  if memo_id_ p <=? 4294967295 then
    Ok (mk (stack_ p') (memo_map_ p') (memoized_strings_map_ p')
           (memoized_ivalues_ p') (memo_id_ p' + 1) (tensor_table_ p')
           (literal_tensors_ p') (temporaries_ p'),
        memo_id_ p' + 1 - 1)
  else Err (Exception "memo_id_ <= std::numeric_limits<uint32_t>::max()").

(** [pushMemoization] of a pointer. *)
Definition pushMemoization_ptr (item : option ptr) (p : t) : result t :=
  match item with
  | None => Err (Exception "Pickler cannot memoize a nullptr")
  | Some item =>
      '(p, memo_id) ← pushNextBinPut p;
      mret (mk (stack_ p) (<[item := memo_id]> (memo_map_ p))
               (memoized_strings_map_ p) (memoized_ivalues_ p) (memo_id_ p)
               (tensor_table_ p) (literal_tensors_ p) (temporaries_ p))
  end.

(** [pushMemoization] of an IValue. *)
Definition pushMemoization (ivalue : IValue) (p : t) : result t :=
  let ptr := getPointer ivalue in
  let p := mk (stack_ p) (memo_map_ p) (memoized_strings_map_ p)
              (memoized_ivalues_ p ++ [ivalue]) (memo_id_ p)
              (tensor_table_ p) (literal_tensors_ p) (temporaries_ p) in
  match ptr with
  | None => Err (Exception "Pickler cannot memoize IValue")
  | Some _ => pushMemoization_ptr ptr p
  end.

Definition pushMemoizedString (ivalue : IValue) (string : list Z) (p : t)
  : result t :=
  let p := pushOp BINUNICODE p in
  let p := push 4 (Z.of_nat (length string)) p in
  let p := pushString string p in
  pushMemoization ivalue p.

(** [pushMemoizedString(std::string(...))]: the argument is converted to a
    temporary string IValue, a new object that [memoized_ivalues_] then
    keeps alive. *)
Definition pushMemoizedString_temporary (string : list Z) (p : t) : result t :=
  let ivalue := IVString (inr (temporaries_ p)) string in
  let p := mk (stack_ p) (memo_map_ p) (memoized_strings_map_ p)
              (memoized_ivalues_ p) (memo_id_ p) (tensor_table_ p)
              (literal_tensors_ p) (S (temporaries_ p)) in
  pushMemoizedString ivalue string p.

Definition pushGlobal (name_temp : list Z) (p : t) : result t :=
  match memoized_strings_map_ p !! name_temp with
  | None =>
      let p := pushOp GLOBAL p in
      let p := pushString name_temp p in
      '(p, memo_id) ← pushNextBinPut p;
      mret (mk (stack_ p) (memo_map_ p)
               (<[name_temp := memo_id]> (memoized_strings_map_ p))
               (memoized_ivalues_ p) (memo_id_ p) (tensor_table_ p)
               (literal_tensors_ p) (temporaries_ p))
  | Some memo_id => Ok (pushBinGet memo_id p)
  end.

Definition pushClass (cls : PicklerClass) (p : t) : result t :=
  pushGlobal (getModuleName ++ getClassName cls) p.

(** [addIValue] of a [bool]: no pointer, the [isBool] branch. *)
Definition addIValue_bool (b : bool) (p : t) : t :=
  if b then pushOp NEWTRUE p else pushOp NEWFALSE p.

Definition pushLiteralTensor (tensor : Tensor) (p : t) : result t :=
  p ← pushGlobal (chars "torch._utils" ++ [newline] ++
                  chars "_rebuild_tensor_v2" ++ [newline]) p;
  let p := pushOp MARK p in
  let p := pushOp MARK p in
  p ← pushMemoizedString_temporary (chars "storage") p;
  let data_type := chars "torch" ++ [newline] ++
                   toString (scalar_type tensor) ++ chars "Storage" ++
                   [newline] in
  p ← pushGlobal data_type p;
  p ← pushMemoizedString_temporary (to_string (getStorageKey tensor)) p;
  p ← pushMemoizedString_temporary (chars "cpu") p;
  let p := pushInt (numel tensor) p in
  let p := pushOp NONE p in
  let p := pushOp TUPLE p in
  let p := pushOp BINPERSID p in
  let storage_offset := 0 in
  let p := pushInt storage_offset p in
  let p := pushOp MARK p in
  let p := fold_left (λ p size, pushInt size p) (sizes tensor) p in
  let p := pushOp TUPLE p in
  let p := pushOp MARK p in
  let p := fold_left (λ p stride, pushInt stride p) (strides tensor) p in
  let p := pushOp TUPLE p in
  let p := addIValue_bool (requires_grad tensor) p in
  p ← pushGlobal (chars "collections" ++ [newline] ++
                  chars "OrderedDict" ++ [newline]) p;
  let p := pushOp EMPTY_TUPLE p in
  let p := pushOp REDUCE p in
  let p := pushOp TUPLE p in
  let p := pushOp REDUCE p in
  mret (mk (stack_ p) (memo_map_ p) (memoized_strings_map_ p)
           (memoized_ivalues_ p) (memo_id_ p) (tensor_table_ p)
           (literal_tensors_ p ++ [tensor]) (temporaries_ p)).

(** [addIValue(tensor_id)] is [addIValue] of an [int64_t]: no pointer, the
    [isInt] branch, that is [pushInt]. *)
Definition pushTensorReference (tensor : Tensor) (tensor_table : list Tensor)
  (p : t) : result t :=
  p ← pushClass TENSOR p;
  let tensor_table := tensor_table ++ [tensor] in
  let p := mk (stack_ p) (memo_map_ p) (memoized_strings_map_ p)
              (memoized_ivalues_ p) (memo_id_ p) (Some tensor_table)
              (literal_tensors_ p) (temporaries_ p) in
  let tensor_id := Z.of_nat (length tensor_table) - 1 in
  let p := pushOp MARK p in
  let p := pushInt tensor_id p in
  let p := pushOp TUPLE p in
  mret (pushOp REDUCE p).

Definition pushTensor (tensor : Tensor) (p : t) : result t :=
  match tensor_table_ p with
  | None => pushLiteralTensor tensor p
  | Some tensor_table => pushTensorReference tensor tensor_table p
  end.

Definition pushIntList (ivalue : IValue) (elements : list Z) (p : t)
  : result t :=
  p ← pushClass INTLIST p;
  let p := pushOp MARK p in
  let p := pushOp EMPTY_LIST p in
  let p := pushOp MARK p in
  let p := fold_left (λ p item, pushInt item p) elements p in
  let p := pushOp APPENDS p in
  let p := pushOp TUPLE p in
  let p := pushOp REDUCE p in
  pushMemoization ivalue p.

Definition pushDouble (bits : Z) (p : t) : t :=
  let p := pushOp BINFLOAT p in
  fold_left (λ p i, push 1 (nth (8 - i - 1) (le_bytes 8 bits) 0) p)
    (seq 0 8) p.

Fixpoint addIValue (ivalue : IValue) (p : t) {struct ivalue} : result t :=
  match getPointer ivalue ≫= (λ ivalue_ptr, memo_map_ p !! ivalue_ptr) with
  | Some memo_id => Ok (pushBinGet memo_id p)
  | None =>
      match ivalue with
      | IVTensor tensor => pushTensor tensor p
      | IVTuple _ tuple =>
          (* pushTuple *)
          let p := pushOp MARK p in
          p ← forEach addIValue tuple p;
          let p := pushOp TUPLE p in
          pushMemoization ivalue p
      | IVDouble bits => Ok (pushDouble bits p)
      | IVInt n => Ok (pushInt n p)
      | IVBool b => Ok (addIValue_bool b p)
      | IVString _ string => pushMemoizedString ivalue string p
      | IVGenericList _ list =>
          (* pushList *)
          let p := pushOp EMPTY_LIST p in
          p ← pushMemoization ivalue p;
          let p := pushOp MARK p in
          p ← forEach addIValue list p;
          mret (pushOp APPENDS p)
      | IVGenericDict _ dict_items =>
          (* pushDict *)
          let p := pushOp EMPTY_DICT p in
          p ← pushMemoization ivalue p;
          let p := pushOp MARK p in
          p ← forEach (λ pair p, p ← addIValue pair.1 p; addIValue pair.2 p)
                dict_items p;
          mret (pushOp SETITEMS p)
      | IVNone => Ok (pushOp NONE p)
      | IVIntList _ elements => pushIntList ivalue elements p
      | IVOther _ => Err (Exception "Unknown IValue type for pickling")
      end
  end.

(** One session: [start], [startTuple], [addIValue] of each value,
    [endTuple], [finish]; the result is [stack()] and the side table. *)
Definition session (tensor_table : option (list Tensor)) (ivalues : list IValue)
  : result t :=
  let p := create tensor_table in
  let p := start p in
  let p := startTuple p in
  p ← forEach addIValue ivalues p;
  let p := endTuple p in
  finish p.

(** The bytes of the elementary emissions. *)
Definition op_bytes (op : OpCode) : list Z := [OpCode_byte op].

Definition pushInt_bytes (n : Z) : list Z :=
  stack_ (pushInt n (create None)).

Definition pushBinGet_bytes (memo_id : Z) : list Z :=
  stack_ (pushBinGet memo_id (create None)).

Definition pushDouble_bytes (bits : Z) : list Z :=
  stack_ (pushDouble bits (create None)).

(** What [pushNextBinPut] writes for the memo id [memo_id]. *)
Definition pushNextBinPut_bytes (memo_id : Z) : list Z :=
  if memo_id <=? 255 then OpCode_byte BINPUT :: le_bytes 1 memo_id
  else OpCode_byte LONG_BINPUT :: le_bytes 4 memo_id.

(** What [pushGlobal] writes: the global itself and a PUT the first time, a
    GET of its memo id afterwards. *)
Definition pushGlobal_bytes (name : list Z) (p : t) : list Z :=
  match memoized_strings_map_ p !! name with
  | None => op_bytes GLOBAL ++ name ++ pushNextBinPut_bytes (memo_id_ p)
  | Some memo_id => pushBinGet_bytes memo_id
  end.

(** What [finish] writes for one literal tensor: its entry in the program of
    keys, and its record after that program. *)
Definition key_entry (tensor : Tensor) : list Z :=
  let key := to_string (getStorageKey tensor) in
  op_bytes BINUNICODE ++ le_bytes 4 (Z.of_nat (length key)) ++ key.

Definition storage_bytes (tensor : Tensor) : list Z :=
  take (Z.to_nat (element_size tensor * storage_size (storage tensor)))
    (storage_data (storage tensor)).

Definition tensor_record (tensor : Tensor) : list Z :=
  le_bytes 8 (numel tensor) ++ storage_bytes tensor.

End Pickler.


(** ** The decoder *)

(** [c10::IValue], as the unpickler builds it.  The unpickler fills lists,
    int lists and dicts in place after it has copied their handle to the memo
    table, so these three are references [a] into a store of objects; the
    other variants are never changed once they are built. *)
#[warnings="-register-all"]
Inductive DValue : Type :=
| DNone
| DBool (b : bool)
| DInt (n : Z)
| DDouble (bits : Z)
| DString (s : list Z)
| DTuple (elements : list DValue)
| DGenericList (a : nat)
| DIntList (a : nat)
| DGenericDict (a : nat)
| DTensor (tensor : Tensor).

Inductive Object : Type :=
| OGenericList (elements : list DValue)
| OIntList (elements : list Z)
| OGenericDict (elements : list (DValue * DValue)).

#[global] Instance ScalarType_eq_dec : EqDecision ScalarType.
Proof. solve_decision. Defined.
#[global] Instance DeviceType_eq_dec : EqDecision DeviceType.
Proof. solve_decision. Defined.
#[global] Instance Storage_eq_dec : EqDecision Storage.
Proof. solve_decision. Defined.
#[global] Instance Tensor_eq_dec : EqDecision Tensor.
Proof. solve_decision. Defined.

(** Equality of two values used as dict keys: by content, and by address for
    the three kinds of reference. *)
Fixpoint DValue_eqb (x y : DValue) {struct x} : bool :=
  match x, y with
  | DNone, DNone => true
  | DBool b, DBool b' => bool_decide (b = b')
  | DInt n, DInt n' => bool_decide (n = n')
  | DDouble n, DDouble n' => bool_decide (n = n')
  | DString s, DString s' => bool_decide (s = s')
  | DTuple l, DTuple l' =>
      (fix go (l l' : list DValue) {struct l} : bool :=
         match l, l' with
         | [], [] => true
         | x :: l, y :: l' => DValue_eqb x y && go l l'
         | _, _ => false
         end) l l'
  | DGenericList a, DGenericList a' => bool_decide (a = a')
  | DIntList a, DIntList a' => bool_decide (a = a')
  | DGenericDict a, DGenericDict a' => bool_decide (a = a')
  | DTensor t, DTensor t' => bool_decide (t = t')
  | _, _ => false
  end.

(** Modelled from the spec: the dict type is external; it is a mapping with a
    defined iteration order, which is the order in which the keys were first
    inserted.  [dict_insert k v d] is [d[k] = v]. *)
Fixpoint dict_insert (k v : DValue) (d : list (DValue * DValue))
  : list (DValue * DValue) :=
  match d with
  | [] => [(k, v)]
  | (k', v') :: d' =>
      if DValue_eqb k k' then (k', v) :: d'
      else (k', v') :: dict_insert k v d'
  end.

(** Modelled from the spec: [StackItem] is declared in pickler.h; an entry of
    the decoder's stack is a value or a class marker, and asking an entry for
    the alternative it does not hold reads an empty [optional]. *)
Inductive StackItem : Type :=
| SIValue (ivalue : DValue)
| SIClass (pickler_class : PicklerClass).

Definition ivalue (item : StackItem) : result DValue :=
  match item with
  | SIValue v => Ok v
  | SIClass _ => Err (UndefinedBehavior "ivalue() of a class marker")
  end.

Definition pickler_class (item : StackItem) : result PicklerClass :=
  match item with
  | SIClass c => Ok c
  | SIValue _ => Err (UndefinedBehavior "pickler_class() of a value")
  end.

Definition pickler_class_opt (item : StackItem) : option PicklerClass :=
  match item with
  | SIClass c => Some c
  | SIValue _ => None
  end.

(** The accessors of [IValue] assert the tag. *)
Definition toInt (v : DValue) : result Z :=
  match v with
  | DInt n => Ok n
  | _ => Err (Exception "isInt()")
  end.

Definition toTuple (v : DValue) : result (list DValue) :=
  match v with
  | DTuple elements => Ok elements
  | _ => Err (Exception "isTuple()")
  end.

Definition is_valid_python_id_char (c : Z) : bool :=
  (c =? 95) || (c =? 46) || ((48 <=? c) && (c <=? 57)) ||
  ((97 <=? c) && (c <=? 122)) || ((65 <=? c) && (c <=? 90)).

Module Unpickler.

(** [bytes_] is the part of the input not read yet, the range from the
    cursor [bytes_] to [end_ptr_].  [objects_] is the store of the lists,
    int lists and dicts allocated so far; a new object gets the next
    address. *)
Record t : Type := mk {
  bytes_ : list Z;
  stack_ : list StackItem;
  marks_ : list nat;
  memo_table_ : list StackItem;
  tensor_table_ : option (list Tensor);
  last_opcode_ : OpCode;
  objects_ : list Object;
}.

(** A new unpickler over [data]; the initial [last_opcode_] is set by the
    constructor in pickler.h and is left open here. *)
Definition create (data : list Z) (tensor_table : option (list Tensor))
  (last_opcode : OpCode) : t :=
  mk data [] [] [] tensor_table last_opcode [].

Definition set_bytes (bs : list Z) (u : t) : t :=
  mk bs (stack_ u) (marks_ u) (memo_table_ u) (tensor_table_ u)
     (last_opcode_ u) (objects_ u).

Definition set_stack (s : list StackItem) (u : t) : t :=
  mk (bytes_ u) s (marks_ u) (memo_table_ u) (tensor_table_ u)
     (last_opcode_ u) (objects_ u).

Definition set_marks (m : list nat) (u : t) : t :=
  mk (bytes_ u) (stack_ u) m (memo_table_ u) (tensor_table_ u)
     (last_opcode_ u) (objects_ u).

Definition set_memo_table (m : list StackItem) (u : t) : t :=
  mk (bytes_ u) (stack_ u) (marks_ u) m (tensor_table_ u)
     (last_opcode_ u) (objects_ u).

Definition set_last_opcode (op : OpCode) (u : t) : t :=
  mk (bytes_ u) (stack_ u) (marks_ u) (memo_table_ u) (tensor_table_ u)
     op (objects_ u).

Definition set_objects (o : list Object) (u : t) : t :=
  mk (bytes_ u) (stack_ u) (marks_ u) (memo_table_ u) (tensor_table_ u)
     (last_opcode_ u) o.

(** [stack_.emplace_back(...)] *)
Definition emplace_back (item : StackItem) (u : t) : t :=
  set_stack (stack_ u ++ [item]) u.

(** [stack_.emplace_back] of a new container object. *)
Definition emplace_back_new (obj : Object) (u : t) : t :=
  let a := length (objects_ u) in
  let u := set_objects (objects_ u ++ [obj]) u in
  emplace_back
    (SIValue match obj with
             | OGenericList _ => DGenericList a
             | OIntList _ => DIntList a
             | OGenericDict _ => DGenericDict a
             end) u.

(** [stack_.back()] *)
Definition back (u : t) : result StackItem :=
  match last (stack_ u) with
  | Some item => Ok item
  | None => Err (UndefinedBehavior "back() of an empty stack_")
  end.

(** [stack_.pop_back()] *)
Definition pop_back (u : t) : result t :=
  match stack_ u with
  | [] => Err (UndefinedBehavior "pop_back() of an empty stack_")
  | _ :: _ => Ok (set_stack (removelast (stack_ u)) u)
  end.

(** [stack_.at(i)] for an index computed in [size_t]: [start - 1] with
    [start = 0] wraps to the largest value, which is out of range. *)
Definition at_pred (start : nat) (u : t) : result StackItem :=
  match start with
  | O => Err (Exception "std::out_of_range")
  | S i =>
      match stack_ u !! i with
      | Some item => Ok item
      | None => Err (Exception "std::out_of_range")
      end
  end.

(** [marks_.back()] followed by [marks_.pop_back()] *)
Definition pop_mark (u : t) : result (nat * t) :=
  match last (marks_ u) with
  | Some start => Ok (start, set_marks (removelast (marks_ u)) u)
  | None => Err (UndefinedBehavior "back() of an empty marks_")
  end.

(** [tensor_table_->at(i)] for an [int64_t] index (a negative one converts to
    a [size_t] beyond every size). *)
Definition tensor_table_at (i : Z) (u : t) : result Tensor :=
  match tensor_table_ u with
  | None => Err (UndefinedBehavior "tensor_table_ is null")
  | Some table =>
      if decide (0 ≤ i) then
        match table !! Z.to_nat i with
        | Some tensor => Ok tensor
        | None => Err (Exception "std::out_of_range")
        end
      else Err (Exception "std::out_of_range")
  end.

(** Modelled from the spec: [read<T>] is declared in pickler.h; a truncated
    operand is an error, and no byte at or after [end_ptr_] is read. *)
Definition read (sizeof : nat) (u : t) : result (Z * t) :=
  if decide (sizeof ≤ length (bytes_ u))%nat then
    Ok (le_uint (take sizeof (bytes_ u)), set_bytes (drop sizeof (bytes_ u)) u)
  else Err (Exception "Unpickler overran buffer while reading a value").

(** [read] of a signed type. *)
Definition read_signed (sizeof : nat) (u : t) : result (Z * t) :=
  '(value, u) ← read sizeof u; mret (to_signed sizeof value, u).

Definition readOpCode (u : t) : result (option OpCode * t) :=
  '(b, u) ← read 1 u; mret (OpCode_of_byte b, u).

Definition readFloat (u : t) : result (Z * t) :=
  if decide (8 < length (bytes_ u))%nat then
    Ok (le_uint (rev (take 8 (bytes_ u))), set_bytes (drop 8 (bytes_ u)) u)
  else Err (Exception "bytes_ + 8 < end_ptr_").

(** The loop of [readString]; [rest] is the input from [chars + n] on and
    [str] the [n] characters before it.  The loop reads [chars[n]] first and
    compares [chars + n] with the end only after the increment. *)
Fixpoint readString_loop (rest : list Z) (str : list Z)
  : result (list Z * list Z) :=
  match rest with
  | [] => Err (UndefinedBehavior "read of chars[n] at end_ptr_")
  | c :: rest' =>
      if c =? newline then Ok (str, rest')
      else if negb (is_valid_python_id_char c) then
        Err (Exception "strings must be qualified Python identifiers")
      else
        match rest' with
        | [] =>
            Err (Exception "Unpickler overran buffer while reading a string")
        | _ :: _ => readString_loop rest' (str ++ [c])
        end
  end.

Definition readString (u : t) : result (list Z * t) :=
  '(str, rest) ← readString_loop (bytes_ u) [];
  mret (str, set_bytes rest u).

(** The iterator loops that collect [it->ivalue()] from [start] to the
    end of the stack. *)
Fixpoint ivalues (items : list StackItem) : result (list DValue) :=
  match items with
  | [] => Ok []
  | item :: items' =>
      v ← ivalue item; vs ← ivalues items'; mret (v :: vs)
  end.

Fixpoint toInts (vs : list DValue) : result (list Z) :=
  match vs with
  | [] => Ok []
  | v :: vs' => n ← toInt v; ns ← toInts vs'; mret (n :: ns)
  end.

Definition readList (u : t) : result t :=
  '(start, u) ← pop_mark u;
  list_ivalue ← at_pred start u;
  list_value ← ivalue list_ivalue;
  u ←
    match list_value with
    | DIntList a =>
        vs ← ivalues (drop start (stack_ u));
        ns ← toInts vs;
        match objects_ u !! a with
        | Some (OIntList elements) =>
            Ok (set_objects (<[a := OIntList (elements ++ ns)]> (objects_ u)) u)
        | _ => Err (UndefinedBehavior "dangling int list")
        end
    | DGenericList a =>
        vs ← ivalues (drop start (stack_ u));
        match objects_ u !! a with
        | Some (OGenericList elements) =>
            Ok (set_objects
                  (<[a := OGenericList (elements ++ vs)]> (objects_ u)) u)
        | _ => Err (UndefinedBehavior "dangling list")
        end
    | _ => Err (Exception "isGenericList()")
    end;
  mret (set_stack (take start (stack_ u)) u).

(** The loop of [SETITEMS] over [stack_[i]], [stack_[i + 1]] from [start]
    on, in steps of two. *)
Fixpoint setitems (items : list StackItem) (dict : list (DValue * DValue))
  : result (list (DValue * DValue)) :=
  match items with
  | [] => Ok dict
  | [_] => Err (UndefinedBehavior "stack_[i + 1] beyond the end of stack_")
  | k :: v :: items' =>
      key ← ivalue k;
      value ← ivalue v;
      setitems items' (dict_insert key value dict)
  end.

Definition readInstruction (u : t) : result (OpCode * t) :=
  '(opcode, u) ← readOpCode u;
  match opcode with
  | Some EMPTY_LIST =>
      u ←
        (if decide (last_opcode_ u = NEWOBJ) then
           if decide (0 < length (stack_ u))%nat then
             item ← back u;
             v ← ivalue item;
             value ← toInt v;
             if decide (0 ≤ value ∧ value ≤ 255) then
               if decide (PicklerClass_of_uint8 value = Some INTLIST) then
                 Ok (emplace_back_new (OIntList []) u)
               else Ok u
             else Err (Exception "Unpickler could not decode PicklerClass")
           else
             Err (Exception
                    "Unpickler found an empty stack when it expected a value")
         else
           match last (stack_ u) ≫= pickler_class_opt with
           | Some cls =>
               if decide (cls = INTLIST) then
                 Ok (emplace_back_new (OIntList []) u)
               else Err (Exception "Unknown list specialization")
           | None => Ok (emplace_back_new (OGenericList []) u)
           end);
      mret (EMPTY_LIST, u)
  | Some EMPTY_TUPLE => Ok (EMPTY_TUPLE, emplace_back (SIValue (DTuple [])) u)
  | Some BINPUT =>
      '(memo_id, u) ← read 1 u;
      item ← back u;
      mret (BINPUT, set_memo_table (memo_table_ u ++ [item]) u)
  | Some LONG_BINPUT =>
      '(memo_id, u) ← read 4 u;
      item ← back u;
      mret (LONG_BINPUT, set_memo_table (memo_table_ u ++ [item]) u)
  | Some MARK =>
      Ok (MARK, set_marks (marks_ u ++ [length (stack_ u)]) u)
  | Some NEWTRUE => Ok (NEWTRUE, emplace_back (SIValue (DBool true)) u)
  | Some NEWFALSE => Ok (NEWFALSE, emplace_back (SIValue (DBool false)) u)
  | Some BININT1 =>
      '(value, u) ← read_signed 1 u;
      mret (BININT1, emplace_back (SIValue (DInt value)) u)
  | Some BININT =>
      '(value, u) ← read_signed 4 u;
      mret (BININT, emplace_back (SIValue (DInt value)) u)
  | Some LONG1 =>
      '(length, u) ← read 1 u;
      if decide (length = 8) then
        '(value, u) ← read_signed 8 u;
        mret (LONG1, emplace_back (SIValue (DInt value)) u)
      else Err (Exception "length == 8")
  | Some BINUNICODE =>
      '(length, u) ← read 4 u;
      if decide (Z.to_nat length < List.length (bytes_ u))%nat then
        let characters := take (Z.to_nat length) (bytes_ u) in
        let u := set_bytes (drop (Z.to_nat length) (bytes_ u)) u in
        Ok (BINUNICODE, emplace_back (SIValue (DString characters)) u)
      else Err (Exception "bytes_ + length < end_ptr_")
  | Some BINFLOAT =>
      '(value, u) ← readFloat u;
      mret (BINFLOAT, emplace_back (SIValue (DDouble value)) u)
  | Some TUPLE =>
      '(start, u) ← pop_mark u;
      (* [reserve(stack_.size() - start)]: with [start] above the size the
         difference wraps in [size_t] to more than [max_size()], and
         [reserve] throws before any iterator is formed *)
      if decide (start ≤ length (stack_ u))%nat then
        elements ← ivalues (drop start (stack_ u));
        let u := set_stack (take start (stack_ u)) u in
        mret (TUPLE, emplace_back (SIValue (DTuple elements)) u)
      else Err (Exception "std::length_error")
  | Some EMPTY_DICT => Ok (EMPTY_DICT, emplace_back_new (OGenericDict []) u)
  | Some APPENDS => u ← readList u; mret (APPENDS, u)
  | Some SETITEMS =>
      '(start, u) ← pop_mark u;
      item ← at_pred start u;
      v ← ivalue item;
      match v with
      | DGenericDict a =>
          match objects_ u !! a with
          | Some (OGenericDict elements) =>
              elements ← setitems (drop start (stack_ u)) elements;
              let u :=
                set_objects (<[a := OGenericDict elements]> (objects_ u)) u in
              mret (SETITEMS, set_stack (take start (stack_ u)) u)
          | _ => Err (UndefinedBehavior "dangling dict")
          end
      | _ => Err (Exception "isGenericDict()")
      end
  | Some BINGET =>
      '(memo_id, u) ← read 1 u;
      match memo_table_ u !! Z.to_nat memo_id with
      | Some item => Ok (BINGET, emplace_back item u)
      | None => Err (Exception "std::out_of_range")
      end
  | Some LONG_BINGET =>
      '(memo_id, u) ← read 4 u;
      match memo_table_ u !! Z.to_nat memo_id with
      | Some item => Ok (LONG_BINGET, emplace_back item u)
      | None => Err (Exception "std::out_of_range")
      end
  | Some STOP => Ok (STOP, u)
  | Some GLOBAL =>
      '(module_name, u) ← readString u;
      '(class_name, u) ← readString u;
      cls ← getClass class_name;
      if decide (module_name = chars "__main__") then
        mret (GLOBAL,
              emplace_back (SIValue (DInt (PicklerClass_to_uint8 cls))) u)
      else mret (GLOBAL, emplace_back (SIClass cls) u)
  | Some NEWOBJ => u ← pop_back u; mret (NEWOBJ, u)
  | Some BUILD =>
      item ← back u;
      setitem_data ← ivalue item;
      u ← pop_back u;
      item ← back u;
      v ← ivalue item;
      class_tag ← toInt v;
      u ← pop_back u;
      match PicklerClass_of_uint8 class_tag with
      | Some TENSOR =>
          i ← toInt setitem_data;
          tensor ← tensor_table_at i u;
          mret (BUILD, emplace_back (SIValue (DTensor tensor)) u)
      | Some INTLIST => mret (BUILD, emplace_back (SIValue setitem_data) u)
      | None => Err (Exception "Unknown pickler class id")
      end
  | Some REDUCE =>
      item ← back u;
      v ← ivalue item;
      data ← toTuple v;
      u ← pop_back u;
      item ← back u;
      class_name ← pickler_class item;
      u ← pop_back u;
      match class_name with
      | TENSOR =>
          match data !! 0%nat with
          | Some arg =>
              i ← toInt arg;
              tensor ← tensor_table_at i u;
              mret (REDUCE, emplace_back (SIValue (DTensor tensor)) u)
          | None => Err (Exception "std::out_of_range")
          end
      | INTLIST =>
          match data !! 0%nat with
          | Some (DIntList a) =>
              match objects_ u !! a with
              | Some (OIntList elements) =>
                  Ok (REDUCE, emplace_back_new (OIntList elements) u)
              | _ => Err (UndefinedBehavior "dangling int list")
              end
          | Some _ => Err (Exception "isIntList()")
          | None => Err (Exception "std::out_of_range")
          end
      end
  | Some PROTO | Some BINPERSID | Some NONE | None =>
      Err (Exception "Unknown opcode for unpickling")
  end.

(** The loop of [run]: one instruction, then [last_opcode_ = opcode] unless
    it was [STOP].  Every instruction reads at least its opcode byte, so
    [fuel] at least the length of the input is never used up. *)
Fixpoint run_loop (fuel : nat) (u : t) : result t :=
  match bytes_ u with
  | [] =>
      Err (Exception
             "Overran buffer while unpickling data, didn't find STOP opcode")
  | _ :: _ =>
      match fuel with
      | O => Err OutOfFuel
      | S fuel' =>
          '(opcode, u) ← readInstruction u;
          if decide (opcode = STOP) then Ok u
          else run_loop fuel' (set_last_opcode opcode u)
      end
  end.

Definition run (u : t) : result t :=
  '(opcode, u) ← readOpCode u;
  if decide (opcode = Some PROTO) then
    '(protocol, u) ← read 1 u;
    if decide (protocol = 2) then run_loop (length (bytes_ u)) u
    else Err (Exception "Only Pickle protocol 2 is supported")
  else Err (Exception "Expected PROTO opcode at the start of pickle archive").

(** The result is the list of values and the unpickler, whose [objects_]
    the references in the values point into. *)
Definition parse_ivalue_list (u : t) : result (list DValue * t) :=
  u ← run u;
  if decide (length (stack_ u) = 1%nat) then
    match stack_ u !! 0%nat with
    | Some item =>
        value ← ivalue item;
        match value with
        | DGenericList a =>
            match objects_ u !! a with
            | Some (OGenericList elements) => Ok (elements, u)
            | _ => Err (UndefinedBehavior "dangling list")
            end
        | _ => elements ← toTuple value; mret (elements, u)
        end
    | None => Err (UndefinedBehavior "stack_[0] of an empty stack_")
    end
  else Err (Exception "Unpickler expected 1 element on the stack").

End Unpickler.

(** ** Sample data *)

Module Samples.

Definition storage1 : Storage := mkStorage 4660 CPU 2 [1; 2; 3; 4; 5; 6; 7; 8].
Definition tensor1 : Tensor := mkTensor 1 Float [2] [1] storage1 false 2 4.
(** A second handle on the storage of [tensor1]. *)
Definition tensor2 : Tensor := mkTensor 2 Float [1; 2] [2; 1] storage1 false 2 4.

Definition state_of (r : result Pickler.t) : Pickler.t :=
  match r with Ok p => p | Err _ => Pickler.create None end.

(** The pickler after the literal emission of [tensor1], and of [tensor2]
    after it. *)
Definition literal1 : Pickler.t :=
  Eval vm_compute in
    state_of (Pickler.pushLiteralTensor tensor1 (Pickler.create None)).
Definition literal2 : Pickler.t :=
  Eval vm_compute in state_of (Pickler.pushLiteralTensor tensor2 literal1).

End Samples.

(** ** Values: induction, sub-values *)

(** Induction over a value and the values nested in it. *)
Definition IValue_nested_ind (P : IValue → Prop)
  (HNone : P IVNone)
  (HBool : ∀ b, P (IVBool b))
  (HInt : ∀ n, P (IVInt n))
  (HDouble : ∀ bits, P (IVDouble bits))
  (HString : ∀ p s, P (IVString p s))
  (HTuple : ∀ p l, Forall P l → P (IVTuple p l))
  (HList : ∀ p l, Forall P l → P (IVGenericList p l))
  (HDict : ∀ p l, Forall (λ kv, P kv.1 ∧ P kv.2) l → P (IVGenericDict p l))
  (HIntList : ∀ p l, P (IVIntList p l))
  (HTensor : ∀ t, P (IVTensor t))
  (HOther : ∀ k, P (IVOther k)) : ∀ v, P v :=
  fix go (v : IValue) : P v :=
    match v with
    | IVNone => HNone
    | IVBool b => HBool b
    | IVInt n => HInt n
    | IVDouble bits => HDouble bits
    | IVString p s => HString p s
    | IVTuple p l =>
        HTuple p l
          ((fix all (l : list IValue) : Forall P l :=
              match l with
              | [] => List.Forall_nil P
              | x :: l' => List.Forall_cons P x l' (go x) (all l')
              end) l)
    | IVGenericList p l =>
        HList p l
          ((fix all (l : list IValue) : Forall P l :=
              match l with
              | [] => List.Forall_nil P
              | x :: l' => List.Forall_cons P x l' (go x) (all l')
              end) l)
    | IVGenericDict p l =>
        HDict p l
          ((fix all (l : list (IValue * IValue))
              : Forall (λ kv, P kv.1 ∧ P kv.2) l :=
              match l with
              | [] => List.Forall_nil _
              | kv :: l' =>
                  List.Forall_cons (λ kv, P kv.1 ∧ P kv.2) kv l'
                    (conj (go kv.1) (go kv.2)) (all l')
              end) l)
    | IVIntList p l => HIntList p l
    | IVTensor t => HTensor t
    | IVOther k => HOther k
    end.

(** ** Streams of instructions and their memo ids *)

Module MemoStream.

(** The operand that follows an opcode other than the four memo opcodes:
    nothing, a fixed number of bytes, a length and that many bytes, or two
    lines. *)
Definition operand_of (op : OpCode) (operand : list Z) : Prop :=
  match op with
  | MARK | NEWTRUE | NEWFALSE | NONE | EMPTY_LIST | EMPTY_DICT | EMPTY_TUPLE
  | APPENDS | SETITEMS | TUPLE | REDUCE | BINPERSID | BUILD | NEWOBJ =>
      operand = []
  | BININT1 | PROTO => length operand = 1%nat
  | BININT => length operand = 4%nat
  | BINFLOAT => length operand = 8%nat
  | LONG1 => ∃ bs, operand = Z.of_nat (length bs) :: bs ∧ (length bs < 256)%nat
  | BINUNICODE =>
      ∃ s, operand = le_bytes 4 (Z.of_nat (length s)) ++ s ∧
           Z.of_nat (length s) < 2 ^ 32
  | GLOBAL =>
      ∃ module_name class_name,
        operand = module_name ++ [newline] ++ class_name ++ [newline] ∧
        (newline ∉ module_name) ∧ (newline ∉ class_name)
  | STOP | BINPUT | LONG_BINPUT | BINGET | LONG_BINGET => False
  end.

(** [memo_stream n bytes m]: [bytes] is a sequence of whole instructions
    without STOP; read from the left with [n] PUTs seen before it, every PUT
    carries the id that is the number of PUTs before it, every GET carries an
    id below that number, and [m] PUTs have been seen at the end. *)
Inductive memo_stream : Z → list Z → Z → Prop :=
| ms_nil n : memo_stream n [] n
| ms_plain n m op operand rest :
    operand_of op operand →
    memo_stream n rest m →
    memo_stream n (OpCode_byte op :: operand ++ rest) m
| ms_BINPUT n m rest :
    0 ≤ n ≤ 255 →
    memo_stream (n + 1) rest m →
    memo_stream n (OpCode_byte BINPUT :: n :: rest) m
| ms_LONG_BINPUT n m rest :
    0 ≤ n < 2 ^ 32 →
    memo_stream (n + 1) rest m →
    memo_stream n (OpCode_byte LONG_BINPUT :: le_bytes 4 n ++ rest) m
| ms_BINGET n m memo_id rest :
    0 ≤ memo_id < n → memo_id ≤ 255 →
    memo_stream n rest m →
    memo_stream n (OpCode_byte BINGET :: memo_id :: rest) m
| ms_LONG_BINGET n m memo_id rest :
    0 ≤ memo_id < n → memo_id < 2 ^ 32 →
    memo_stream n rest m →
    memo_stream n (OpCode_byte LONG_BINGET :: le_bytes 4 memo_id ++ rest) m.

(** The string payloads of a value fit the 32-bit length of BINUNICODE. *)
Fixpoint strings_fit (v : IValue) : bool :=
  match v with
  | IVString _ s => Z.of_nat (length s) <? 2 ^ 32
  | IVTuple _ l | IVGenericList _ l => forallb strings_fit l
  | IVGenericDict _ l =>
      forallb (λ kv, strings_fit kv.1 && strings_fit kv.2) l
  | _ => true
  end.

(** The memo ids the pickler has handed out are below its counter. *)
Definition memo_inv (p : Pickler.t) : Prop :=
  0 ≤ Pickler.memo_id_ p ≤ 2 ^ 32 ∧
  (∀ q memo_id, Pickler.memo_map_ p !! q = Some memo_id →
     0 ≤ memo_id < Pickler.memo_id_ p) ∧
  (∀ name memo_id, Pickler.memoized_strings_map_ p !! name = Some memo_id →
     0 ≤ memo_id < Pickler.memo_id_ p).

(** From [p] to [p'] the pickler has appended whole instructions with
    correct memo ids, and its memo maps stayed within the counter. *)
Definition emits (p p' : Pickler.t) : Prop :=
  memo_inv p →
  memo_inv p' ∧
  ∃ out, Pickler.stack_ p' = Pickler.stack_ p ++ out ∧
         memo_stream (Pickler.memo_id_ p) out (Pickler.memo_id_ p').

End MemoStream.

(** ** What an encoder call leaves in place *)

Module Frame.

(** From [p] to [p'] the pickler has only added: bytes at the end of
    [stack_], keys to the memo maps (a global keeps its id), ids to the
    counter, tensors at the end of the side table or of the literal list.
    A session keeps its mode, and reference mode collects no literal
    tensor. *)
Definition grows (p p' : Pickler.t) : Prop :=
  Pickler.stack_ p `prefix_of` Pickler.stack_ p' ∧
  (∀ q, is_Some (Pickler.memo_map_ p !! q) →
        is_Some (Pickler.memo_map_ p' !! q)) ∧
  Pickler.memoized_strings_map_ p ⊆ Pickler.memoized_strings_map_ p' ∧
  Pickler.memo_id_ p ≤ Pickler.memo_id_ p' ∧
  match Pickler.tensor_table_ p, Pickler.tensor_table_ p' with
  | Some table, Some table' =>
      table `prefix_of` table' ∧
      Pickler.literal_tensors_ p' = Pickler.literal_tensors_ p
  | None, None =>
      Pickler.literal_tensors_ p `prefix_of` Pickler.literal_tensors_ p'
  | _, _ => False
  end.

End Frame.

(** ** Encoded and decoded values *)

Module RoundTrip.

(** A value and all the values nested in it. *)
Fixpoint subvalues (v : IValue) : list IValue :=
  v :: match v with
       | IVTuple _ l | IVGenericList _ l => flat_map subvalues l
       | IVGenericDict _ l =>
           flat_map (λ kv, subvalues kv.1 ++ subvalues kv.2) l
       | _ => []
       end.

(** One address holds one object: two values with the same pointer are the
    same value. *)
Definition consistent (universe : list IValue) : Prop :=
  ∀ w1 w2 q, w1 ∈ universe → w2 ∈ universe →
    Pickler.getPointer w1 = Some q → Pickler.getPointer w2 = Some q →
    w1 = w2.

Definition scalar_key (k : IValue) : bool :=
  match k with
  | IVBool _ | IVInt _ | IVDouble _ | IVString _ _ => true
  | _ => false
  end.

(** The decoded form of a scalar or string. *)
Definition key_value (k : IValue) : DValue :=
  match k with
  | IVBool b => DBool b
  | IVInt n => DInt n
  | IVDouble bits => DDouble bits
  | IVString _ s => DString s
  | _ => DNone
  end.

Fixpoint distinct_keys (ks : list DValue) : bool :=
  match ks with
  | [] => true
  | k :: ks' => negb (existsb (DValue_eqb k) ks') && distinct_keys ks'
  end.

Definition int64 (n : Z) : bool := (- 2 ^ 63 <=? n) && (n <? 2 ^ 63).

(** The values the decoder can read back: no None (the decoder has no case
    for the opcode NONE) and no tag the encoder rejects; integers of 64 bits,
    doubles as their 64 bits, strings shorter than [2^32]; dicts with
    pairwise different scalar or string keys; tensors only when the session
    has a side table ([reference_mode]). *)
Fixpoint supported (reference_mode : bool) (v : IValue) : bool :=
  match v with
  | IVNone => false
  | IVBool _ => true
  | IVInt n => int64 n
  | IVDouble bits => (0 <=? bits) && (bits <? 2 ^ 64)
  | IVString _ s => Z.of_nat (length s) <? 2 ^ 32
  | IVTuple _ l | IVGenericList _ l => forallb (supported reference_mode) l
  | IVGenericDict _ l =>
      forallb (λ kv, scalar_key kv.1 && supported reference_mode kv.1 &&
                     supported reference_mode kv.2) l &&
      distinct_keys (map (λ kv, key_value kv.1) l)
  | IVIntList _ l => forallb int64 l
  | IVTensor _ => reference_mode
  | IVOther _ => false
  end.

(** The decoded value bound to a pointer: the entry of the decoder's memo
    table at the memo id that the encoder's memo map gives the pointer. *)
Definition decoded_at (memo_map : gmap ptr Z) (memo : list StackItem)
  (q : ptr) : option DValue :=
  match memo_map !! q with
  | Some memo_id =>
      match memo !! Z.to_nat memo_id with
      | Some (SIValue dv) => Some dv
      | _ => None
      end
  | None => None
  end.

(** [represents bound objects pending dv v]: the decoded value [dv], read
    through the store [objects], has the structure and content of [v], and
    where [v] or a value in it has a pointer, the decoded value is the one
    that [bound] gives this pointer: values with one pointer are decoded as
    one value, for a list, an int list or a dict as references to one
    object.  No reference on the way is to an address in [pending] (the
    containers the decoder is still filling). *)
#[warnings="-register-all"]
Inductive represents (bound : ptr → option DValue) (objects : list Object)
  (pending : list nat) : DValue → IValue → Prop :=
| rep_bool b : represents bound objects pending (DBool b) (IVBool b)
| rep_int n : represents bound objects pending (DInt n) (IVInt n)
| rep_double bits :
    represents bound objects pending (DDouble bits) (IVDouble bits)
| rep_string p s :
    bound p = Some (DString s) →
    represents bound objects pending (DString s) (IVString p s)
| rep_tuple p dvs vs :
    bound p = Some (DTuple dvs) →
    Forall2 (represents bound objects pending) dvs vs →
    represents bound objects pending (DTuple dvs) (IVTuple p vs)
| rep_list a p dvs vs :
    bound p = Some (DGenericList a) →
    a ∉ pending →
    objects !! a = Some (OGenericList dvs) →
    Forall2 (represents bound objects pending) dvs vs →
    represents bound objects pending (DGenericList a) (IVGenericList p vs)
| rep_dict a p dkvs kvs :
    bound p = Some (DGenericDict a) →
    a ∉ pending →
    objects !! a = Some (OGenericDict dkvs) →
    Forall2 (λ dkv kv, represents bound objects pending dkv.1 kv.1 ∧
                       represents bound objects pending dkv.2 kv.2) dkvs kvs →
    represents bound objects pending (DGenericDict a) (IVGenericDict p kvs)
| rep_intlist a p ns :
    bound p = Some (DIntList a) →
    a ∉ pending →
    objects !! a = Some (OIntList ns) →
    represents bound objects pending (DIntList a) (IVIntList p ns)
| rep_tensor tensor :
    represents bound objects pending (DTensor tensor) (IVTensor tensor).

(** The reference to the object at an address. *)
Definition ref_for (objects : list Object) (a : nat) : option DValue :=
  match objects !! a with
  | Some (OGenericList _) => Some (DGenericList a)
  | Some (OIntList _) => Some (DIntList a)
  | Some (OGenericDict _) => Some (DGenericDict a)
  | None => None
  end.

(** Instructions of the decoder, run one after the other as the loop of
    [run] does, none of them STOP. *)
Inductive steps : Unpickler.t → Unpickler.t → Prop :=
| steps_refl u : steps u u
| steps_step u op u1 u2 :
    Unpickler.readInstruction u = Ok (op, u1) →
    op ≠ STOP →
    steps (Unpickler.set_last_opcode op u1) u2 →
    steps u u2.

Definition top_is_value (stack : list StackItem) : Prop :=
  last stack ≫= pickler_class_opt = None.

(** The side table the pickler holds is the beginning of the table [table]
    that the decoder is given, whose indices are [int64_t]. *)
Definition table_ok (p : Pickler.t) (table : option (list Tensor)) : Prop :=
  match Pickler.tensor_table_ p with
  | Some t =>
      ∃ t', table = Some t' ∧ t `prefix_of` t' ∧
        Z.of_nat (length t') < 2 ^ 63
  | None => True
  end.

Section invariant.
Context (universe : list IValue).

(** The encoder's memo maps against the decoder's memo table, while the
    decoder reads what the encoder [p] has written.  [pending] lists the
    containers whose PUT is written and whose elements are not complete:
    the pointer on the encoder's side, the address on the decoder's. *)
Record invariant (pending : list (ptr * nat))
  (p : Pickler.t) (u : Unpickler.t) : Prop := {
  inv_memo_id :
    Pickler.memo_id_ p = Z.of_nat (length (Unpickler.memo_table_ u));
  inv_memo_id_max : Pickler.memo_id_ p ≤ 2 ^ 32;
  inv_memo_map :
    ∀ q memo_id, Pickler.memo_map_ p !! q = Some memo_id →
      0 ≤ memo_id ∧
      ∃ dv, Unpickler.memo_table_ u !! Z.to_nat memo_id = Some (SIValue dv) ∧
        ((∃ a, (q, a) ∈ pending ∧
               ref_for (Unpickler.objects_ u) a = Some dv) ∨
         ((q ∉ pending.*1) ∧
          ∀ w, w ∈ universe → Pickler.getPointer w = Some q →
            represents
            (decoded_at (Pickler.memo_map_ p) (Unpickler.memo_table_ u))
            (Unpickler.objects_ u) pending.*2 dv w));
  inv_globals :
    ∀ cls memo_id,
      Pickler.memoized_strings_map_ p !! (getModuleName ++ getClassName cls)
      = Some memo_id →
      0 ≤ memo_id ∧
      Unpickler.memo_table_ u !! Z.to_nat memo_id = Some (SIClass cls);
  inv_pending :
    ∀ q a, (q, a) ∈ pending → (a < length (Unpickler.objects_ u))%nat;
  inv_last_opcode : Unpickler.last_opcode_ u ≠ NEWOBJ;
}.
End invariant.

Section simulation.
Context (universe : list IValue) (table : option (list Tensor)).

(** The encoder went from [p] to [p'] and wrote [out]; the decoder, at the
    start of [out] in a state that matches [p], reads [out] to its end,
    pushes the values [dvs] and is in a state that matches [p']. *)
Definition sim (pending : list (ptr * nat)) (p p' : Pickler.t)
  (out : list Z)
  (R : list StackItem → list Object → list DValue → Prop) : Prop :=
  ∀ stack marks memo lo objects rest,
    invariant universe pending p
      (Unpickler.mk (out ++ rest) stack marks memo table lo objects) →
    rest ≠ [] → top_is_value stack →
    ∃ memo' lo' objects' dvs,
      steps
        (Unpickler.mk (out ++ rest) stack marks memo table lo objects)
        (Unpickler.mk rest (stack ++ map SIValue dvs) marks memo' table lo'
           objects') ∧
      memo `prefix_of` memo' ∧
      objects `prefix_of` objects' ∧
      R memo' objects' dvs ∧
      invariant universe pending p'
        (Unpickler.mk rest (stack ++ map SIValue dvs) marks memo' table lo'
           objects').

(** [translates]: the same, whatever containers are pending, as long as
    the element is [ok] with them.  The encoder keeps what its memo map
    binds, and binds only pointers [inside] the element. *)
Definition translates {A : Type} (ok : list (ptr * nat) → A → Prop)
  (inside : A → ptr → Prop)
  (R : A → gmap ptr Z → list nat → list StackItem → list Object →
       list DValue → Prop)
  (p p' : Pickler.t) (x : A) : Prop :=
  ∃ out, Pickler.stack_ p' = Pickler.stack_ p ++ out ∧
    Pickler.memo_map_ p ⊆ Pickler.memo_map_ p' ∧
    (∀ k, Pickler.memo_map_ p !! k = None →
       is_Some (Pickler.memo_map_ p' !! k) → inside x k) ∧
    ∀ pending, ok pending x →
      sim pending p p' out (R x (Pickler.memo_map_ p') pending.*2).

(** The values in [v] are values of the universe, and none of them is a
    pending container. *)
Definition allowed (pending : list (ptr * nat)) (v : IValue) : Prop :=
  ∀ w, w ∈ subvalues v →
    w ∈ universe ∧
    ∀ q, Pickler.getPointer w = Some q → q ∉ pending.*1.
End simulation.

(** The decoder pushed one value, which represents [v]. *)
Definition one_value (v : IValue) (memo_map : gmap ptr Z) (X : list nat)
  (memo : list StackItem) (objects : list Object) (dvs : list DValue) : Prop :=
  ∃ dv, dvs = [dv] ∧ represents (decoded_at memo_map memo) objects X dv v.

(** [occurs objects dv v dw w]: the decoded value [dw] is at the place
    inside [dv] at which [w] is inside [v], the containers of [dv] looked
    up in the object store. *)
Inductive occurs (objects : list Object) :
  DValue → IValue → DValue → IValue → Prop :=
| occ_here dv v : occurs objects dv v dv v
| occ_tuple p dvs vs i dv v dw w :
    dvs !! i = Some dv → vs !! i = Some v →
    occurs objects dv v dw w →
    occurs objects (DTuple dvs) (IVTuple p vs) dw w
| occ_list a p dvs vs i dv v dw w :
    objects !! a = Some (OGenericList dvs) →
    dvs !! i = Some dv → vs !! i = Some v →
    occurs objects dv v dw w →
    occurs objects (DGenericList a) (IVGenericList p vs) dw w
| occ_key a p dkvs kvs i dkv kv dw w :
    objects !! a = Some (OGenericDict dkvs) →
    dkvs !! i = Some dkv → kvs !! i = Some kv →
    occurs objects dkv.1 kv.1 dw w →
    occurs objects (DGenericDict a) (IVGenericDict p kvs) dw w
| occ_value a p dkvs kvs i dkv kv dw w :
    objects !! a = Some (OGenericDict dkvs) →
    dkvs !! i = Some dkv → kvs !! i = Some kv →
    occurs objects dkv.2 kv.2 dw w →
    occurs objects (DGenericDict a) (IVGenericDict p kvs) dw w.

(** The pointer of a value in [v]. *)
Definition points_inside (v : IValue) (q : ptr) : Prop :=
  ∃ w, w ∈ subvalues v ∧ Pickler.getPointer w = Some q.

Fixpoint IValue_size (v : IValue) : nat :=
  S match v with
    | IVTuple _ l | IVGenericList _ l => list_sum (map IValue_size l)
    | IVGenericDict _ l =>
        list_sum (map (λ kv, IValue_size kv.1 + IValue_size kv.2)%nat l)
    | _ => 0
    end.

(** The values whose tags [addIValue] knows. *)
Fixpoint encodable (v : IValue) : bool :=
  match v with
  | IVOther _ => false
  | IVTuple _ l | IVGenericList _ l => forallb encodable l
  | IVGenericDict _ l => forallb (λ kv, encodable kv.1 && encodable kv.2) l
  | _ => true
  end.

(** [returns k f p]: [f] returns on [p], and binds at most [k] memo ids. *)
Definition returns (k : Z) (f : Pickler.t → result Pickler.t)
  (p : Pickler.t) : Prop :=
  ∃ p', f p = Ok p' ∧
    Pickler.memo_id_ p ≤ Pickler.memo_id_ p' ≤ Pickler.memo_id_ p + k.

End RoundTrip.
(** ** Facts about bytes *)

Section bytes.

Lemma le_bytes_length (n : nat) (z : Z) : length (le_bytes n z) = n.
Proof. revert z; induction n as [|n IH]; intros z; simpl; [done|by rewrite IH]. Qed.

Lemma le_uint_le_bytes (n : nat) (z : Z) :
  le_uint (le_bytes n z) = z mod 2 ^ (8 * Z.of_nat n).
Proof.
  revert z; induction n as [|n IH]; intros z.
  - simpl. by rewrite Z.mod_1_r.
  - cbn [le_bytes le_uint]. rewrite IH.
    replace (8 * Z.of_nat (S n)) with (8 + 8 * Z.of_nat n) by lia.
    rewrite Z.pow_add_r by lia. change (2 ^ 8) with 256.
    rewrite Z.rem_mul_r by lia. lia.
Qed.

Lemma le_bytes_mod (n : nat) (z : Z) :
  le_bytes n (z mod 2 ^ (8 * Z.of_nat n)) = le_bytes n z.
Proof.
  revert z; induction n as [|n IH]; intros z; [done|].
  cbn [le_bytes].
  replace (8 * Z.of_nat (S n)) with (8 + 8 * Z.of_nat n) by lia.
  rewrite Z.pow_add_r by lia. change (2 ^ 8) with 256.
  rewrite Z.rem_mul_r by lia. rewrite (Z.mul_comm 256). f_equal.
  - rewrite Z.mod_add by lia. apply Z.mod_mod; lia.
  - rewrite <- (IH (z / 256)). f_equal.
    rewrite Z.div_add by lia.
    rewrite (Z.div_small (z mod 256)) by (apply Z.mod_pos_bound; lia). lia.
Qed.

Lemma to_signed_mod (n : nat) (z : Z) :
  (0 < n)%nat →
  - 2 ^ (8 * Z.of_nat n - 1) ≤ z < 2 ^ (8 * Z.of_nat n - 1) →
  to_signed n (z mod 2 ^ (8 * Z.of_nat n)) = z.
Proof.
  intros Hn Hz. unfold to_signed.
  assert (Hp : 2 ^ (8 * Z.of_nat n) = 2 * 2 ^ (8 * Z.of_nat n - 1)).
  { rewrite <- Z.pow_succ_r by lia. f_equal; lia. }
  assert (0 < 2 ^ (8 * Z.of_nat n - 1)) by (apply Z.pow_pos_nonneg; lia).
  destruct (Z_lt_le_dec z 0) as [Hneg|Hpos].
  - assert (Hm : z mod 2 ^ (8 * Z.of_nat n) = z + 2 ^ (8 * Z.of_nat n)).
    { symmetry. apply (Z.mod_unique _ _ (-1)); lia. }
    rewrite Hm. destruct (Z.ltb_spec (z + 2 ^ (8 * Z.of_nat n))
                            (2 ^ (8 * Z.of_nat n - 1))); lia.
  - rewrite Z.mod_small by lia.
    destruct (Z.ltb_spec z (2 ^ (8 * Z.of_nat n - 1))); lia.
Qed.

Lemma le_uint_rev_rev (bs : list Z) : le_uint (rev (rev bs)) = le_uint bs.
Proof. by rewrite rev_involutive. Qed.

Lemma le_bytes_mod256 (n : nat) (z : Z) :
  Forall (λ b, b mod 256 = b) (le_bytes n z).
Proof.
  revert z; induction n as [|n IH]; intros z; simpl; constructor; [|done].
  apply Z.mod_mod; lia.
Qed.

Lemma le_bytes_range (n : nat) (z : Z) :
  Forall (λ b, 0 ≤ b < 256) (le_bytes n z).
Proof.
  revert z; induction n as [|n IH]; intros z; simpl; constructor; [|done].
  apply Z.mod_pos_bound; lia.
Qed.

End bytes.

(** ** Facts about the encoder *)

Module PicklerFacts.
Import Pickler.

Lemma stack_insert_end bs p : stack_ (insert_end bs p) = stack_ p ++ bs.
Proof. done. Qed.

Lemma insert_end_insert_end a b p :
  insert_end a (insert_end b p) = insert_end (b ++ a) p.
Proof. unfold insert_end. simpl. by rewrite <- app_assoc. Qed.

Lemma insert_end_nil p : insert_end [] p = p.
Proof. unfold insert_end. rewrite app_nil_r. by destruct p. Qed.

Lemma literal_tensors_insert_end bs p :
  literal_tensors_ (insert_end bs p) = literal_tensors_ p.
Proof. done. Qed.

Lemma stack_push n v p : stack_ (push n v p) = stack_ p ++ le_bytes n v.
Proof. done. Qed.

Lemma stack_pushOp op p : stack_ (pushOp op p) = stack_ p ++ op_bytes op.
Proof.
  unfold pushOp, op_bytes. rewrite stack_push. simpl. f_equal. f_equal.
  by destruct op.
Qed.

Lemma stack_pushInt n p : stack_ (pushInt n p) = stack_ p ++ pushInt_bytes n.
Proof.
  unfold pushInt_bytes, pushInt.
  repeat case_match; rewrite ?stack_push, ?stack_pushOp; simpl;
    by rewrite <- ?app_assoc.
Qed.

Lemma stack_pushBinGet id p :
  stack_ (pushBinGet id p) = stack_ p ++ pushBinGet_bytes id.
Proof.
  unfold pushBinGet_bytes, pushBinGet.
  case_match; rewrite ?stack_push, ?stack_pushOp; simpl;
    by rewrite <- ?app_assoc.
Qed.

Lemma pushDouble_bytes_eq bits :
  pushDouble_bytes bits = OpCode_byte BINFLOAT :: rev (le_bytes 8 bits).
Proof.
  unfold pushDouble_bytes, pushDouble.
  pose proof (le_bytes_length 8 bits) as Hlen.
  pose proof (le_bytes_mod256 8 bits) as Hmod.
  destruct (le_bytes 8 bits) as [|b0 [|b1 [|b2 [|b3 [|b4 [|b5 [|b6 [|b7 [|]]]]]]]]];
    try done.
  repeat match goal with
         | H : Forall _ (_ :: _) |- _ =>
             apply Forall_cons in H as [? H]
         end.
  simpl. change (71 mod 256) with 71. congruence.
Qed.

Lemma pushDouble_frame bits p :
  pushDouble bits p = insert_end (pushDouble_bytes bits) p.
Proof.
  unfold pushDouble_bytes, pushDouble.
  generalize (le_bytes 8 bits) as l. intros l. destruct p.
  cbv [fold_left seq push pushOp insert_end stack_ memo_map_
       memoized_strings_map_ memoized_ivalues_ memo_id_ tensor_table_
       literal_tensors_ temporaries_ create le_bytes Nat.sub nth].
  rewrite <- !app_assoc. reflexivity.
Qed.

Lemma stack_pushDouble bits p :
  stack_ (pushDouble bits p) = stack_ p ++ pushDouble_bytes bits.
Proof. by rewrite pushDouble_frame. Qed.

(** [pushInt], [pushBinGet] and [pushDouble] only write to [stack_]. *)
Lemma pushInt_frame n p :
  pushInt n p = insert_end (pushInt_bytes n) p.
Proof.
  unfold pushInt_bytes, pushInt, push, pushOp, push, insert_end.
  destruct p; repeat case_match; simpl; by rewrite <- ?app_assoc.
Qed.

Lemma pushBinGet_frame id p :
  pushBinGet id p = insert_end (pushBinGet_bytes id) p.
Proof.
  unfold pushBinGet_bytes, pushBinGet, push, pushOp, push, insert_end.
  destruct p; repeat case_match; simpl; by rewrite <- ?app_assoc.
Qed.

Lemma pushOp_frame op p : pushOp op p = insert_end (op_bytes op) p.
Proof.
  unfold pushOp, push, op_bytes. f_equal. simpl. f_equal. by destruct op.
Qed.

Lemma addIValue_bool_frame b p :
  addIValue_bool b p =
    insert_end (op_bytes (if b then NEWTRUE else NEWFALSE)) p.
Proof. unfold addIValue_bool. destruct b; apply pushOp_frame. Qed.

Lemma pushNextBinPut_spec p :
  memo_id_ p ≤ 4294967295 →
  pushNextBinPut p =
    Ok (mk (stack_ p ++ pushNextBinPut_bytes (memo_id_ p)) (memo_map_ p)
          (memoized_strings_map_ p) (memoized_ivalues_ p) (memo_id_ p + 1)
          (tensor_table_ p) (literal_tensors_ p) (temporaries_ p),
        memo_id_ p).
Proof.
  intros Hle. unfold pushNextBinPut, pushNextBinPut_bytes.
  destruct (Z.leb_spec (memo_id_ p) 4294967295); [|lia].
  destruct (Z.leb_spec (memo_id_ p) 255); simpl;
    replace (memo_id_ p + 1 - 1) with (memo_id_ p) by lia;
    rewrite <- !app_assoc; reflexivity.
Qed.

Lemma pushNextBinPut_Ok p p' id :
  pushNextBinPut p = Ok (p', id) →
  memo_id_ p ≤ 4294967295 ∧ id = memo_id_ p ∧
  p' = mk (stack_ p ++ pushNextBinPut_bytes (memo_id_ p)) (memo_map_ p)
          (memoized_strings_map_ p) (memoized_ivalues_ p) (memo_id_ p + 1)
          (tensor_table_ p) (literal_tensors_ p) (temporaries_ p).
Proof.
  intros H. destruct (Z_le_gt_dec (memo_id_ p) 4294967295) as [Hle|Hgt].
  - rewrite pushNextBinPut_spec in H by done. by inversion H.
  - unfold pushNextBinPut in H.
    destruct (Z.leb_spec (memo_id_ p) 4294967295); [lia|done].
Qed.

Lemma pushGlobal_Ok name p p' :
  pushGlobal name p = Ok p' →
  p' = mk (stack_ p ++ pushGlobal_bytes name p) (memo_map_ p)
          (match memoized_strings_map_ p !! name with
           | None => <[name := memo_id_ p]> (memoized_strings_map_ p)
           | Some _ => memoized_strings_map_ p
           end)
          (memoized_ivalues_ p)
          (match memoized_strings_map_ p !! name with
           | None => memo_id_ p + 1
           | Some _ => memo_id_ p
           end)
          (tensor_table_ p) (literal_tensors_ p) (temporaries_ p) ∧
  (memoized_strings_map_ p !! name = None → memo_id_ p ≤ 4294967295).
Proof.
  unfold pushGlobal, pushGlobal_bytes.
  destruct (memoized_strings_map_ p !! name) as [id|] eqn:Hl.
  - intros [= <-]. rewrite pushBinGet_frame. by destruct p.
  - destruct (pushNextBinPut _) as [[q id]|e] eqn:Hput; [|done].
    simpl. intros [= <-].
    apply pushNextBinPut_Ok in Hput as (Hle & -> & ->). simpl.
    split; [|done]. unfold op_bytes. by rewrite <- !app_assoc.
Qed.

Lemma pushGlobal_total name p :
  (memoized_strings_map_ p !! name = None → memo_id_ p ≤ 4294967295) →
  ∃ p', pushGlobal name p = Ok p'.
Proof.
  intros H. unfold pushGlobal.
  destruct (memoized_strings_map_ p !! name) as [id|] eqn:Hl; [by eexists|].
  rewrite pushNextBinPut_spec by (simpl; auto). simpl. by eexists.
Qed.

Lemma pushInt_bytes_cases (n : Z) :
  (-128 ≤ n ≤ 127 ∧ pushInt_bytes n = OpCode_byte BININT1 :: le_bytes 1 n) ∨
  (¬ (-128 ≤ n ≤ 127) ∧ - 2 ^ 31 ≤ n < 2 ^ 31 ∧
   pushInt_bytes n = OpCode_byte BININT :: le_bytes 4 n) ∨
  (¬ (- 2 ^ 31 ≤ n < 2 ^ 31) ∧
   pushInt_bytes n = OpCode_byte LONG1 :: 8 :: le_bytes 8 n).
Proof.
  unfold pushInt_bytes, pushInt.
  destruct (Z.leb_spec (-128) n), (Z.leb_spec n 127); cbn [andb];
    try destruct (Z.leb_spec (-2147483648) n);
    try destruct (Z.leb_spec n 2147483647); cbn [andb];
    first [ left; split; [lia|reflexivity]
          | right; left; split; [lia|split; [lia|reflexivity]]
          | right; right; split; [lia|reflexivity] ].
Qed.

(** Inversion of a successful bind. *)
Lemma bind_Ok {A B} (m : result A) (f : A → result B) (b : B) :
  m ≫= f = Ok b → ∃ a, m = Ok a ∧ f a = Ok b.
Proof. destruct m as [a|e]; [|done]. intros H. by exists a. Qed.

Ltac inv_bind H :=
  let a := fresh "q" in
  let Ha := fresh "Hq" in
  apply bind_Ok in H as (a & Ha & H).

Lemma pushMemoization_Ok ivalue p p' :
  pushMemoization ivalue p = Ok p' →
  ∃ item, getPointer ivalue = Some item ∧ memo_id_ p ≤ 4294967295 ∧
    p' = mk (stack_ p ++ pushNextBinPut_bytes (memo_id_ p))
            (<[item := memo_id_ p]> (memo_map_ p)) (memoized_strings_map_ p)
            (memoized_ivalues_ p ++ [ivalue]) (memo_id_ p + 1)
            (tensor_table_ p) (literal_tensors_ p) (temporaries_ p).
Proof.
  unfold pushMemoization. destruct (getPointer ivalue) as [item|]; [|done].
  unfold pushMemoization_ptr. intros H. inv_bind H. destruct q as [q id].
  apply pushNextBinPut_Ok in Hq as (Hle & -> & ->). simpl in *.
  injection H as <-. by exists item.
Qed.

Lemma pushMemoization_total ivalue item p :
  getPointer ivalue = Some item → memo_id_ p ≤ 4294967295 →
  ∃ p', pushMemoization ivalue p = Ok p'.
Proof.
  intros Hp Hle. unfold pushMemoization. rewrite Hp. unfold pushMemoization_ptr.
  rewrite pushNextBinPut_spec by done. by eexists.
Qed.

(** What [pushMemoizedString] writes before the PUT. *)
Lemma pushMemoizedString_Ok ivalue string p p' :
  pushMemoizedString ivalue string p = Ok p' →
  ∃ item, getPointer ivalue = Some item ∧ memo_id_ p ≤ 4294967295 ∧
    p' = mk (stack_ p ++ op_bytes BINUNICODE ++
             le_bytes 4 (Z.of_nat (length string)) ++ string ++
             pushNextBinPut_bytes (memo_id_ p))
            (<[item := memo_id_ p]> (memo_map_ p)) (memoized_strings_map_ p)
            (memoized_ivalues_ p ++ [ivalue]) (memo_id_ p + 1)
            (tensor_table_ p) (literal_tensors_ p) (temporaries_ p).
Proof.
  unfold pushMemoizedString. intros H.
  apply pushMemoization_Ok in H as (item & Hp & Hle & ->).
  exists item. split; [done|]. split; [done|].
  rewrite pushOp_frame. unfold pushString, push, insert_end. cbn.
  by rewrite <- !app_assoc.
Qed.


Lemma fold_left_pushInt (ns : list Z) (p : t) :
  fold_left (λ p n, pushInt n p) ns p =
    insert_end (concat (map pushInt_bytes ns)) p.
Proof.
  revert p; induction ns as [|n ns IH]; intros p; simpl.
  - unfold insert_end. rewrite app_nil_r. by destruct p.
  - rewrite IH, pushInt_frame. unfold insert_end. simpl.
    by rewrite <- app_assoc.
Qed.

End PicklerFacts.

(** ** The encoder: integers, tensors *)

Module PicklerClaims.
Import Pickler PicklerFacts.

(** C7.  [pushInt] selects the opcode by range alone: BININT1 and one signed
    byte exactly for [-128, 127]; BININT and four little-endian signed bytes
    exactly for the rest of [-2^31, 2^31); LONG1, the length 8 and eight
    little-endian signed bytes otherwise.  The boundary values -128, 127,
    -2^31 and 2^31 - 1 get BININT1, BININT1, BININT and BININT. *)
Theorem pushInt_selects_opcode_by_range (n : Z) (p : t) :
  - 2 ^ 63 ≤ n < 2 ^ 63 →
  (∃ op payload,
     stack_ (pushInt n p) = stack_ p ++ OpCode_byte op :: payload ∧
     (op = BININT1 ↔ -128 ≤ n ≤ 127) ∧
     (op = BININT ↔ (- 2 ^ 31 ≤ n < 2 ^ 31) ∧ ¬ (-128 ≤ n ≤ 127)) ∧
     (op = LONG1 ↔ ¬ (- 2 ^ 31 ≤ n < 2 ^ 31)) ∧
     (op = BININT1 → ∃ b, payload = [b] ∧ to_signed 1 b = n) ∧
     (op = BININT →
      length payload = 4%nat ∧ to_signed 4 (le_uint payload) = n) ∧
     (op = LONG1 →
      ∃ bs, payload = 8 :: bs ∧ length bs = 8%nat ∧
            to_signed 8 (le_uint bs) = n)) ∧
  pushInt_bytes (-128) = [OpCode_byte BININT1; 0x80] ∧
  pushInt_bytes 127 = [OpCode_byte BININT1; 0x7F] ∧
  pushInt_bytes (- 2 ^ 31) = [OpCode_byte BININT; 0; 0; 0; 0x80] ∧
  pushInt_bytes (2 ^ 31 - 1) = [OpCode_byte BININT; 0xFF; 0xFF; 0xFF; 0x7F].
Proof.
  intros Hn. split; [|repeat split; reflexivity].
  rewrite stack_pushInt.
  destruct (pushInt_bytes_cases n) as [[Hr ->]|[(Hr1 & Hr2 & ->)|[Hr ->]]].
  - exists BININT1, (le_bytes 1 n). repeat split; try done; try lia.
    intros _. eexists; split; [reflexivity|].
    change (n mod 256) with (n mod 2 ^ (8 * Z.of_nat 1)).
    apply to_signed_mod; [lia|]. simpl; lia.
  - exists BININT, (le_bytes 4 n). repeat split; try done; try lia.
    rewrite le_uint_le_bytes. apply to_signed_mod; [lia|]. simpl; lia.
  - exists LONG1, (8 :: le_bytes 8 n). repeat split; try done; try lia.
    intros _. eexists; split; [reflexivity|]. split; [done|].
    rewrite le_uint_le_bytes. apply to_signed_mod; [lia|]. simpl; lia.
Qed.

Lemma pushInt_selects_opcode_by_range_witness :
  ∃ op payload,
    stack_ (pushInt (-129) (create None)) = [] ++ OpCode_byte op :: payload ∧
    (op = BININT ↔ (- 2 ^ 31 ≤ -129 < 2 ^ 31) ∧ ¬ (-128 ≤ -129 ≤ 127)).
Proof.
  destruct (pushInt_selects_opcode_by_range (-129) (create None))
    as [(op & payload & H1 & _ & H2 & _) _]; [lia|].
  exists op, payload. split; [exact H1|exact H2].
Defined.

(** C9 (counterexample).  A session in reference mode that emits the same
    tensor twice: the second emission has no GLOBAL, it starts with a BINGET
    for the memo id 0 of the global (the bytes 0x68 0x00). *)
Lemma second_tensor_emission_starts_with_BINGET :
  let tensor :=
    mkTensor 1 Float [2] [1] (mkStorage 2 CPU 2 [0; 0; 0; 0; 0; 0; 0; 0])
      false 2 4 in
  (λ p, (stack p, tensor_table_ p)) <$>
    session (Some []) [IVTensor tensor; IVTensor tensor] =
  Ok ([OpCode_byte PROTO; 2; OpCode_byte MARK] ++
      (* the first emission *)
      (op_bytes GLOBAL ++ getModuleName ++ getClassName TENSOR ++
       [OpCode_byte BINPUT; 0] ++
       [OpCode_byte MARK; OpCode_byte BININT1; 0; OpCode_byte TUPLE;
        OpCode_byte REDUCE]) ++
      (* the second emission *)
      [OpCode_byte BINGET; 0; OpCode_byte MARK; OpCode_byte BININT1; 1;
       OpCode_byte TUPLE; OpCode_byte REDUCE] ++
      [OpCode_byte TUPLE; OpCode_byte STOP],
      Some [tensor; tensor]).
Proof. vm_compute. reflexivity. Qed.

(** C9 (amended).  In reference mode every emission of a tensor appends
    exactly one entry to the side table and writes the reference to the
    global [torch.jit._pickle build_tensor_from_id], then MARK, the Int of
    the entry's zero-based position, TUPLE and REDUCE.  The reference to the
    global is GLOBAL with its two names and a PUT the first time the session
    writes it, and a GET of that memo id afterwards.  The tensor itself is
    never bound in the memo map and is never replaced by a GET. *)
Theorem tensor_reference_emission (tensor : Tensor)
  (tensor_table : list Tensor) (p : t) :
  tensor_table_ p = Some tensor_table →
  (memoized_strings_map_ p !! (getModuleName ++ getClassName TENSOR) = None →
   memo_id_ p ≤ 4294967295) →
  ∃ p' global_reference,
    addIValue (IVTensor tensor) p = Ok p' ∧
    tensor_table_ p' = Some (tensor_table ++ [tensor]) ∧
    memo_map_ p' = memo_map_ p ∧
    stack_ p' =
      stack_ p ++ global_reference ++ op_bytes MARK ++
      pushInt_bytes (Z.of_nat (length tensor_table)) ++
      op_bytes TUPLE ++ op_bytes REDUCE ∧
    (memoized_strings_map_ p !! (getModuleName ++ getClassName TENSOR) = None →
     global_reference =
       op_bytes GLOBAL ++ (getModuleName ++ getClassName TENSOR) ++
       pushNextBinPut_bytes (memo_id_ p)) ∧
    (∀ memo_id,
       memoized_strings_map_ p !! (getModuleName ++ getClassName TENSOR)
       = Some memo_id →
       global_reference = pushBinGet_bytes memo_id).
Proof.
  intros Htab Hid.
  destruct (pushGlobal_total _ _ Hid) as [q Hq].
  pose proof (pushGlobal_Ok _ _ _ Hq) as [Hq' _].
  exists (pushOp REDUCE (pushOp TUPLE (pushInt
            (Z.of_nat (length (tensor_table ++ [tensor])) - 1) (pushOp MARK
            (mk (stack_ q) (memo_map_ q) (memoized_strings_map_ q)
               (memoized_ivalues_ q) (memo_id_ q)
               (Some (tensor_table ++ [tensor])) (literal_tensors_ q)
               (temporaries_ q)))))),
    (pushGlobal_bytes (getModuleName ++ getClassName TENSOR) p).
  split.
  { cbn [addIValue getPointer mbind option_bind]. unfold pushTensor.
    rewrite Htab. unfold pushTensorReference, pushClass. rewrite Hq.
    reflexivity. }
  rewrite !pushOp_frame, pushInt_frame. cbn.
  replace (Z.of_nat (length (tensor_table ++ [tensor])) - 1)
    with (Z.of_nat (length tensor_table))
    by (rewrite length_app; simpl; lia).
  rewrite Hq'. cbn. rewrite <- !app_assoc.
  repeat split; try done.
  - intros Hnone. unfold pushGlobal_bytes. by rewrite Hnone.
  - intros id Hsome. unfold pushGlobal_bytes. by rewrite Hsome.
Qed.

Lemma tensor_reference_emission_witness :
  let tensor :=
    mkTensor 1 Float [2] [1] (mkStorage 2 CPU 2 [0; 0; 0; 0; 0; 0; 0; 0])
      false 2 4 in
  ∃ p', addIValue (IVTensor tensor) (create (Some [])) = Ok p' ∧
        tensor_table_ p' = Some [tensor].
Proof.
  intros tensor.
  destruct (tensor_reference_emission tensor [] (create (Some [])))
    as (p' & g & H1 & H2 & _); [reflexivity|simpl; lia|].
  exists p'. split; [exact H1|exact H2].
Defined.

(** [finish] *)

Lemma getWriteableTensor_Ok tensor :
  ∃ storage_tensor,
    getWriteableTensor tensor =
      Ok (storage_tensor,
          element_size tensor * storage_size (storage tensor)) ∧
    storage_data (storage storage_tensor) = storage_data (storage tensor).
Proof.
  unfold getWriteableTensor. destruct (device_type (storage tensor)).
  - by eexists.
  - rewrite decide_True by done. by eexists.
Qed.

Lemma pushTensorData_Ok tensor p :
  pushTensorData tensor p = Ok (insert_end (tensor_record tensor) p).
Proof.
  unfold pushTensorData.
  destruct (getWriteableTensor_Ok tensor) as (st & -> & Hd). simpl.
  rewrite Hd. unfold tensor_record, storage_bytes, insert_end. simpl.
  by rewrite <- app_assoc.
Qed.

Lemma forEach_pushTensorData tensors p :
  forEach pushTensorData tensors p =
    Ok (insert_end (concat (map tensor_record tensors)) p).
Proof.
  revert p; induction tensors as [|x l IH]; intros p; simpl.
  - unfold insert_end. rewrite app_nil_r. by destruct p.
  - rewrite pushTensorData_Ok. simpl. rewrite IH. unfold insert_end. simpl.
    by rewrite <- app_assoc.
Qed.

Lemma fold_left_key_entries tensors p :
  fold_left
    (λ p tensor,
       let key := to_string (getStorageKey tensor) in
       pushString key (push 4 (Z.of_nat (length key)) (pushOp BINUNICODE p)))
    tensors p
  = insert_end (concat (map key_entry tensors)) p.
Proof.
  revert p; induction tensors as [|x l IH]; intros p; simpl.
  - unfold insert_end. rewrite app_nil_r. by destruct p.
  - rewrite IH. unfold insert_end, key_entry, pushString, push, pushOp, push,
      insert_end, op_bytes. destruct p. simpl.
    rewrite <- !app_assoc. reflexivity.
Qed.

Lemma finish_Ok p :
  finish p =
    Ok (insert_end
          (op_bytes STOP ++
           match literal_tensors_ p with
           | [] => []
           | _ :: _ =>
               [OpCode_byte PROTO; PROTOCOL_VERSION] ++ op_bytes MARK ++
               concat (map key_entry (literal_tensors_ p)) ++
               op_bytes TUPLE ++ op_bytes STOP ++
               concat (map tensor_record (literal_tensors_ p))
           end) p).
Proof.
  unfold finish, start. cbv zeta. rewrite !pushOp_frame. unfold push.
  rewrite !literal_tensors_insert_end.
  destruct (literal_tensors_ p) as [|x l] eqn:Hl.
  - by rewrite app_nil_r.
  - rewrite fold_left_key_entries, !insert_end_insert_end.
    rewrite literal_tensors_insert_end, Hl, forEach_pushTensorData.
    rewrite insert_end_insert_end. rewrite <- !app_assoc. reflexivity.
Qed.






End PicklerClaims.

(** ** The encoder: memo ids *)

Module MemoFacts.
Import Pickler PicklerFacts MemoStream.

Lemma memo_stream_app n m k a b :
  memo_stream n a m → memo_stream m b k → memo_stream n (a ++ b) k.
Proof.
  induction 1 as [| n m op operand rest Hop _ IH | n m rest Hn _ IH
                 | n m rest Hn _ IH | n m id rest Hid Hle _ IH
                 | n m id rest Hid Hle _ IH]; intros Hb;
    rewrite <- ?app_comm_cons, <- ?app_assoc.
  - done.
  - by apply ms_plain; [|apply IH].
  - by apply ms_BINPUT; [|apply IH].
  - by apply ms_LONG_BINPUT; [|apply IH].
  - by apply ms_BINGET; [| |apply IH].
  - by apply ms_LONG_BINGET; [| |apply IH].
Qed.

Lemma memo_stream_plain n op operand :
  operand_of op operand → memo_stream n (OpCode_byte op :: operand) n.
Proof.
  intros H. rewrite <- (app_nil_r operand). apply ms_plain; [done|constructor].
Qed.

Lemma emits_refl p : emits p p.
Proof.
  intros Hi. split; [done|]. exists []. split; [by rewrite app_nil_r|constructor].
Qed.

Lemma emits_same p p' :
  stack_ p' = stack_ p → memo_map_ p' = memo_map_ p →
  memoized_strings_map_ p' = memoized_strings_map_ p →
  memo_id_ p' = memo_id_ p → emits p p'.
Proof.
  intros Hs Hm Hg Hid Hi. unfold memo_inv. rewrite Hs, Hm, Hg, Hid.
  split; [exact Hi|]. exists []. split; [by rewrite app_nil_r|constructor].
Qed.

Lemma emits_trans p1 p2 p3 : emits p1 p2 → emits p2 p3 → emits p1 p3.
Proof.
  intros H12 H23 Hi. destruct (H12 Hi) as (Hi2 & o1 & Hs1 & Hm1).
  destruct (H23 Hi2) as (Hi3 & o2 & Hs2 & Hm2).
  split; [done|]. exists (o1 ++ o2). split.
  - by rewrite Hs2, Hs1, <- app_assoc.
  - by eapply memo_stream_app.
Qed.

Lemma emits_insert_end_plain op operand p :
  operand_of op operand →
  emits p (insert_end (OpCode_byte op :: operand) p).
Proof.
  intros Hop Hi. split; [exact Hi|]. eexists. split; [done|].
  by apply memo_stream_plain.
Qed.

Lemma emits_pushOp op p :
  operand_of op [] → emits p (pushOp op p).
Proof. intros H. rewrite pushOp_frame. by apply emits_insert_end_plain. Qed.

Lemma emits_pushInt n p : emits p (pushInt n p).
Proof.
  rewrite pushInt_frame.
  destruct (pushInt_bytes_cases n) as [[_ ->]|[(_ & _ & ->)|[_ ->]]];
    apply emits_insert_end_plain; simpl; try done.
  exists (le_bytes 8 n). split; [done|]. simpl. lia.
Qed.

Lemma emits_fold_left_pushInt ns p :
  emits p (fold_left (λ p n, pushInt n p) ns p).
Proof.
  revert p; induction ns as [|n ns IH]; intros p; simpl.
  - apply emits_refl.
  - eapply emits_trans; [apply emits_pushInt|apply IH].
Qed.

Lemma emits_pushDouble bits p : emits p (pushDouble bits p).
Proof.
  rewrite pushDouble_frame, pushDouble_bytes_eq.
  apply emits_insert_end_plain. unfold operand_of.
  by rewrite length_rev, le_bytes_length.
Qed.

Lemma emits_addIValue_bool b p : emits p (addIValue_bool b p).
Proof. destruct b; by apply emits_pushOp. Qed.

Lemma emits_pushBinGet memo_id p :
  0 ≤ memo_id < memo_id_ p → emits p (pushBinGet memo_id p).
Proof.
  intros Hid Hi. split; [rewrite pushBinGet_frame; exact Hi|].
  rewrite pushBinGet_frame. eexists. split; [done|].
  unfold pushBinGet_bytes, pushBinGet. destruct Hi as ((_ & Hmax) & _).
  destruct (Z.leb_spec memo_id 255).
  - simpl. change (104 mod 256) with (OpCode_byte BINGET).
    rewrite (Z.mod_small memo_id) by lia.
    apply ms_BINGET; [exact Hid|lia|constructor].
  - change (stack_ _) with (OpCode_byte LONG_BINGET :: le_bytes 4 memo_id).
    rewrite <- (app_nil_r (le_bytes 4 memo_id)).
    apply ms_LONG_BINGET; [exact Hid|lia|constructor].
Qed.

Lemma memo_stream_put n :
  0 ≤ n ≤ 4294967295 → memo_stream n (pushNextBinPut_bytes n) (n + 1).
Proof.
  intros Hn. unfold pushNextBinPut_bytes. destruct (Z.leb_spec n 255).
  - simpl. rewrite (Z.mod_small n) by lia. apply ms_BINPUT; [lia|constructor].
  - rewrite <- (app_nil_r (le_bytes 4 n)).
    apply ms_LONG_BINPUT; [lia|constructor].
Qed.

Lemma emits_pushMemoization ivalue p p' :
  pushMemoization ivalue p = Ok p' → emits p p'.
Proof.
  intros H Hi. apply pushMemoization_Ok in H as (item & Hp & Hle & ->).
  destruct Hi as ((H0 & Hmax) & Hm & Hs). split.
  - unfold memo_inv. simpl. split; [lia|]. split.
    + intros q id. rewrite lookup_insert. case_decide as Hq.
      * intros [= <-]. lia.
      * intros Hl%Hm. lia.
    + intros name id Hl%Hs. lia.
  - eexists. split; [done|]. simpl. apply memo_stream_put. lia.
Qed.

Lemma emits_pushMemoizedString ivalue string p p' :
  Z.of_nat (length string) < 2 ^ 32 →
  pushMemoizedString ivalue string p = Ok p' → emits p p'.
Proof.
  intros Hlen H. unfold pushMemoizedString in H.
  eapply emits_trans; [|by eapply emits_pushMemoization].
  rewrite pushOp_frame. unfold pushString, push.
  rewrite !insert_end_insert_end. apply emits_insert_end_plain.
  simpl. by exists string.
Qed.

Lemma emits_pushMemoizedString_temporary string p p' :
  Z.of_nat (length string) < 2 ^ 32 →
  pushMemoizedString_temporary string p = Ok p' → emits p p'.
Proof.
  intros Hlen H. unfold pushMemoizedString_temporary in H.
  intros Hi. eapply emits_pushMemoizedString in H; [|done].
  apply H. exact Hi.
Qed.

Lemma emits_pushGlobal module_name class_name p p' :
  newline ∉ module_name → newline ∉ class_name →
  pushGlobal (module_name ++ [newline] ++ class_name ++ [newline]) p = Ok p' →
  emits p p'.
Proof.
  intros Hm Hc H Hi. apply pushGlobal_Ok in H as [-> Hle].
  unfold pushGlobal_bytes. pose proof Hi as ((H0 & Hmax) & Hmm & Hs).
  destruct (memoized_strings_map_ p !! _) as [id|] eqn:Hl.
  - pose proof (Hs _ _ Hl) as Hid.
    destruct (emits_pushBinGet id p Hid Hi) as (Hi' & out & Hout & Hst).
    rewrite pushBinGet_frame in Hout, Hi', Hst. split.
    + exact Hi'.
    + eexists. split; [done|]. simpl in Hout.
      apply app_inv_head in Hout. subst out. exact Hst.
  - specialize (Hle eq_refl). split.
    + unfold memo_inv. simpl. split; [lia|]. split.
      * intros q id Hq%Hmm. lia.
      * intros name id. rewrite lookup_insert. case_decide as Hq.
        -- intros [= <-]. lia.
        -- intros Hq'%Hs. lia.
    + eexists. split; [done|].
      change (memo_stream (memo_id_ p)
                (OpCode_byte GLOBAL ::
                 (module_name ++ [newline] ++ class_name ++ [newline]) ++
                 pushNextBinPut_bytes (memo_id_ p)) (memo_id_ p + 1)).
      apply ms_plain.
      * by exists module_name, class_name.
      * apply memo_stream_put. lia.
Qed.

(** The defining equation of [addIValue]. *)
Lemma addIValue_eq (ivalue : IValue) (p : t) :
  addIValue ivalue p =
  match getPointer ivalue ≫= (λ ivalue_ptr, memo_map_ p !! ivalue_ptr) with
  | Some memo_id => Ok (pushBinGet memo_id p)
  | None =>
      match ivalue with
      | IVTensor tensor => pushTensor tensor p
      | IVTuple _ tuple =>
          let p := pushOp MARK p in
          p ← forEach addIValue tuple p;
          let p := pushOp TUPLE p in
          pushMemoization ivalue p
      | IVDouble bits => Ok (pushDouble bits p)
      | IVInt n => Ok (pushInt n p)
      | IVBool b => Ok (addIValue_bool b p)
      | IVString _ string => pushMemoizedString ivalue string p
      | IVGenericList _ list =>
          let p := pushOp EMPTY_LIST p in
          p ← pushMemoization ivalue p;
          let p := pushOp MARK p in
          p ← forEach addIValue list p;
          mret (pushOp APPENDS p)
      | IVGenericDict _ dict_items =>
          let p := pushOp EMPTY_DICT p in
          p ← pushMemoization ivalue p;
          let p := pushOp MARK p in
          p ← forEach (λ pair p, p ← addIValue pair.1 p; addIValue pair.2 p)
                dict_items p;
          mret (pushOp SETITEMS p)
      | IVNone => Ok (pushOp NONE p)
      | IVIntList _ elements => pushIntList ivalue elements p
      | IVOther _ => Err (Exception "Unknown IValue type for pickling")
      end
  end.
Proof. by destruct ivalue. Qed.

Lemma emits_forEach {A} (f : A → t → result t) (l : list A) :
  Forall (λ x, ∀ p p', f x p = Ok p' → emits p p') l →
  ∀ p p', forEach f l p = Ok p' → emits p p'.
Proof.
  induction 1 as [|x l Hx _ IH]; intros p p' H; simpl in H.
  - injection H as <-. apply emits_refl.
  - inv_bind H. eapply emits_trans; [by eapply Hx|by eapply IH].
Qed.

Lemma length_to_string_digits fuel n acc :
  (length (to_string_digits fuel n acc) ≤ fuel + length acc)%nat.
Proof.
  revert n acc; induction fuel as [|fuel IH]; intros n acc; simpl; [lia|].
  destruct (n / 10 =? 0); simpl; [lia|].
  etrans; [apply IH|]. simpl. lia.
Qed.

Lemma length_to_string n : (length (to_string n) ≤ 20)%nat.
Proof.
  unfold to_string. etrans; [apply length_to_string_digits|]. simpl. lia.
Qed.

Lemma emits_pushClass cls p p' : pushClass cls p = Ok p' → emits p p'.
Proof.
  unfold pushClass, getModuleName, getClassName. intros H.
  destruct cls; rewrite <- app_assoc in H;
    (eapply emits_pushGlobal; [| |exact H]); compute_done.
Qed.

(** Closes [emits p (f1 (f2 ... p))] for emissions without memo ids. *)
Ltac emits_plain :=
  repeat first
    [ apply emits_refl
    | eapply emits_trans;
      [|first [ apply emits_pushOp; reflexivity
              | apply emits_pushInt
              | apply emits_fold_left_pushInt
              | apply emits_addIValue_bool
              | apply emits_pushDouble ]] ].

Lemma emits_pushLiteralTensor tensor p p' :
  pushLiteralTensor tensor p = Ok p' → emits p p'.
Proof.
  unfold pushLiteralTensor. intros H.
  inv_bind H. eapply emits_trans.
  { eapply emits_pushGlobal; [| |exact Hq]; compute_done. }
  inv_bind H. eapply emits_trans.
  { eapply emits_trans;
      [|eapply emits_pushMemoizedString_temporary; [|exact Hq0]; by compute].
    emits_plain. }
  inv_bind H. eapply emits_trans.
  { rewrite (app_assoc (toString _)) in Hq1.
    eapply emits_pushGlobal; [| |exact Hq1]; try compute_done.
    destruct (scalar_type tensor); compute_done. }
  inv_bind H. eapply emits_trans.
  { eapply emits_pushMemoizedString_temporary; [|exact Hq2].
    pose proof (length_to_string (getStorageKey tensor)). lia. }
  inv_bind H. eapply emits_trans.
  { eapply emits_pushMemoizedString_temporary; [|exact Hq3]. by compute. }
  inv_bind H. eapply emits_trans.
  { eapply emits_trans;
      [|eapply emits_pushGlobal; [| |exact Hq4]; compute_done].
    emits_plain. }
  injection H as <-.
  eapply (emits_trans _ (pushOp REDUCE (pushOp TUPLE (pushOp REDUCE
                           (pushOp EMPTY_TUPLE q4))))); [emits_plain|].
  by apply emits_same.
Qed.

Lemma emits_pushTensorReference tensor tensor_table p p' :
  pushTensorReference tensor tensor_table p = Ok p' → emits p p'.
Proof.
  unfold pushTensorReference. intros H.
  inv_bind H. eapply emits_trans; [by eapply emits_pushClass|].
  injection H as <-.
  eapply (emits_trans _
            (mk (stack_ q) (memo_map_ q) (memoized_strings_map_ q)
               (memoized_ivalues_ q) (memo_id_ q)
               (Some (tensor_table ++ [tensor])) (literal_tensors_ q)
               (temporaries_ q))); [by apply emits_same|].
  emits_plain.
Qed.

Lemma emits_pushTensor tensor p p' : pushTensor tensor p = Ok p' → emits p p'.
Proof.
  unfold pushTensor. destruct (tensor_table_ p).
  - apply emits_pushTensorReference.
  - apply emits_pushLiteralTensor.
Qed.

Lemma emits_pushIntList ivalue elements p p' :
  pushIntList ivalue elements p = Ok p' → emits p p'.
Proof.
  unfold pushIntList. intros H.
  inv_bind H. eapply emits_trans; [by eapply emits_pushClass|].
  eapply emits_trans; [|by eapply emits_pushMemoization].
  emits_plain.
Qed.

Lemma emits_memo_hit q memo_id p :
  memo_map_ p !! q = Some memo_id → emits p (pushBinGet memo_id p).
Proof.
  intros Hl Hi. apply emits_pushBinGet; [|exact Hi].
  destruct Hi as (_ & Hm & _). by apply Hm in Hl.
Qed.

Lemma forallb_Forall {A} (f : A → bool) (l : list A) :
  forallb f l = true → Forall (λ x, f x = true) l.
Proof.
  induction l as [|x l IH]; simpl; [by constructor|].
  intros [Hx Hl]%andb_true_iff. constructor; [done|by apply IH].
Qed.

Lemma emits_addIValue (ivalue : IValue) :
  strings_fit ivalue = true →
  ∀ p p', addIValue ivalue p = Ok p' → emits p p'.
Proof.
  induction ivalue as [| b | n | bits | q s | q l IH | q l IH | q l IH
                      | q l | tensor | k] using IValue_nested_ind;
    intros Hfit p p' H; rewrite addIValue_eq in H;
    cbn [getPointer mbind option_bind] in H.
  - injection H as <-. by apply emits_pushOp.
  - injection H as <-. apply emits_addIValue_bool.
  - injection H as <-. apply emits_pushInt.
  - injection H as <-. apply emits_pushDouble.
  - (* String *)
    destruct (memo_map_ p !! q) as [id|] eqn:Hl.
    + injection H as <-. by eapply emits_memo_hit.
    + eapply emits_pushMemoizedString; [|done]. simpl in Hfit. lia.
  - (* Tuple *)
    destruct (memo_map_ p !! q) as [id|] eqn:Hl.
    + injection H as <-. by eapply emits_memo_hit.
    + cbv zeta in H. inv_bind H.
      eapply (emits_trans _ (pushOp MARK p)); [by apply emits_pushOp|].
      eapply (emits_trans _ q0).
      * eapply emits_forEach; [|exact Hq].
        simpl in Hfit. apply forallb_Forall in Hfit.
        rewrite Forall_forall in IH, Hfit. apply Forall_forall.
        intros x Hx. apply IH; [done|]. by apply Hfit.
      * eapply emits_trans; [|by eapply emits_pushMemoization].
        by apply emits_pushOp.
  - (* List *)
    destruct (memo_map_ p !! q) as [id|] eqn:Hl.
    + injection H as <-. by eapply emits_memo_hit.
    + cbv zeta in H. inv_bind H. inv_bind H. injection H as <-.
      eapply (emits_trans _ (pushOp EMPTY_LIST p)); [by apply emits_pushOp|].
      eapply (emits_trans _ q0); [by eapply emits_pushMemoization|].
      eapply (emits_trans _ (pushOp MARK q0)); [by apply emits_pushOp|].
      eapply (emits_trans _ q1); [|by apply emits_pushOp].
      eapply emits_forEach; [|exact Hq0].
      simpl in Hfit. apply forallb_Forall in Hfit.
      rewrite Forall_forall in IH, Hfit. apply Forall_forall.
      intros x Hx. apply IH; [done|]. by apply Hfit.
  - (* Dict *)
    destruct (memo_map_ p !! q) as [id|] eqn:Hl.
    + injection H as <-. by eapply emits_memo_hit.
    + cbv zeta in H. inv_bind H. inv_bind H. injection H as <-.
      eapply (emits_trans _ (pushOp EMPTY_DICT p)); [by apply emits_pushOp|].
      eapply (emits_trans _ q0); [by eapply emits_pushMemoization|].
      eapply (emits_trans _ (pushOp MARK q0)); [by apply emits_pushOp|].
      eapply (emits_trans _ q1); [|by apply emits_pushOp].
      eapply emits_forEach; [|exact Hq0].
      simpl in Hfit. apply forallb_Forall in Hfit.
      rewrite Forall_forall in IH, Hfit. apply Forall_forall.
      intros [k v] Hx r r' Hr. inv_bind Hr.
      specialize (IH _ Hx) as [IHk IHv].
      specialize (Hfit _ Hx). apply andb_true_iff in Hfit as [Hfk Hfv].
      eapply emits_trans; [by eapply IHk|by eapply IHv].
  - (* IntList *)
    destruct (memo_map_ p !! q) as [id|] eqn:Hl.
    + injection H as <-. by eapply emits_memo_hit.
    + by eapply emits_pushIntList.
  - by apply emits_pushTensor in H.
  - done.
Qed.

End MemoFacts.

(** ** The encoder: what a call leaves in place *)

Module FrameFacts.
Import Pickler PicklerFacts Frame.

Lemma grows_refl p : grows p p.
Proof.
  unfold grows. repeat split; try done.
  destruct (tensor_table_ p); done.
Qed.

Lemma grows_trans p1 p2 p3 : grows p1 p2 → grows p2 p3 → grows p1 p3.
Proof.
  intros (Hs1 & Hm1 & Hg1 & Hi1 & Ht1) (Hs2 & Hm2 & Hg2 & Hi2 & Ht2).
  unfold grows. repeat split.
  - by etrans.
  - auto.
  - by etrans.
  - lia.
  - destruct (tensor_table_ p1), (tensor_table_ p2), (tensor_table_ p3);
      try done.
    + destruct Ht1 as [Ha Hb], Ht2 as [Hc Hd]. split; [by etrans|congruence].
    + by etrans.
Qed.

Lemma grows_insert_end bs p : grows p (insert_end bs p).
Proof.
  unfold grows. repeat split; try done.
  - by apply prefix_app_r.
  - simpl. destruct (tensor_table_ p); done.
Qed.

Lemma grows_pushMemoization ivalue p p' :
  pushMemoization ivalue p = Ok p' → grows p p'.
Proof.
  intros H. apply pushMemoization_Ok in H as (item & Hp & Hle & ->).
  unfold grows. simpl. repeat split; try done; try lia.
  - by apply prefix_app_r.
  - intros q Hq. rewrite lookup_insert. by case_decide.
  - destruct (tensor_table_ p); done.
Qed.

Lemma grows_pushGlobal name p p' : pushGlobal name p = Ok p' → grows p p'.
Proof.
  intros H. apply pushGlobal_Ok in H as [-> _].
  unfold grows. simpl. repeat split; try done.
  - by apply prefix_app_r.
  - destruct (memoized_strings_map_ p !! name) eqn:Hl; [done|].
    by apply insert_subseteq.
  - destruct (memoized_strings_map_ p !! name); lia.
  - destruct (tensor_table_ p); done.
Qed.

Lemma grows_pushMemoizedString ivalue string p p' :
  pushMemoizedString ivalue string p = Ok p' → grows p p'.
Proof.
  unfold pushMemoizedString. intros H.
  eapply grows_trans; [|by eapply grows_pushMemoization].
  rewrite pushOp_frame. unfold pushString, push.
  rewrite !insert_end_insert_end. apply grows_insert_end.
Qed.

(** Closes [grows p (f1 (f2 ... p))] for emissions that only write bytes. *)
Ltac grows_plain :=
  rewrite ?addIValue_bool_frame, ?pushOp_frame, ?pushInt_frame,
    ?pushDouble_frame, ?fold_left_pushInt, ?insert_end_insert_end;
  first [apply grows_insert_end | apply grows_refl].

Lemma grows_pushMemoizedString_temporary string p p' :
  pushMemoizedString_temporary string p = Ok p' → grows p p'.
Proof.
  unfold pushMemoizedString_temporary. intros H.
  apply grows_pushMemoizedString in H.
  eapply grows_trans; [|exact H].
  unfold grows. simpl. repeat split; try done.
  destruct (tensor_table_ p); done.
Qed.

Lemma grows_pushTensorReference tensor tensor_table p p' :
  tensor_table_ p = Some tensor_table →
  pushTensorReference tensor tensor_table p = Ok p' → grows p p'.
Proof.
  unfold pushTensorReference, pushClass. intros Ht H.
  inv_bind H. pose proof (pushGlobal_Ok _ _ _ Hq) as [Hq' _].
  assert (Htq : tensor_table_ q = Some tensor_table) by (by rewrite Hq').
  apply grows_pushGlobal in Hq.
  eapply grows_trans; [exact Hq|]. injection H as <-.
  eapply (grows_trans _
            (mk (stack_ q) (memo_map_ q) (memoized_strings_map_ q)
               (memoized_ivalues_ q) (memo_id_ q)
               (Some (tensor_table ++ [tensor])) (literal_tensors_ q)
               (temporaries_ q))); [|grows_plain].
  unfold grows. simpl. rewrite Htq. repeat split; try done.
  by apply prefix_app_r.
Qed.

Lemma grows_pushLiteralTensor tensor p p' :
  tensor_table_ p = None →
  pushLiteralTensor tensor p = Ok p' → grows p p'.
Proof.
  unfold pushLiteralTensor. intros Ht H.
  inv_bind H. apply grows_pushGlobal in Hq.
  inv_bind H. apply grows_pushMemoizedString_temporary in Hq0.
  inv_bind H. apply grows_pushGlobal in Hq1.
  inv_bind H. apply grows_pushMemoizedString_temporary in Hq2.
  inv_bind H. apply grows_pushMemoizedString_temporary in Hq3.
  inv_bind H. apply grows_pushGlobal in Hq4.
  injection H as <-.
  eapply grows_trans; [exact Hq|].
  eapply grows_trans; [|eapply grows_trans; [exact Hq0|]]; [grows_plain|].
  eapply grows_trans; [exact Hq1|].
  eapply grows_trans; [exact Hq2|].
  eapply grows_trans; [exact Hq3|].
  eapply grows_trans; [|eapply grows_trans; [exact Hq4|]]; [grows_plain|].
  assert (Hn : tensor_table_ q4 = None).
  { assert (Hp : grows p q4).
    { eapply grows_trans; [exact Hq|].
      eapply grows_trans; [|eapply grows_trans; [exact Hq0|]]; [grows_plain|].
      eapply grows_trans; [exact Hq1|].
      eapply grows_trans; [exact Hq2|].
      eapply grows_trans; [exact Hq3|].
      eapply grows_trans; [|exact Hq4]. grows_plain. }
    destruct Hp as (_ & _ & _ & _ & Hp). rewrite Ht in Hp.
    by destruct (tensor_table_ q4). }
  unfold grows. simpl. rewrite Hn. repeat split; try done.
  - rewrite <- !app_assoc. by apply prefix_app_r.
  - by apply prefix_app_r.
Qed.

Lemma grows_pushTensor tensor p p' : pushTensor tensor p = Ok p' → grows p p'.
Proof.
  unfold pushTensor. destruct (tensor_table_ p) eqn:Ht.
  - by apply grows_pushTensorReference.
  - by apply grows_pushLiteralTensor.
Qed.

Lemma grows_pushIntList ivalue elements p p' :
  pushIntList ivalue elements p = Ok p' → grows p p'.
Proof.
  unfold pushIntList, pushClass. intros H.
  inv_bind H. apply grows_pushGlobal in Hq.
  apply grows_pushMemoization in H.
  eapply grows_trans; [exact Hq|]. eapply grows_trans; [|exact H].
  grows_plain.
Qed.

Lemma grows_forEach {A} (f : A → t → result t) (l : list A) :
  Forall (λ x, ∀ p p', f x p = Ok p' → grows p p') l →
  ∀ p p', forEach f l p = Ok p' → grows p p'.
Proof.
  induction 1 as [|x l Hx _ IH]; intros p p' H; simpl in H.
  - injection H as <-. apply grows_refl.
  - inv_bind H. eapply grows_trans; [by eapply Hx|by eapply IH].
Qed.

Lemma grows_addIValue (ivalue : IValue) :
  ∀ p p', addIValue ivalue p = Ok p' → grows p p'.
Proof.
  induction ivalue as [| b | n | bits | q s | q l IH | q l IH | q l IH
                      | q l | tensor | k] using IValue_nested_ind;
    intros p p' H; rewrite MemoFacts.addIValue_eq in H;
    cbn [getPointer mbind option_bind] in H.
  1-4: injection H as <-; grows_plain.
  1-5: destruct (memo_map_ p !! q) as [id|] eqn:Hl;
       [injection H as <-; rewrite pushBinGet_frame; apply grows_insert_end|].
  - by eapply grows_pushMemoizedString.
  - cbv zeta in H. inv_bind H.
    eapply (grows_trans _ (pushOp MARK p)); [grows_plain|].
    eapply (grows_trans _ q0); [by eapply grows_forEach|].
    eapply grows_trans; [|by eapply grows_pushMemoization]. grows_plain.
  - cbv zeta in H. inv_bind H. inv_bind H. injection H as <-.
    eapply (grows_trans _ (pushOp EMPTY_LIST p)); [grows_plain|].
    eapply (grows_trans _ q0); [by eapply grows_pushMemoization|].
    eapply (grows_trans _ (pushOp MARK q0)); [grows_plain|].
    eapply (grows_trans _ q1); [by eapply grows_forEach|grows_plain].
  - cbv zeta in H. inv_bind H. inv_bind H. injection H as <-.
    eapply (grows_trans _ (pushOp EMPTY_DICT p)); [grows_plain|].
    eapply (grows_trans _ q0); [by eapply grows_pushMemoization|].
    eapply (grows_trans _ (pushOp MARK q0)); [grows_plain|].
    eapply (grows_trans _ q1); [|grows_plain].
    eapply grows_forEach; [|exact Hq0].
    eapply Forall_impl; [exact IH|]. intros [k v] [IHk IHv] r r' Hr.
    inv_bind Hr. eapply grows_trans; [by eapply IHk|by eapply IHv].
  - by eapply grows_pushIntList.
  - by eapply grows_pushTensor.
  - done.
Qed.

(** After [addIValue] the object of a memoizable value is in the memo
    map. *)
Lemma addIValue_memoizes (ivalue : IValue) (q : ptr) (p p' : t) :
  getPointer ivalue = Some q → addIValue ivalue p = Ok p' →
  is_Some (memo_map_ p' !! q).
Proof.
  intros Hq H. rewrite MemoFacts.addIValue_eq in H. rewrite Hq in H.
  cbn [mbind option_bind] in H.
  destruct (memo_map_ p !! q) as [id|] eqn:Hl.
  { injection H as <-. rewrite pushBinGet_frame. simpl. by rewrite Hl. }
  destruct ivalue; try done; simpl in Hq; injection Hq as ->.
  - unfold pushMemoizedString in H.
    apply pushMemoization_Ok in H as (item & [= <-] & _ & ->). simpl.
    by rewrite lookup_insert_eq.
  - cbv zeta in H. apply bind_Ok in H as (r1 & Hr1 & H).
    apply pushMemoization_Ok in H as (item & [= <-] & _ & ->). simpl.
    by rewrite lookup_insert_eq.
  - cbv zeta in H. apply bind_Ok in H as (r1 & Hr1 & H).
    apply bind_Ok in H as (r2 & Hr2 & H). injection H as <-.
    apply pushMemoization_Ok in Hr1 as (item & [= <-] & _ & ->).
    apply (grows_forEach addIValue) in Hr2.
    2: { apply Forall_forall. intros x _. apply grows_addIValue. }
    destruct Hr2 as (_ & Hm & _). rewrite pushOp_frame. simpl. apply Hm.
    rewrite pushOp_frame. simpl. by rewrite lookup_insert_eq.
  - cbv zeta in H. apply bind_Ok in H as (r1 & Hr1 & H).
    apply bind_Ok in H as (r2 & Hr2 & H). injection H as <-.
    apply pushMemoization_Ok in Hr1 as (item & [= <-] & _ & ->).
    apply (grows_forEach
             (λ pair p, p ← addIValue pair.1 p; addIValue pair.2 p)) in Hr2.
    2: { apply Forall_forall. intros [k v] _ r r' Hr. inv_bind Hr.
         eapply grows_trans; by eapply grows_addIValue. }
    destruct Hr2 as (_ & Hm & _). rewrite pushOp_frame. simpl. apply Hm.
    rewrite pushOp_frame. simpl. by rewrite lookup_insert_eq.
  - unfold pushIntList in H. apply bind_Ok in H as (r1 & Hr1 & H).
    apply pushMemoization_Ok in H as (item & [= <-] & _ & ->). simpl.
    by rewrite lookup_insert_eq.
Qed.

End FrameFacts.

(** ** The encoder: properties of a session *)

Module EncoderProperties.
Import Pickler PicklerFacts MemoStream Frame.

Lemma session_Ok tensor_table ivalues p :
  session tensor_table ivalues = Ok p →
  ∃ q, forEach addIValue ivalues (startTuple (start (create tensor_table)))
       = Ok q ∧
       finish (endTuple q) = Ok p.
Proof. unfold session. intros H. inv_bind H. by exists q. Qed.

(** Within the program a session writes, the PUTs carry the ids 0, 1, 2, ...
    in the order they are written, and every GET carries an id that a PUT
    before it has bound.  What follows the STOP of that program is nothing
    unless literal tensors were collected. *)
Theorem session_memo_ids_are_dense_and_bound_before_use
  (tensor_table : option (list Tensor)) (ivalues : list IValue) (p : t) :
  forallb strings_fit ivalues = true →
  session tensor_table ivalues = Ok p →
  ∃ body trailer,
    stack p =
      [OpCode_byte PROTO; PROTOCOL_VERSION] ++ body ++ op_bytes STOP ++
      trailer ∧
    memo_stream 0 body (memo_id_ p) ∧
    (literal_tensors_ p = [] → trailer = []).
Proof.
  intros Hfit H. apply session_Ok in H as (q & Hq & Hfin).
  rewrite PicklerClaims.finish_Ok in Hfin. injection Hfin as <-.
  assert (He : emits (start (create tensor_table)) (endTuple q)).
  { eapply (MemoFacts.emits_trans _ (startTuple (start (create tensor_table)))).
    { apply (MemoFacts.emits_pushOp MARK). reflexivity. }
    eapply (MemoFacts.emits_trans _ q);
      [|apply (MemoFacts.emits_pushOp TUPLE); reflexivity].
    eapply MemoFacts.emits_forEach; [|exact Hq].
    apply MemoFacts.forallb_Forall in Hfit.
    eapply Forall_impl; [exact Hfit|].
    intros v Hv r r' Hr. exact (MemoFacts.emits_addIValue v Hv r r' Hr). }
  destruct He as (_ & body & Hbody & Hms).
  { unfold memo_inv. simpl. split; [lia|]. split; intros ? ?; by rewrite lookup_empty. }
  exists body. eexists. split; [|split].
  - unfold stack. cbn [stack_ insert_end]. rewrite Hbody.
    cbn [stack_ start push pushOp insert_end create le_bytes app].
    reflexivity.
  - exact Hms.
  - intros Hl. cbn in Hl. by rewrite Hl.
Qed.

Lemma session_memo_ids_are_dense_and_bound_before_use_witness :
  ∃ body trailer,
    stack (Samples.state_of
             (session None [IVString (inl 1) (chars "ab");
                            IVString (inl 1) (chars "ab")])) =
      [OpCode_byte PROTO; PROTOCOL_VERSION] ++ body ++ op_bytes STOP ++
      trailer ∧
    memo_stream 0 body 1.
Proof.
  destruct (session_memo_ids_are_dense_and_bound_before_use None
              [IVString (inl 1) (chars "ab"); IVString (inl 1) (chars "ab")]
              (Samples.state_of
                 (session None [IVString (inl 1) (chars "ab");
                                IVString (inl 1) (chars "ab")])))
    as (body & trailer & H1 & H2 & _).
  - vm_compute. reflexivity.
  - vm_compute. reflexivity.
  - exists body, trailer. split; [exact H1|exact H2].
Defined.

(** Memoization goes by identity.  Once a value with a pointer has been
    added, every later [addIValue] of a value with the same pointer, whatever
    its content, writes only a GET of the id held for that pointer: BINGET
    and one byte for an id up to 255, LONG_BINGET and four bytes otherwise. *)
Theorem memoized_value_is_emitted_again_as_GET
  (v v' : IValue) (between : list IValue) (q : ptr) (p0 p1 p2 : t) :
  getPointer v = Some q →
  getPointer v' = Some q →
  addIValue v p0 = Ok p1 →
  forEach addIValue between p1 = Ok p2 →
  ∃ memo_id,
    memo_map_ p2 !! q = Some memo_id ∧
    addIValue v' p2 =
      Ok (insert_end
            (if memo_id <=? 255
             then OpCode_byte BINGET :: le_bytes 1 memo_id
             else OpCode_byte LONG_BINGET :: le_bytes 4 memo_id) p2).
Proof.
  intros Hv Hv' H1 H2.
  pose proof (FrameFacts.addIValue_memoizes _ _ _ _ Hv H1) as Hm.
  apply (FrameFacts.grows_forEach addIValue) in H2.
  2: { apply Forall_forall. intros x _. apply FrameFacts.grows_addIValue. }
  destruct H2 as (_ & Hdom & _). apply Hdom in Hm as [id Hid].
  exists id. split; [done|].
  rewrite MemoFacts.addIValue_eq, Hv'. cbn [mbind option_bind]. rewrite Hid.
  rewrite pushBinGet_frame. do 2 f_equal.
  unfold pushBinGet_bytes, pushBinGet. by destruct (id <=? 255).
Qed.

Lemma memoized_value_is_emitted_again_as_GET_witness :
  let p1 := Samples.state_of
              (addIValue (IVTuple (inl 7) [IVInt 1]) (create None)) in
  ∃ memo_id,
    memo_map_ p1 !! (inl 7 : ptr) = Some memo_id ∧
    addIValue (IVString (inl 7) (chars "x")) p1 =
      Ok (insert_end
            (if memo_id <=? 255
             then OpCode_byte BINGET :: le_bytes 1 memo_id
             else OpCode_byte LONG_BINGET :: le_bytes 4 memo_id) p1).
Proof.
  intros p1.
  apply (memoized_value_is_emitted_again_as_GET
           (IVTuple (inl 7) [IVInt 1]) (IVString (inl 7) (chars "x")) []
           (inl 7) (create None) p1 p1);
    [reflexivity|reflexivity|vm_compute; reflexivity|reflexivity].
Defined.

(** [addIValue] only adds: the bytes written before stay a prefix of
    [stack_], no key leaves the memo maps and a global keeps its id, the
    counter does not decrease, the side table of reference mode only grows at
    its end and reference mode collects no literal tensor, literal mode only
    appends to its list of literal tensors. *)
Theorem addIValue_only_adds (ivalue : IValue) (p p' : t) :
  addIValue ivalue p = Ok p' → grows p p'.
Proof. apply FrameFacts.grows_addIValue. Qed.

Lemma addIValue_only_adds_witness :
  grows (create (Some []))
    (Samples.state_of (addIValue (IVTensor Samples.tensor1) (create (Some [])))).
Proof.
  apply (addIValue_only_adds (IVTensor Samples.tensor1)).
  vm_compute. reflexivity.
Defined.

(** A session in reference mode writes one pickle program and nothing after
    its STOP: no literal tensor is collected, and the side table it returns
    extends the one it was given. *)
Theorem reference_mode_session_is_one_program
  (tensor_table : list Tensor) (ivalues : list IValue) (p : t) :
  session (Some tensor_table) ivalues = Ok p →
  literal_tensors_ p = [] ∧
  ∃ body table,
    stack p =
      [OpCode_byte PROTO; PROTOCOL_VERSION; OpCode_byte MARK] ++ body ++
      [OpCode_byte TUPLE; OpCode_byte STOP] ∧
    tensor_table_ p = Some table ∧ tensor_table `prefix_of` table.
Proof.
  intros H. apply session_Ok in H as (q & Hq & Hfin).
  rewrite PicklerClaims.finish_Ok in Hfin. injection Hfin as <-.
  apply (FrameFacts.grows_forEach addIValue) in Hq.
  2: { apply Forall_forall. intros x _. apply FrameFacts.grows_addIValue. }
  destruct Hq as ([body Hbody] & _ & _ & _ & Ht). simpl in Ht.
  destruct (tensor_table_ q) as [table|] eqn:Htq; [|done].
  destruct Ht as [Hpre Hlit].
  rewrite Hlit. split; [exact Hlit|]. exists body, table.
  split; [|split; [exact Htq|exact Hpre]].
  unfold stack. cbn [stack_ insert_end endTuple pushOp push le_bytes].
  rewrite Hbody. cbn. rewrite <- !app_assoc. reflexivity.
Qed.

Lemma reference_mode_session_is_one_program_witness :
  literal_tensors_
    (Samples.state_of (session (Some []) [IVTensor Samples.tensor1])) = [].
Proof.
  apply (reference_mode_session_is_one_program []
           [IVTensor Samples.tensor1]).
  vm_compute. reflexivity.
Defined.

End EncoderProperties.

(** ** The decoder, instruction by instruction *)

Module UnpicklerClaims.
Import Unpickler.

Lemma readOpCode_cons (u : t) (op : OpCode) (rest : list Z) :
  bytes_ u = OpCode_byte op :: rest →
  readOpCode u = Ok (Some op, set_bytes rest u).
Proof.
  intros Hb. unfold readOpCode, read. rewrite Hb.
  destruct (decide _) as [_|Hn]; [|simpl in Hn; lia].
  simpl. rewrite Z.mul_0_r, Z.add_0_r. by destruct op.
Qed.

(** C2 (the code at the failing input).  With the value 7 on the stack and an
    empty memo table, [BINPUT 5] leaves the stack as it is but binds the
    value at index 0, the size of the table, not at id 5; the [BINGET 5] that
    follows finds no entry and throws. *)
Theorem BINPUT_binds_at_table_size_not_at_memo_id :
  let u := mk [0x71; 5; 0x68; 5; 0x2E] [SIValue (DInt 7)] [] [] None MARK [] in
  let u1 := mk [0x68; 5; 0x2E] [SIValue (DInt 7)] [] [SIValue (DInt 7)] None
               MARK [] in
  readInstruction u = Ok (BINPUT, u1) ∧
  memo_table_ u1 !! 0%nat = Some (SIValue (DInt 7)) ∧
  memo_table_ u1 !! 5%nat = None ∧
  readInstruction (set_last_opcode BINPUT u1) =
    Err (Exception "std::out_of_range") ∧
  parse_ivalue_list (create [0x80; 2; 0x4B; 7; 0x71; 5; 0x68; 5; 0x2E] None STOP)
  = Err (Exception "std::out_of_range").
Proof. repeat split; vm_compute; reflexivity. Qed.

(** C3 (counterexample).  The stream PROTO 2 MARK EMPTY_TUPLE STOP pushes a
    mark that no opcode closes, and [parse_ivalue_list] accepts it. *)
Lemma unclosed_MARK_is_accepted :
  parse_ivalue_list (create [0x80; 2; 0x28; 0x29; 0x2E] None STOP) =
    Ok ([], mk [] [SIValue (DTuple [])] [0%nat] [] None EMPTY_TUPLE []).
Proof. vm_compute. reflexivity. Qed.

(** A close opcode met with an empty mark stack takes [marks_.back()] of
    the empty vector: no exception is thrown for it. *)
Lemma close_opcode_with_empty_marks (u : t) (op : OpCode) (rest : list Z) :
  bytes_ u = OpCode_byte op :: rest →
  op ∈ [TUPLE; APPENDS; SETITEMS] → marks_ u = [] →
  readInstruction u = Err (UndefinedBehavior "back() of an empty marks_").
Proof.
  intros Hb Hop Hm. unfold readInstruction.
  rewrite (readOpCode_cons _ _ _ Hb). simpl.
  set_unfold in Hop.
  destruct Hop as [->|[->|[->|[]]]]; simpl;
    unfold readList, pop_mark; simpl; by rewrite Hm.
Qed.

(** C3 (amended).  The decoder does not reject a stream for a MARK that is
    never closed.  At a STOP the loop of [run] ends normally whatever the
    mark stack holds and leaves it as it is, also when a MARK that nothing
    closes is executed directly before the STOP.  After [run],
    [parse_ivalue_list] looks at the value stack only, whatever marks are
    left: it throws when the value stack does not hold exactly one
    element, returns the elements when that element is a tuple or a list,
    and throws from the tuple accessor when it is another value. *)
Theorem unclosed_marks_are_not_rejected (u : t) (rest : list Z) :
  bytes_ u = OpCode_byte STOP :: rest →
  (∀ fuel, run_loop (S fuel) u = Ok (set_bytes rest u)) ∧
  (∀ fuel,
     run_loop (S (S fuel)) (set_bytes (OpCode_byte MARK :: bytes_ u) u) =
       Ok (set_last_opcode MARK
             (set_marks (marks_ u ++ [length (stack_ u)])
                (set_bytes rest u)))) ∧
  ∀ u0 marks last_opcode,
    let u' := set_last_opcode last_opcode
                (set_marks marks (set_bytes rest u)) in
    run u0 = Ok u' →
    (length (stack_ u) ≠ 1%nat →
     parse_ivalue_list u0 =
       Err (Exception "Unpickler expected 1 element on the stack")) ∧
    (∀ elements, stack_ u = [SIValue (DTuple elements)] →
     parse_ivalue_list u0 = Ok (elements, u')) ∧
    (∀ a elements, stack_ u = [SIValue (DGenericList a)] →
     objects_ u !! a = Some (OGenericList elements) →
     parse_ivalue_list u0 = Ok (elements, u')) ∧
    (∀ v, stack_ u = [SIValue v] →
     (∀ elements, v ≠ DTuple elements) → (∀ a, v ≠ DGenericList a) →
     parse_ivalue_list u0 = Err (Exception "isTuple()")).
Proof.
  intros Hb. split; [|split].
  - intros fuel. simpl. rewrite Hb. unfold readInstruction.
    by rewrite (readOpCode_cons _ _ _ Hb).
  - intros fuel.
    change (run_loop (S (S fuel)) ?v) with
      ('(opcode, w) ← readInstruction v;
       if decide (opcode = STOP) then Ok w
       else run_loop (S fuel) (set_last_opcode opcode w)).
    unfold readInstruction at 1.
    erewrite (readOpCode_cons _ MARK) by reflexivity.
    cbn [mbind result_bind]. rewrite decide_False by done.
    simpl. unfold readInstruction.
    erewrite (readOpCode_cons _ STOP) by (simpl; exact Hb).
    by rewrite Hb.
  - intros u0 marks last_opcode u' Hrun.
    unfold parse_ivalue_list. rewrite Hrun. subst u'. simpl.
    repeat split.
    + intros Hlen. by rewrite decide_False.
    + intros elements ->. done.
    + intros a elements -> Ha. simpl. by rewrite Ha.
    + intros v -> Ht Hl. simpl.
      destruct v; try done; [by destruct (Ht elements)|by destruct (Hl a)].
Qed.

Lemma unclosed_marks_are_not_rejected_witness :
  run_loop 1 (mk [0x2E] [SIValue (DTuple [])] [0%nat] [] None EMPTY_TUPLE [])
  = Ok (mk [] [SIValue (DTuple [])] [0%nat] [] None EMPTY_TUPLE []) ∧
  run_loop 2 (mk [0x28; 0x2E] [SIValue (DTuple [])] [0%nat] [] None
                EMPTY_TUPLE [])
  = Ok (mk [] [SIValue (DTuple [])] [0%nat; 1%nat] [] None MARK []).
Proof.
  destruct (unclosed_marks_are_not_rejected
              (mk [0x2E] [SIValue (DTuple [])] [0%nat] [] None EMPTY_TUPLE [])
              [] eq_refl) as (H1 & H2 & _).
  split; [exact (H1 0%nat)|exact (H2 0%nat)].
Defined.

(** C4 (the code at the failing inputs).  When GLOBAL is the last byte of the
    buffer, and when the module name and its newline are, [readString] reads
    [chars[0]] at [end_ptr_] before it has compared anything with the end. *)
Theorem readString_reads_at_end_ptr :
  parse_ivalue_list (create [0x80; 2; 0x63] None STOP) =
    Err (UndefinedBehavior "read of chars[n] at end_ptr_") ∧
  parse_ivalue_list (create [0x80; 2; 0x63; 97; 10] None STOP) =
    Err (UndefinedBehavior "read of chars[n] at end_ptr_") ∧
  (∀ u, bytes_ u = [] →
     readString u = Err (UndefinedBehavior "read of chars[n] at end_ptr_")).
Proof.
  split; [vm_compute; reflexivity|]. split; [vm_compute; reflexivity|].
  intros u Hb. unfold readString. by rewrite Hb.
Qed.

(** C6 (counterexample).  The previous opcode is not NEWOBJ and the top of
    the stack is the class marker TENSOR: EMPTY_LIST pushes nothing and
    throws. *)
Lemma EMPTY_LIST_on_TENSOR_marker_throws :
  readInstruction (mk [0x5D] [SIClass TENSOR] [] [] None GLOBAL []) =
    Err (Exception "Unknown list specialization").
Proof. vm_compute. reflexivity. Qed.

(** C6 (amended).  EMPTY_LIST pushes one new empty IntList when (a) the
    previous opcode was NEWOBJ and the top of the stack is the integer tag of
    INTLIST, or (b) the previous opcode was not NEWOBJ and the top of the
    stack is the class marker INTLIST.  When the previous opcode was not
    NEWOBJ it throws on a class marker other than INTLIST, and pushes one new
    empty generic List when the stack is empty or its top is a value. *)
Theorem EMPTY_LIST_cases (u : t) (rest : list Z) :
  bytes_ u = OpCode_byte EMPTY_LIST :: rest →
  let pushed obj ref :=
    readInstruction u =
      Ok (EMPTY_LIST,
          mk rest (stack_ u ++ [SIValue (ref (length (objects_ u)))])
             (marks_ u) (memo_table_ u) (tensor_table_ u) (last_opcode_ u)
             (objects_ u ++ [obj])) in
  (last_opcode_ u = NEWOBJ →
   last (stack_ u) = Some (SIValue (DInt (PicklerClass_to_uint8 INTLIST))) →
   pushed (OIntList []) DIntList) ∧
  (last_opcode_ u ≠ NEWOBJ → last (stack_ u) = Some (SIClass INTLIST) →
   pushed (OIntList []) DIntList) ∧
  (last_opcode_ u ≠ NEWOBJ →
   ∀ cls, cls ≠ INTLIST → last (stack_ u) = Some (SIClass cls) →
   readInstruction u = Err (Exception "Unknown list specialization")) ∧
  (last_opcode_ u ≠ NEWOBJ →
   stack_ u = [] ∨ (∃ v, last (stack_ u) = Some (SIValue v)) →
   pushed (OGenericList []) DGenericList).
Proof.
  intros Hb pushed. subst pushed. unfold readInstruction.
  rewrite (readOpCode_cons _ _ _ Hb). cbn [mbind result_bind].
  cbn [last_opcode_ set_bytes stack_].
  repeat split.
  - intros Hop Hl. rewrite decide_True by done.
    destruct (stack_ u) as [|x s] eqn:Hs; [done|].
    rewrite decide_True by (simpl; lia).
    unfold back. cbn [stack_ set_bytes]. rewrite Hs, Hl. simpl.
    unfold emplace_back_new, emplace_back; simpl. by rewrite Hs.
  - intros Hop Hl. rewrite decide_False by done. rewrite Hl. simpl. done.
  - intros Hop cls Hcls Hl. rewrite decide_False by done. rewrite Hl. simpl.
    by rewrite decide_False.
  - intros Hop Hl. rewrite decide_False by done.
    destruct Hl as [Hl|[v Hl]]; rewrite Hl; simpl; [|done].
    unfold emplace_back_new, emplace_back; simpl. by rewrite Hl.
Qed.

Lemma EMPTY_LIST_cases_witness :
  readInstruction (mk [0x5D; 0x2E] [SIValue (DInt 3)] [] [] None BININT1 []) =
    Ok (EMPTY_LIST,
        mk [0x2E] [SIValue (DInt 3); SIValue (DGenericList 0)] [] [] None
           BININT1 [OGenericList []]).
Proof.
  apply (EMPTY_LIST_cases
           (mk [0x5D; 0x2E] [SIValue (DInt 3)] [] [] None BININT1 []) [0x2E]);
    [reflexivity|done|]. right. by eexists.
Defined.

End UnpicklerClaims.

(** ** The decoder: reading operands *)

Module UnpicklerFacts.
Import Unpickler.

Lemma read_app (n : nat) (u : t) (bs rest : list Z) :
  bytes_ u = bs ++ rest → length bs = n →
  read n u = Ok (le_uint bs, set_bytes rest u).
Proof.
  intros Hb Hn. unfold read. rewrite Hb.
  rewrite decide_True by (rewrite length_app; lia).
  subst n. by rewrite take_app_length, drop_app_length.
Qed.

Lemma read_signed_app (n : nat) (u : t) (bs rest : list Z) :
  bytes_ u = bs ++ rest → length bs = n →
  read_signed n u = Ok (to_signed n (le_uint bs), set_bytes rest u).
Proof.
  intros Hb Hn. unfold read_signed. by rewrite (read_app n u bs rest).
Qed.

Lemma read_Ok (n : nat) (u u' : t) (v : Z) :
  read n u = Ok (v, u') →
  (n ≤ length (bytes_ u))%nat ∧ v = le_uint (take n (bytes_ u)) ∧
  u' = set_bytes (drop n (bytes_ u)) u.
Proof.
  unfold read. destruct (decide _); [|done]. intros [= <- <-]. done.
Qed.

Lemma read_short (n : nat) (u : t) :
  (length (bytes_ u) < n)%nat →
  read n u = Err (Exception "Unpickler overran buffer while reading a value").
Proof. intros H. unfold read. rewrite decide_False by lia. done. Qed.

Lemma OpCode_of_byte_Some (b : Z) (op : OpCode) :
  OpCode_of_byte b = Some op → b = OpCode_byte op.
Proof.
  unfold OpCode_of_byte. destruct b as [|b|b]; [done| |done].
  do 9 (try (destruct b as [b|b|]; try done)).
  all: by intros [= <-].
Qed.

Lemma le_uint_singleton (b : Z) : le_uint [b] = b.
Proof. simpl. lia. Qed.

Lemma readOpCode_Ok (u u' : t) (op : option OpCode) :
  readOpCode u = Ok (op, u') →
  ∃ b rest, bytes_ u = b :: rest ∧ op = OpCode_of_byte b ∧
            u' = set_bytes rest u.
Proof.
  unfold readOpCode. intros H. apply PicklerFacts.bind_Ok in H as ([v u0] & Hr & H).
  apply read_Ok in Hr as (Hlen & -> & ->). injection H as <- <-.
  destruct (bytes_ u) as [|b rest]; [simpl in Hlen; lia|].
  exists b, rest. simpl. rewrite drop_0. split; [done|]. split; [|done].
  f_equal. lia.
Qed.

(** [readString] *)

Lemma is_valid_python_id_char_not_newline (c : Z) :
  is_valid_python_id_char c = true → (c =? newline) = false.
Proof.
  unfold is_valid_python_id_char, newline. intros H.
  apply Z.eqb_neq. intros ->. done.
Qed.

Lemma readString_loop_identifier (s rest str : list Z) :
  forallb is_valid_python_id_char s = true →
  readString_loop (s ++ newline :: rest) str = Ok (str ++ s, rest).
Proof.
  revert str; induction s as [|c s IH]; intros str Hs.
  - simpl. by rewrite app_nil_r.
  - simpl in Hs. apply andb_true_iff in Hs as [Hc Hs].
    cbn [readString_loop app]. rewrite (is_valid_python_id_char_not_newline c Hc).
    rewrite Hc. cbn [negb].
    specialize (IH (str ++ [c]) Hs).
    destruct (s ++ newline :: rest) as [|x l] eqn:Heq.
    { by destruct s. }
    rewrite IH. by rewrite <- app_assoc.
Qed.

Lemma readString_loop_defined (rest str : list Z) :
  rest ≠ [] →
  ∀ what, readString_loop rest str ≠ Err (UndefinedBehavior what).
Proof.
  revert str; induction rest as [|c rest IH]; intros str Hne what; [done|].
  cbn [readString_loop]. destruct (c =? newline); [done|].
  destruct (negb _); [done|]. destruct rest as [|c' rest']; [done|].
  by apply IH.
Qed.

Lemma readString_loop_shorter (rest str s rest' : list Z) :
  readString_loop rest str = Ok (s, rest') →
  (length rest' < length rest)%nat.
Proof.
  revert str; induction rest as [|c rest IH]; intros str; [done|].
  cbn [readString_loop]. destruct (c =? newline).
  { intros [= <- <-]. simpl. lia. }
  destruct (negb _); [done|]. destruct rest as [|c' rest'']; [done|].
  intros H%IH. simpl in *. lia.
Qed.

Import PicklerFacts.

Lemma read_bytes n u v u' :
  read n u = Ok (v, u') → (length (bytes_ u') ≤ length (bytes_ u))%nat.
Proof.
  intros (Hl & _ & ->)%read_Ok. simpl. rewrite length_drop. lia.
Qed.

Lemma read_signed_bytes n u v u' :
  read_signed n u = Ok (v, u') → (length (bytes_ u') ≤ length (bytes_ u))%nat.
Proof.
  unfold read_signed. intros H. apply bind_Ok in H as ([a b] & Hr & H).
  injection H as <- <-. by eapply read_bytes.
Qed.

Lemma readFloat_bytes u v u' :
  readFloat u = Ok (v, u') → (length (bytes_ u') ≤ length (bytes_ u))%nat.
Proof.
  unfold readFloat. destruct (decide _); [|done]. intros [= <- <-]. simpl.
  rewrite length_drop. lia.
Qed.

Lemma readString_bytes u s u' :
  readString u = Ok (s, u') → (length (bytes_ u') ≤ length (bytes_ u))%nat.
Proof.
  unfold readString. intros H. apply bind_Ok in H as ([a b] & Hr & H).
  injection H as <- <-. apply readString_loop_shorter in Hr. simpl. lia.
Qed.

Lemma pop_mark_bytes u start u' :
  pop_mark u = Ok (start, u') → bytes_ u' = bytes_ u.
Proof. unfold pop_mark. destruct (last _); [|done]. by intros [= <- <-]. Qed.

Lemma pop_back_bytes u u' : pop_back u = Ok u' → bytes_ u' = bytes_ u.
Proof. unfold pop_back. destruct (stack_ u); [done|]. by intros [= <-]. Qed.

Lemma readList_bytes u u' : readList u = Ok u' → bytes_ u' = bytes_ u.
Proof.
  unfold readList. intros H. apply bind_Ok in H as ([start u0] & Hm & H).
  apply pop_mark_bytes in Hm.
  apply bind_Ok in H as (item & _ & H). apply bind_Ok in H as (v & _ & H).
  apply bind_Ok in H as (u1 & Hu1 & H). injection H as <-. simpl.
  rewrite <- Hm. destruct v; try done.
  - apply bind_Ok in Hu1 as (vs & _ & Hu1).
    destruct (objects_ u0 !! a) as [[]|]; try done. by injection Hu1 as <-.
  - apply bind_Ok in Hu1 as (vs & _ & Hu1).
    apply bind_Ok in Hu1 as (ns & _ & Hu1).
    destruct (objects_ u0 !! a) as [[]|]; try done. by injection Hu1 as <-.
Qed.

(** Every instruction reads at least its opcode byte. *)
Lemma readInstruction_consumes u op u' :
  readInstruction u = Ok (op, u') →
  (length (bytes_ u') < length (bytes_ u))%nat.
Proof.
  unfold readInstruction. intros H.
  apply bind_Ok in H as ([op0 u0] & Hop & H).
  apply readOpCode_Ok in Hop as (b & rest & Hb & -> & ->).
  assert (Hlt : (length (bytes_ (set_bytes rest u)) < length (bytes_ u))%nat).
  { rewrite Hb. simpl. lia. }
  revert H Hlt. generalize (set_bytes rest u). clear Hb. intros u0 H Hlt.
  destruct (OpCode_of_byte b) as [[]|]; try done;
    repeat match goal with
      | H : Ok _ = Ok _ |- _ =>
          first [injection H as <- <- | injection H as <-]
      | H : mret _ = Ok _ |- _ =>
          first [injection H as <- <- | injection H as <-]
      | H : (let '(_, _) := ?x in _) = Ok _ |- _ => destruct x
      | H : (_ ≫= _) = Ok _ |- _ =>
          let a := fresh "a" in
          let Ha := fresh "Ha" in
          apply bind_Ok in H as (a & Ha & H)
      | H : (if ?x then _ else _) = Ok _ |- _ => destruct x
      | H : match ?x with _ => _ end = Ok _ |- _ =>
          let E := fresh "E" in destruct x eqn:E; try discriminate H
      | H : read _ _ = Ok _ |- _ => apply read_bytes in H
      | H : read_signed _ _ = Ok _ |- _ => apply read_signed_bytes in H
      | H : readFloat _ = Ok _ |- _ => apply readFloat_bytes in H
      | H : readString _ = Ok _ |- _ => apply readString_bytes in H
      | H : pop_mark _ = Ok _ |- _ => apply pop_mark_bytes in H
      | H : pop_back _ = Ok _ |- _ => apply pop_back_bytes in H
      | H : readList _ = Ok _ |- _ => apply readList_bytes in H
      end;
    simpl in *; try rewrite length_drop; try lia; try congruence.
Qed.


(** What is left of the input after a call is a suffix of what was left
    before it. *)
Lemma read_suffix n u v u' :
  read n u = Ok (v, u') → bytes_ u' `suffix_of` bytes_ u.
Proof. intros (Hl & _ & ->)%read_Ok. simpl. apply suffix_drop. Qed.

Lemma read_signed_suffix n u v u' :
  read_signed n u = Ok (v, u') → bytes_ u' `suffix_of` bytes_ u.
Proof.
  unfold read_signed. intros H. apply bind_Ok in H as ([a b] & Hr & H).
  injection H as <- <-. by eapply read_suffix.
Qed.

Lemma readFloat_suffix u v u' :
  readFloat u = Ok (v, u') → bytes_ u' `suffix_of` bytes_ u.
Proof.
  unfold readFloat. destruct (decide _); [|done]. intros [= <- <-]. simpl.
  apply suffix_drop.
Qed.

Lemma readString_loop_suffix (rest str s rest' : list Z) :
  readString_loop rest str = Ok (s, rest') → rest' `suffix_of` rest.
Proof.
  revert str; induction rest as [|c rest IH]; intros str; [done|].
  cbn [readString_loop]. destruct (c =? newline).
  { intros [= <- <-]. by apply suffix_cons_r. }
  destruct (negb _); [done|]. destruct rest as [|c' rest'']; [done|].
  intros H%IH. by apply suffix_cons_r.
Qed.

Lemma readString_suffix u s u' :
  readString u = Ok (s, u') → bytes_ u' `suffix_of` bytes_ u.
Proof.
  unfold readString. intros H. apply bind_Ok in H as ([a b] & Hr & H).
  injection H as <- <-. by apply readString_loop_suffix in Hr.
Qed.

Ltac suffix_chain :=
  first
    [ assumption
    | reflexivity
    | apply suffix_drop
    | etrans; [apply suffix_drop|]; suffix_chain
    | match goal with
      | H : ?x `suffix_of` _ |- ?x `suffix_of` _ =>
          (etrans; [exact H|]); suffix_chain
      end ].

Lemma readInstruction_suffix u op u' :
  readInstruction u = Ok (op, u') →
  ∃ b rest, bytes_ u = b :: rest ∧ OpCode_of_byte b = Some op ∧
            bytes_ u' `suffix_of` rest.
Proof.
  unfold readInstruction. intros H.
  apply bind_Ok in H as ([op0 u0] & Hop & H).
  apply readOpCode_Ok in Hop as (b & rest & Hb & -> & ->).
  exists b, rest. split; [done|].
  assert (Hs : bytes_ (set_bytes rest u) `suffix_of` rest) by done.
  revert H Hs. generalize (set_bytes rest u). clear Hb. intros u0 H Hs.
  destruct (OpCode_of_byte b) as [[]|]; try done;
    repeat match goal with
      | H : Ok _ = Ok _ |- _ =>
          first [injection H as <- <- | injection H as <-]
      | H : mret _ = Ok _ |- _ =>
          first [injection H as <- <- | injection H as <-]
      | H : (let '(_, _) := ?x in _) = Ok _ |- _ => destruct x
      | H : (_ ≫= _) = Ok _ |- _ =>
          let a := fresh "a" in
          let Ha := fresh "Ha" in
          apply bind_Ok in H as (a & Ha & H)
      | H : (if ?x then _ else _) = Ok _ |- _ => destruct x
      | H : match ?x with _ => _ end = Ok _ |- _ =>
          let E := fresh "E" in destruct x eqn:E; try discriminate H
      | H : read _ _ = Ok _ |- _ => apply read_suffix in H
      | H : read_signed _ _ = Ok _ |- _ => apply read_signed_suffix in H
      | H : readFloat _ = Ok _ |- _ => apply readFloat_suffix in H
      | H : readString _ = Ok _ |- _ => apply readString_suffix in H
      | H : pop_mark _ = Ok _ |- _ => apply pop_mark_bytes in H
      | H : pop_back _ = Ok _ |- _ => apply pop_back_bytes in H
      | H : readList _ = Ok _ |- _ => apply readList_bytes in H
      end;
    simpl in *;
    repeat match goal with
      | H : bytes_ _ = bytes_ _ |- _ => rewrite H in *; clear H
      end;
    try discriminate; (split; [done|]); suffix_chain.
Qed.


(** No call of the decoder gives [OutOfFuel]; only the bound of [run_loop]
    can. *)
Lemma no_fuel_bind {A B} (m : result A) (f : A → result B) :
  m ≠ Err OutOfFuel → (∀ a, f a ≠ Err OutOfFuel) → m ≫= f ≠ Err OutOfFuel.
Proof. destruct m as [a|e]; simpl; [auto|]. intros H _ [= ->]. done. Qed.

Lemma readString_loop_no_fuel rest str :
  readString_loop rest str ≠ Err OutOfFuel.
Proof.
  revert str; induction rest as [|c rest IH]; intros str; [done|].
  cbn [readString_loop]. destruct (c =? newline); [done|].
  destruct (negb _); [done|]. destruct rest; [done|]. apply IH.
Qed.

Lemma ivalues_no_fuel items : ivalues items ≠ Err OutOfFuel.
Proof.
  induction items as [|x l IH]; [done|]. simpl.
  apply no_fuel_bind; [by destruct x|]. intros v.
  apply no_fuel_bind; [done|]. done.
Qed.

Lemma toInts_no_fuel vs : toInts vs ≠ Err OutOfFuel.
Proof.
  induction vs as [|x l IH]; [done|]. simpl.
  apply no_fuel_bind; [by destruct x|]. intros v.
  apply no_fuel_bind; [done|]. done.
Qed.

Lemma setitems_no_fuel items dict : setitems items dict ≠ Err OutOfFuel.
Proof.
  revert dict. induction items as [items IH] using (induction_ltof1 _ length).
  intros dict. destruct items as [|k [|v items]]; [done|done|].
  cbn [setitems]. apply no_fuel_bind; [by destruct k|]. intros key.
  apply no_fuel_bind; [by destruct v|]. intros value.
  apply IH. unfold ltof. simpl. lia.
Qed.

Ltac no_fuel :=
  repeat match goal with
    | |- Ok _ ≠ _ => discriminate
    | |- mret _ ≠ _ => discriminate
    | |- Err (Exception _) ≠ _ => discriminate
    | |- Err (UndefinedBehavior _) ≠ _ => discriminate
    | |- (_ ≫= _) ≠ _ => apply no_fuel_bind; [|intros ?]
    | |- (let '(_, _) := ?x in _) ≠ _ => destruct x
    | |- (if ?x then _ else _) ≠ _ => destruct x
    | |- (match ?x with _ => _ end) ≠ _ => destruct x
    | |- readString_loop _ _ ≠ _ => apply readString_loop_no_fuel
    | |- ivalues _ ≠ _ => apply ivalues_no_fuel
    | |- toInts _ ≠ _ => apply toInts_no_fuel
    | |- setitems _ _ ≠ _ => apply setitems_no_fuel
    end.

Lemma readInstruction_no_fuel u : readInstruction u ≠ Err OutOfFuel.
Proof.
  unfold readInstruction, readOpCode, readList, readString, readFloat,
    read_signed, read, back, pop_back, pop_mark, at_pred, tensor_table_at,
    ivalue, toInt, toTuple, pickler_class, getClass.
  no_fuel.
Qed.

End UnpicklerFacts.

(** ** The decoder: properties of a run *)

Module DecoderProperties.
Import Unpickler UnpicklerFacts.
Import PicklerFacts(bind_Ok).

Lemma run_loop_fuel (fuel1 fuel2 : nat) (u : t) :
  (length (bytes_ u) ≤ fuel1)%nat → (length (bytes_ u) ≤ fuel2)%nat →
  run_loop fuel1 u = run_loop fuel2 u.
Proof.
  revert fuel2 u. induction fuel1 as [|fuel1 IH]; intros fuel2 u H1 H2.
  - destruct (bytes_ u) eqn:Hb; [|simpl in H1; lia].
    destruct fuel2; simpl; by rewrite Hb.
  - destruct (bytes_ u) as [|b rest] eqn:Hb.
    { destruct fuel2; simpl; by rewrite Hb. }
    destruct fuel2 as [|fuel2]; [simpl in H2; lia|].
    cbn [run_loop]. rewrite Hb.
    destruct (readInstruction u) as [[op u']|e] eqn:Hr; [|done].
    cbn [mbind result_bind]. destruct (decide (op = STOP)); [done|].
    pose proof (readInstruction_consumes _ _ _ Hr) as Hlt.
    rewrite Hb in Hlt. simpl in Hlt, H1, H2.
    apply IH; simpl; lia.
Qed.

Lemma run_loop_no_fuel (fuel : nat) (u : t) :
  (length (bytes_ u) ≤ fuel)%nat → run_loop fuel u ≠ Err OutOfFuel.
Proof.
  revert u. induction fuel as [|fuel IH]; intros u Hlen.
  - destruct (bytes_ u) eqn:Hb; [|simpl in Hlen; lia].
    simpl. by rewrite Hb.
  - destruct (bytes_ u) as [|b rest] eqn:Hb.
    { simpl. by rewrite Hb. }
    cbn [run_loop]. rewrite Hb.
    destruct (readInstruction u) as [[op u']|e] eqn:Hr.
    + cbn [mbind result_bind]. destruct (decide (op = STOP)); [done|].
      pose proof (readInstruction_consumes _ _ _ Hr) as Hlt.
      rewrite Hb in Hlt. simpl in Hlt, Hlen. apply IH. simpl. lia.
    + cbn [mbind result_bind]. intros [= ->].
      by apply (readInstruction_no_fuel u).
Qed.

(** The loop of [run] ends: every instruction reads at least one byte, so
    with a bound of at least the number of input bytes left the loop never
    runs out of the bound, and its result does not depend on the bound. *)
Theorem run_loop_ends_within_the_input (u : t) (fuel : nat) :
  (length (bytes_ u) ≤ fuel)%nat →
  run_loop fuel u ≠ Err OutOfFuel ∧
  run_loop fuel u = run_loop (length (bytes_ u)) u.
Proof.
  intros H. split; [by apply run_loop_no_fuel|by apply run_loop_fuel].
Qed.

Lemma run_loop_ends_within_the_input_witness :
  run_loop 100 (mk [0x4B; 7; 0x2E; 1; 2] [] [] [] None MARK []) =
  run_loop 5 (mk [0x4B; 7; 0x2E; 1; 2] [] [] [] None MARK []).
Proof.
  apply (run_loop_ends_within_the_input
           (mk [0x4B; 7; 0x2E; 1; 2] [] [] [] None MARK []) 100).
  simpl. lia.
Defined.

Lemma readInstruction_STOP (u u' : t) :
  readInstruction u = Ok (STOP, u') →
  ∃ rest, bytes_ u = OpCode_byte STOP :: rest ∧ u' = set_bytes rest u.
Proof.
  intros H. pose proof (readInstruction_suffix _ _ _ H) as (b & rest & Hb & Hop & _).
  apply OpCode_of_byte_Some in Hop. subst b. exists rest. split; [done|].
  unfold readInstruction in H.
  rewrite (UnpicklerClaims.readOpCode_cons _ _ _ Hb) in H.
  cbn in H. by injection H as <-.
Qed.

Lemma run_loop_Ok (fuel : nat) (u u' : t) :
  run_loop fuel u = Ok u' →
  ∃ consumed, bytes_ u = consumed ++ OpCode_byte STOP :: bytes_ u'.
Proof.
  revert u. induction fuel as [|fuel IH]; intros u H.
  - simpl in H. by destruct (bytes_ u).
  - cbn [run_loop] in H. destruct (bytes_ u) as [|b rest] eqn:Hb; [done|].
    apply bind_Ok in H as ([op w] & Hr & H).
    destruct (decide (op = STOP)) as [->|Hne].
    + injection H as <-. apply readInstruction_STOP in Hr as (r & Hr & ->).
      exists []. simpl. by rewrite <- Hb.
    + apply IH in H as [c Hc]. simpl in Hc.
      apply readInstruction_suffix in Hr as (b' & rest' & Hb' & _ & [k Hk]).
      rewrite Hb in Hb'. injection Hb' as <- <-.
      exists (b :: k ++ c). rewrite Hk, Hc. simpl. by rewrite <- app_assoc.
Qed.

(** [run] reads the input from left to right and returns at the STOP
    instruction: what it leaves in [bytes_] is the input that follows that
    STOP byte, and it starts with PROTO and the version 2. *)
Theorem run_returns_at_the_STOP_instruction (u u' : t) :
  run u = Ok u' →
  ∃ consumed,
    bytes_ u =
      [OpCode_byte PROTO; PROTOCOL_VERSION] ++ consumed ++
      OpCode_byte STOP :: bytes_ u'.
Proof.
  unfold run. intros H. apply bind_Ok in H as ([op u0] & Hop & H).
  apply readOpCode_Ok in Hop as (b & rest & Hb & -> & ->).
  destruct (decide _) as [Hproto|]; [|done].
  apply OpCode_of_byte_Some in Hproto. subst b.
  apply bind_Ok in H as ([protocol u1] & Hrd & H).
  apply read_Ok in Hrd as (Hlen & -> & ->). simpl in *.
  destruct rest as [|v rest]; [simpl in Hlen; lia|]. simpl in H.
  rewrite drop_0 in H. destruct (decide _) as [Hv|]; [|done].
  apply run_loop_Ok in H as [c Hc]. simpl in Hc.
  exists c. rewrite Hb. simpl. rewrite Hc. do 2 f_equal.
  unfold PROTOCOL_VERSION. lia.
Qed.

Lemma run_returns_at_the_STOP_instruction_witness :
  ∃ consumed,
    [0x80; 2; 0x28; 0x4B; 0; 0x74; 0x2E; 9; 9] =
      [OpCode_byte PROTO; PROTOCOL_VERSION] ++ consumed ++
      OpCode_byte STOP :: [9; 9].
Proof.
  apply (run_returns_at_the_STOP_instruction
           (create [0x80; 2; 0x28; 0x4B; 0; 0x74; 0x2E; 9; 9] None STOP)
           (mk [9; 9] [SIValue (DTuple [DInt 0])] [] [] None TUPLE [])).
  vm_compute. reflexivity.
Defined.

(** An input that does not start with the PROTO opcode and the version 2 is
    rejected with an exception: the empty input, a one-byte input, another
    first opcode, another version. *)
Theorem run_rejects_an_input_without_PROTO_2 (u : t) :
  (∀ rest, bytes_ u ≠ OpCode_byte PROTO :: PROTOCOL_VERSION :: rest) →
  is_exception (run u).
Proof.
  intros Hne. unfold run, readOpCode.
  destruct (bytes_ u) as [|b rest] eqn:Hb.
  { rewrite read_short by (rewrite Hb; simpl; lia). by eexists. }
  rewrite (read_app 1 u [b] rest) by done. cbn [mbind result_bind mret result_ret].
  rewrite le_uint_singleton.
  destruct (decide (OpCode_of_byte b = Some PROTO)) as [Hp|]; [|by eexists].
  apply OpCode_of_byte_Some in Hp. subst b.
  destruct rest as [|v rest].
  { rewrite read_short by (simpl; lia). by eexists. }
  rewrite (read_app 1 _ [v] rest) by done. cbn [mbind result_bind].
  rewrite le_uint_singleton.
  destruct (decide (v = 2)) as [->|]; [|by eexists].
  by destruct (Hne rest).
Qed.

Lemma run_rejects_an_input_without_PROTO_2_witness :
  is_exception (run (create [0x80; 3; 0x2E] None STOP)).
Proof.
  apply run_rejects_an_input_without_PROTO_2. simpl. intros rest. discriminate.
Defined.

End DecoderProperties.

(** ** Encoder and decoder, instruction by instruction *)

Module InstructionRoundTrips.
Import Unpickler UnpicklerFacts.
Import PicklerFacts(bind_Ok, pushInt_bytes_cases, pushDouble_bytes_eq).
Import Pickler(pushInt_bytes, pushDouble_bytes, pushBinGet_bytes,
               pushNextBinPut_bytes, op_bytes).

(** What [pushInt] writes for a 64-bit integer is read back as that
    integer. *)
Lemma step_pushInt (n : Z) (u : t) (rest : list Z) :
  - 2 ^ 63 ≤ n < 2 ^ 63 →
  bytes_ u = pushInt_bytes n ++ rest →
  ∃ op, op ∈ [BININT1; BININT; LONG1] ∧
    readInstruction u =
      Ok (op, emplace_back (SIValue (DInt n)) (set_bytes rest u)).
Proof.
  intros Hn Hb. unfold readInstruction.
  destruct (pushInt_bytes_cases n) as [[Hr He]|[(Hr1 & Hr2 & He)|[Hr He]]];
    rewrite He in Hb.
  - exists BININT1. split; [by repeat constructor|].
    rewrite (UnpicklerClaims.readOpCode_cons u BININT1 (le_bytes 1 n ++ rest))
      by done.
    cbn [mbind result_bind].
    rewrite (read_signed_app 1 _ (le_bytes 1 n) rest) by done.
    cbn [mbind result_bind mret result_ret].
    rewrite le_uint_le_bytes, to_signed_mod; [done|lia|simpl; lia].
  - exists BININT. split; [by repeat constructor|].
    rewrite (UnpicklerClaims.readOpCode_cons u BININT (le_bytes 4 n ++ rest))
      by done.
    cbn [mbind result_bind].
    rewrite (read_signed_app 4 _ (le_bytes 4 n) rest) by done.
    cbn [mbind result_bind mret result_ret].
    rewrite le_uint_le_bytes, to_signed_mod; [done|lia|simpl; lia].
  - exists LONG1. split; [by repeat constructor|].
    rewrite (UnpicklerClaims.readOpCode_cons u LONG1
               (8 :: le_bytes 8 n ++ rest)) by done.
    cbn [mbind result_bind].
    rewrite (read_app 1 _ [8] (le_bytes 8 n ++ rest)) by done.
    cbn [mbind result_bind]. rewrite le_uint_singleton.
    rewrite decide_True by done.
    rewrite (read_signed_app 8 _ (le_bytes 8 n) rest) by done.
    cbn [mbind result_bind mret result_ret].
    rewrite le_uint_le_bytes, to_signed_mod; [done|lia|simpl; lia].
Qed.

(** What [pushDouble] writes is read back as the same 64 bits, unless these
    eight bytes end the input: [readFloat] asks for a ninth byte. *)
Lemma step_pushDouble (bits : Z) (u : t) (rest : list Z) :
  0 ≤ bits < 2 ^ 64 →
  bytes_ u = pushDouble_bytes bits ++ rest →
  readInstruction u =
    if decide (rest = []) then Err (Exception "bytes_ + 8 < end_ptr_")
    else Ok (BINFLOAT, emplace_back (SIValue (DDouble bits)) (set_bytes rest u)).
Proof.
  intros Hn Hb. unfold readInstruction. rewrite pushDouble_bytes_eq in Hb.
  rewrite (UnpicklerClaims.readOpCode_cons u BINFLOAT
             (rev (le_bytes 8 bits) ++ rest)) by done.
  cbn [mbind result_bind]. unfold readFloat. cbn [bytes_ set_bytes].
  rewrite length_app, length_rev, le_bytes_length.
  destruct (decide (rest = [])) as [->|Hne].
  - rewrite decide_False by (simpl; lia). done.
  - rewrite decide_True by (destruct rest; [done|simpl; lia]).
    cbn [mbind result_bind mret result_ret].
    assert (Hl : length (rev (le_bytes 8 bits)) = 8%nat)
      by (by rewrite length_rev, le_bytes_length).
    rewrite <- Hl at 1 3. rewrite take_app_length, drop_app_length.
    rewrite rev_involutive, le_uint_le_bytes.
    rewrite Z.mod_small by (simpl; lia). done.
Qed.

(** A BINUNICODE with its length and payload is read back as that string,
    unless the payload ends the input: the decoder asks for one more byte. *)
Lemma step_BINUNICODE (s : list Z) (u : t) (rest : list Z) :
  Z.of_nat (length s) < 2 ^ 32 →
  bytes_ u =
    op_bytes BINUNICODE ++ le_bytes 4 (Z.of_nat (length s)) ++ s ++ rest →
  readInstruction u =
    if decide (rest = []) then Err (Exception "bytes_ + length < end_ptr_")
    else Ok (BINUNICODE, emplace_back (SIValue (DString s)) (set_bytes rest u)).
Proof.
  intros Hn Hb. unfold readInstruction.
  rewrite (UnpicklerClaims.readOpCode_cons u BINUNICODE
             (le_bytes 4 (Z.of_nat (length s)) ++ s ++ rest)) by done.
  cbn [mbind result_bind].
  rewrite (read_app 4 _ (le_bytes 4 (Z.of_nat (length s))) (s ++ rest))
    by (by rewrite ?le_bytes_length).
  cbn [mbind result_bind]. rewrite le_uint_le_bytes.
  rewrite Z.mod_small by (simpl; lia). rewrite Nat2Z.id.
  cbn [bytes_ set_bytes]. rewrite length_app.
  destruct (decide (rest = [])) as [->|Hne].
  - rewrite decide_False by (simpl; lia). done.
  - rewrite decide_True by (destruct rest; [done|simpl; lia]).
    by rewrite take_app_length, drop_app_length.
Qed.

(** The PUT that [pushNextBinPut] writes appends the top of the stack to the
    memo table, whatever id it carries. *)
Lemma step_PUT (memo_id : Z) (u : t) (rest : list Z) (item : StackItem) :
  bytes_ u = pushNextBinPut_bytes memo_id ++ rest →
  last (stack_ u) = Some item →
  ∃ op, op ∈ [BINPUT; LONG_BINPUT] ∧
    readInstruction u =
      Ok (op, set_memo_table (memo_table_ u ++ [item]) (set_bytes rest u)).
Proof.
  intros Hb Hl. unfold readInstruction, pushNextBinPut_bytes in *.
  destruct (memo_id <=? 255).
  - exists BINPUT. split; [by repeat constructor|].
    rewrite (UnpicklerClaims.readOpCode_cons u BINPUT
               (le_bytes 1 memo_id ++ rest)) by done.
    cbn [mbind result_bind].
    rewrite (read_app 1 _ (le_bytes 1 memo_id) rest) by done.
    cbn [mbind result_bind]. unfold back. cbn [stack_ set_bytes].
    by rewrite Hl.
  - exists LONG_BINPUT. split; [by repeat constructor|].
    rewrite (UnpicklerClaims.readOpCode_cons u LONG_BINPUT
               (le_bytes 4 memo_id ++ rest)) by done.
    cbn [mbind result_bind].
    rewrite (read_app 4 _ (le_bytes 4 memo_id) rest) by done.
    cbn [mbind result_bind]. unfold back. cbn [stack_ set_bytes].
    by rewrite Hl.
Qed.

(** The GET that [pushBinGet] writes for an id below [2^32] pushes the entry
    of the memo table at that id. *)
Lemma step_GET (memo_id : Z) (u : t) (rest : list Z) (item : StackItem) :
  0 ≤ memo_id < 2 ^ 32 →
  bytes_ u = pushBinGet_bytes memo_id ++ rest →
  memo_table_ u !! Z.to_nat memo_id = Some item →
  ∃ op, op ∈ [BINGET; LONG_BINGET] ∧
    readInstruction u = Ok (op, emplace_back item (set_bytes rest u)).
Proof.
  intros Hid Hb Hl. unfold readInstruction.
  unfold pushBinGet_bytes, Pickler.pushBinGet in Hb.
  destruct (Z.leb_spec memo_id 255).
  - exists BINGET. split; [by repeat constructor|].
    rewrite (UnpicklerClaims.readOpCode_cons u BINGET
               (le_bytes 1 memo_id ++ rest)) by done.
    cbn [mbind result_bind].
    rewrite (read_app 1 _ (le_bytes 1 memo_id) rest) by done.
    cbn [mbind result_bind]. rewrite le_uint_le_bytes.
    rewrite Z.mod_small by (simpl; lia). cbn [memo_table_ set_bytes].
    by rewrite Hl.
  - exists LONG_BINGET. split; [by repeat constructor|].
    rewrite (UnpicklerClaims.readOpCode_cons u LONG_BINGET
               (le_bytes 4 memo_id ++ rest)) by done.
    cbn [mbind result_bind].
    rewrite (read_app 4 _ (le_bytes 4 memo_id) rest) by done.
    cbn [mbind result_bind]. rewrite le_uint_le_bytes.
    rewrite Z.mod_small by (simpl; lia). cbn [memo_table_ set_bytes].
    by rewrite Hl.
Qed.

Lemma readString_identifier (s rest : list Z) (u : t) :
  forallb is_valid_python_id_char s = true →
  bytes_ u = s ++ newline :: rest →
  readString u = Ok (s, set_bytes rest u).
Proof.
  intros Hs Hb. unfold readString. rewrite Hb.
  by rewrite readString_loop_identifier.
Qed.

(** The GLOBAL that [pushClass] writes is read back as the marker of the
    class. *)
Lemma step_GLOBAL (cls : PicklerClass) (u : t) (rest : list Z) :
  bytes_ u = op_bytes GLOBAL ++ (getModuleName ++ getClassName cls) ++ rest →
  readInstruction u = Ok (GLOBAL, emplace_back (SIClass cls) (set_bytes rest u)).
Proof.
  intros Hb. unfold readInstruction.
  rewrite (UnpicklerClaims.readOpCode_cons u GLOBAL
             ((getModuleName ++ getClassName cls) ++ rest)) by done.
  cbn [mbind result_bind].
  rewrite (readString_identifier (chars "torch.jit._pickle")
             (getClassName cls ++ rest)).
  2: { vm_compute. reflexivity. }
  2: { cbn [bytes_ set_bytes]. unfold getModuleName.
       by rewrite <- !app_assoc. }
  cbn [mbind result_bind].
  destruct cls.
  - rewrite (readString_identifier (chars "build_tensor_from_id") rest).
    2: { vm_compute. reflexivity. }
    2: { cbn [bytes_ set_bytes]. unfold getClassName.
         by rewrite <- !app_assoc. }
    cbn [mbind result_bind].
    replace (getClass (chars "build_tensor_from_id")) with (Ok TENSOR)
      by (vm_compute; reflexivity).
    cbn [mbind result_bind].
    rewrite decide_False by (vm_compute; discriminate). done.
  - rewrite (readString_identifier (chars "build_intlist") rest).
    2: { vm_compute. reflexivity. }
    2: { cbn [bytes_ set_bytes]. unfold getClassName.
         by rewrite <- !app_assoc. }
    cbn [mbind result_bind].
    replace (getClass (chars "build_intlist")) with (Ok INTLIST)
      by (vm_compute; reflexivity).
    cbn [mbind result_bind].
    rewrite decide_False by (vm_compute; discriminate). done.
Qed.

End InstructionRoundTrips.

(** ** The decoder on what the encoder wrote *)

Module Simulation.
Import Unpickler UnpicklerFacts InstructionRoundTrips RoundTrip.
Import PicklerFacts(bind_Ok).
Import Pickler(pushInt_bytes, pushDouble_bytes, pushBinGet_bytes,
               pushNextBinPut_bytes, op_bytes).

Lemma steps_one (u u1 u2 : t) (op : OpCode) :
  readInstruction u = Ok (op, u1) → op ≠ STOP →
  u2 = set_last_opcode op u1 →
  steps u u2.
Proof. intros H Hne ->. eapply steps_step; [done..|apply steps_refl]. Qed.

Ltac one_step op :=
  eapply (steps_one _ _ _ op);
  [unfold readInstruction;
   erewrite (UnpicklerClaims.readOpCode_cons _ op) by reflexivity;
   cbn [mbind result_bind]
  |done|].

Lemma steps_trans (u1 u2 u3 : t) : steps u1 u2 → steps u2 u3 → steps u1 u3.
Proof.
  induction 1 as [|u op u1 u2 Hr Hne _ IH]; [done|].
  intros H. eapply steps_step; [done..|by apply IH].
Qed.

Lemma ivalues_values (dvs : list DValue) : ivalues (map SIValue dvs) = Ok dvs.
Proof. induction dvs as [|dv dvs IH]; [done|]. simpl. by rewrite IH. Qed.

Lemma toInts_ints (ns : list Z) : toInts (map DInt ns) = Ok ns.
Proof. induction ns as [|n ns IH]; [done|]. simpl. by rewrite IH. Qed.

Lemma pop_mark_last (u : t) (marks : list nat) (start : nat) :
  marks_ u = marks ++ [start] →
  pop_mark u = Ok (start, set_marks marks u).
Proof.
  intros H. unfold pop_mark. rewrite H, last_snoc.
  by rewrite removelast_last.
Qed.

Lemma pop_back_last (u : t) (stack : list StackItem) (item : StackItem) :
  stack_ u = stack ++ [item] → pop_back u = Ok (set_stack stack u).
Proof.
  intros H. unfold pop_back. rewrite H. rewrite removelast_last.
  by destruct stack.
Qed.

Lemma back_last (u : t) (stack : list StackItem) (item : StackItem) :
  stack_ u = stack ++ [item] → back u = Ok item.
Proof. intros H. unfold back. by rewrite H, last_snoc. Qed.

Ltac state_simpl :=
  cbn [bytes_ stack_ marks_ memo_table_ tensor_table_ last_opcode_ objects_
       set_bytes set_stack set_marks set_memo_table set_objects
       emplace_back mbind result_bind mret result_ret ivalue toTuple toInt
       pickler_class].

Section instructions.
Context (rest : list Z) (stack : list StackItem) (marks : list nat)
  (memo : list StackItem) (table : option (list Tensor)) (lo : OpCode)
  (objects : list Object).

Lemma run_bool (b : bool) :
  ∃ lo', lo' ≠ NEWOBJ ∧
    steps
      (mk (op_bytes (if b then NEWTRUE else NEWFALSE) ++ rest) stack marks
         memo table lo objects)
      (mk rest (stack ++ [SIValue (DBool b)]) marks memo table lo' objects).
Proof.
  destruct b.
  - exists NEWTRUE. split; [done|]. one_step NEWTRUE; reflexivity.
  - exists NEWFALSE. split; [done|]. one_step NEWFALSE; reflexivity.
Qed.

Lemma run_pushInt (n : Z) :
  int64 n = true →
  ∃ lo', lo' ≠ NEWOBJ ∧
    steps
      (mk (pushInt_bytes n ++ rest) stack marks memo table lo objects)
      (mk rest (stack ++ [SIValue (DInt n)]) marks memo table lo' objects).
Proof.
  intros Hn. unfold int64 in Hn.
  destruct (step_pushInt n
              (mk (pushInt_bytes n ++ rest) stack marks memo table lo
                 objects) rest) as (op & Hop & Hr); [lia|done|].
  exists op. split.
  { rewrite !elem_of_cons in Hop. destruct Hop as [->|[->|[->|Hop]]];
      [done..|by apply elem_of_nil in Hop]. }
  apply (steps_one _ _ _ op Hr); [|done].
  rewrite !elem_of_cons in Hop. destruct Hop as [->|[->|[->|Hop]]];
    [done..|by apply elem_of_nil in Hop].
Qed.

Lemma run_pushDouble (bits : Z) :
  0 ≤ bits < 2 ^ 64 → rest ≠ [] →
  steps
    (mk (pushDouble_bytes bits ++ rest) stack marks memo table lo objects)
    (mk rest (stack ++ [SIValue (DDouble bits)]) marks memo table BINFLOAT
       objects).
Proof.
  intros Hn Hne.
  pose proof (step_pushDouble bits
                (mk (pushDouble_bytes bits ++ rest) stack marks memo table
                   lo objects) rest Hn eq_refl) as Hr.
  rewrite decide_False in Hr by done.
  by apply (steps_one _ _ _ BINFLOAT Hr).
Qed.

Lemma run_BINUNICODE (s : list Z) :
  Z.of_nat (length s) < 2 ^ 32 → rest ≠ [] →
  steps
    (mk (op_bytes BINUNICODE ++ le_bytes 4 (Z.of_nat (length s)) ++ s ++
         rest) stack marks memo table lo objects)
    (mk rest (stack ++ [SIValue (DString s)]) marks memo table BINUNICODE
       objects).
Proof.
  intros Hn Hne.
  pose proof (step_BINUNICODE s
                (mk (op_bytes BINUNICODE ++
                     le_bytes 4 (Z.of_nat (length s)) ++ s ++ rest)
                   stack marks memo table lo objects) rest Hn eq_refl)
    as Hr.
  rewrite decide_False in Hr by done.
  by apply (steps_one _ _ _ BINUNICODE Hr).
Qed.

Lemma run_PUT (memo_id : Z) (item : StackItem) :
  last stack = Some item →
  ∃ lo', lo' ≠ NEWOBJ ∧
    steps
      (mk (pushNextBinPut_bytes memo_id ++ rest) stack marks memo table lo
         objects)
      (mk rest stack marks (memo ++ [item]) table lo' objects).
Proof.
  intros Hl.
  destruct (step_PUT memo_id
              (mk (pushNextBinPut_bytes memo_id ++ rest) stack marks memo
                 table lo objects) rest item eq_refl Hl)
    as (op & Hop & Hr).
  exists op.
  rewrite !elem_of_cons in Hop. destruct Hop as [->|[->|Hop]];
    [| |by apply elem_of_nil in Hop].
  - split; [done|]. by apply (steps_one _ _ _ BINPUT Hr).
  - split; [done|]. by apply (steps_one _ _ _ LONG_BINPUT Hr).
Qed.

Lemma run_GET (memo_id : Z) (item : StackItem) :
  0 ≤ memo_id < 2 ^ 32 →
  memo !! Z.to_nat memo_id = Some item →
  ∃ lo', lo' ≠ NEWOBJ ∧
    steps
      (mk (pushBinGet_bytes memo_id ++ rest) stack marks memo table lo
         objects)
      (mk rest (stack ++ [item]) marks memo table lo' objects).
Proof.
  intros Hid Hl.
  destruct (step_GET memo_id
              (mk (pushBinGet_bytes memo_id ++ rest) stack marks memo
                 table lo objects) rest item Hid eq_refl Hl)
    as (op & Hop & Hr).
  exists op.
  rewrite !elem_of_cons in Hop. destruct Hop as [->|[->|Hop]];
    [| |by apply elem_of_nil in Hop].
  - split; [done|]. by apply (steps_one _ _ _ BINGET Hr).
  - split; [done|]. by apply (steps_one _ _ _ LONG_BINGET Hr).
Qed.

Lemma run_GLOBAL (cls : PicklerClass) :
  steps
    (mk (op_bytes GLOBAL ++ (getModuleName ++ getClassName cls) ++ rest)
       stack marks memo table lo objects)
    (mk rest (stack ++ [SIClass cls]) marks memo table GLOBAL objects).
Proof.
  pose proof (step_GLOBAL cls
                (mk (op_bytes GLOBAL ++
                     (getModuleName ++ getClassName cls) ++ rest)
                   stack marks memo table lo objects) rest eq_refl) as Hr.
  by apply (steps_one _ _ _ GLOBAL Hr).
Qed.

Lemma run_MARK :
  steps (mk (op_bytes MARK ++ rest) stack marks memo table lo objects)
    (mk rest stack (marks ++ [length stack]) memo table MARK objects).
Proof. one_step MARK; reflexivity. Qed.

Lemma run_TUPLE (dvs : list DValue) :
  steps
    (mk (op_bytes TUPLE ++ rest) (stack ++ map SIValue dvs)
       (marks ++ [length stack]) memo table lo objects)
    (mk rest (stack ++ [SIValue (DTuple dvs)]) marks memo table TUPLE
       objects).
Proof.
  one_step TUPLE.
  { erewrite pop_mark_last by reflexivity. cbn [mbind result_bind].
  cbn [stack_ set_marks set_bytes].
  rewrite decide_True by (rewrite length_app; lia).
  rewrite drop_app_length, take_app_length, ivalues_values. done. }
  reflexivity.
Qed.

Lemma run_EMPTY_LIST :
  lo ≠ NEWOBJ → top_is_value stack →
  steps
    (mk (op_bytes EMPTY_LIST ++ rest) stack marks memo table lo objects)
    (mk rest (stack ++ [SIValue (DGenericList (length objects))]) marks
       memo table EMPTY_LIST (objects ++ [OGenericList []])).
Proof.
  intros Hlo Htop. one_step EMPTY_LIST.
  { cbn [last_opcode_ stack_ set_bytes]. rewrite decide_False by done.
  unfold top_is_value in Htop. rewrite Htop. done. }
  reflexivity.
Qed.

Lemma run_EMPTY_LIST_INTLIST :
  lo ≠ NEWOBJ →
  steps
    (mk (op_bytes EMPTY_LIST ++ rest) (stack ++ [SIClass INTLIST]) marks
       memo table lo objects)
    (mk rest
       ((stack ++ [SIClass INTLIST]) ++
        [SIValue (DIntList (length objects))])
       marks memo table EMPTY_LIST (objects ++ [OIntList []])).
Proof.
  intros Hlo. one_step EMPTY_LIST.
  { cbn [last_opcode_ stack_ set_bytes]. rewrite decide_False by done.
  rewrite last_snoc. cbn. reflexivity. }
  reflexivity.
Qed.

Lemma run_EMPTY_DICT :
  steps
    (mk (op_bytes EMPTY_DICT ++ rest) stack marks memo table lo objects)
    (mk rest (stack ++ [SIValue (DGenericDict (length objects))]) marks
       memo table EMPTY_DICT (objects ++ [OGenericDict []])).
Proof. one_step EMPTY_DICT; reflexivity. Qed.

Lemma run_APPENDS (a : nat) (elements dvs : list DValue) :
  objects !! a = Some (OGenericList elements) →
  steps
    (mk (op_bytes APPENDS ++ rest)
       ((stack ++ [SIValue (DGenericList a)]) ++ map SIValue dvs)
       (marks ++ [length (stack ++ [SIValue (DGenericList a)])]) memo table
       lo objects)
    (mk rest (stack ++ [SIValue (DGenericList a)]) marks memo table APPENDS
       (<[a := OGenericList (elements ++ dvs)]> objects)).
Proof.
  intros Ha. one_step APPENDS.
  { unfold readList.
  erewrite pop_mark_last by reflexivity. cbn [mbind result_bind].
  unfold at_pred. cbn [stack_ set_marks set_bytes].
  rewrite length_app. cbn [length]. rewrite Nat.add_1_r.
  rewrite lookup_app_l by (rewrite length_app; simpl; lia).
  rewrite (list_lookup_middle stack [] _ (length stack)) by done.
  cbn [ivalue mbind result_bind].
  replace (S (length stack))
    with (length (stack ++ [SIValue (DGenericList a)]))
    by (rewrite length_app; simpl; lia).
  rewrite drop_app_length, ivalues_values. state_simpl. rewrite Ha.
  state_simpl. by rewrite take_app_length. }
  reflexivity.
Qed.

Lemma run_APPENDS_INTLIST (a : nat) (elements ns : list Z) :
  objects !! a = Some (OIntList elements) →
  steps
    (mk (op_bytes APPENDS ++ rest)
       ((stack ++ [SIValue (DIntList a)]) ++ map SIValue (map DInt ns))
       (marks ++ [length (stack ++ [SIValue (DIntList a)])]) memo table
       lo objects)
    (mk rest (stack ++ [SIValue (DIntList a)]) marks memo table APPENDS
       (<[a := OIntList (elements ++ ns)]> objects)).
Proof.
  intros Ha. one_step APPENDS.
  { unfold readList.
  erewrite pop_mark_last by reflexivity. cbn [mbind result_bind].
  unfold at_pred. cbn [stack_ set_marks set_bytes].
  rewrite length_app. cbn [length]. rewrite Nat.add_1_r.
  rewrite lookup_app_l by (rewrite length_app; simpl; lia).
  rewrite (list_lookup_middle stack [] _ (length stack)) by done.
  cbn [ivalue mbind result_bind].
  replace (S (length stack))
    with (length (stack ++ [SIValue (DIntList a)]))
    by (rewrite length_app; simpl; lia).
  rewrite drop_app_length, ivalues_values. state_simpl.
  rewrite toInts_ints. state_simpl. rewrite Ha.
  state_simpl. by rewrite take_app_length. }
  reflexivity.
Qed.

Lemma run_SETITEMS (a : nat) (elements elements' : list (DValue * DValue))
  (items : list StackItem) :
  objects !! a = Some (OGenericDict elements) →
  setitems items elements = Ok elements' →
  steps
    (mk (op_bytes SETITEMS ++ rest)
       ((stack ++ [SIValue (DGenericDict a)]) ++ items)
       (marks ++ [length (stack ++ [SIValue (DGenericDict a)])]) memo table
       lo objects)
    (mk rest (stack ++ [SIValue (DGenericDict a)]) marks memo table
       SETITEMS (<[a := OGenericDict elements']> objects)).
Proof.
  intros Ha Hs. one_step SETITEMS.
  { erewrite pop_mark_last by reflexivity. cbn [mbind result_bind].
  unfold at_pred. cbn [stack_ set_marks set_bytes].
  rewrite length_app. cbn [length]. rewrite Nat.add_1_r.
  rewrite lookup_app_l by (rewrite length_app; simpl; lia).
  rewrite (list_lookup_middle stack [] _ (length stack)) by done.
  cbn [ivalue mbind result_bind objects_ set_marks set_bytes]. rewrite Ha.
  replace (S (length stack))
    with (length (stack ++ [SIValue (DGenericDict a)]))
    by (rewrite length_app; simpl; lia).
  rewrite drop_app_length, Hs. state_simpl.
  by rewrite take_app_length. }
  reflexivity.
Qed.

Lemma run_REDUCE_TENSOR (tensors : list Tensor) (i : Z) (tensor : Tensor) :
  table = Some tensors → 0 ≤ i →
  tensors !! Z.to_nat i = Some tensor →
  steps
    (mk (op_bytes REDUCE ++ rest)
       ((stack ++ [SIClass TENSOR]) ++ [SIValue (DTuple [DInt i])]) marks
       memo table lo objects)
    (mk rest (stack ++ [SIValue (DTensor tensor)]) marks memo table REDUCE
       objects).
Proof.
  intros Ht Hi Hl. one_step REDUCE.
  { erewrite back_last by reflexivity. cbn [mbind result_bind ivalue toTuple].
  erewrite pop_back_last by reflexivity. cbn [mbind result_bind].
  erewrite back_last by reflexivity.
  cbn [mbind result_bind pickler_class].
  erewrite pop_back_last by reflexivity.
  cbn [mbind result_bind lookup list_lookup toInt].
  unfold tensor_table_at. cbn [tensor_table_ set_stack set_bytes].
  rewrite Ht, decide_True by done. rewrite Hl. done. }
  reflexivity.
Qed.

Lemma run_REDUCE_INTLIST (a : nat) (elements : list Z) :
  objects !! a = Some (OIntList elements) →
  steps
    (mk (op_bytes REDUCE ++ rest)
       ((stack ++ [SIClass INTLIST]) ++ [SIValue (DTuple [DIntList a])])
       marks memo table lo objects)
    (mk rest (stack ++ [SIValue (DIntList (length objects))]) marks memo
       table REDUCE (objects ++ [OIntList elements])).
Proof.
  intros Ha. one_step REDUCE.
  { erewrite back_last by reflexivity. cbn [mbind result_bind ivalue toTuple].
  erewrite pop_back_last by reflexivity. cbn [mbind result_bind].
  erewrite back_last by reflexivity.
  cbn [mbind result_bind pickler_class].
  erewrite pop_back_last by reflexivity.
  cbn [mbind result_bind lookup list_lookup].
  cbn [objects_ set_stack set_bytes]. rewrite Ha. done. }
  reflexivity.
Qed.

End instructions.

Lemma run_ints (ns : list Z) (rest : list Z) (stack : list StackItem)
  (marks : list nat) (memo : list StackItem) (table : option (list Tensor))
  (lo : OpCode) (objects : list Object) :
  forallb int64 ns = true → lo ≠ NEWOBJ →
  ∃ lo', lo' ≠ NEWOBJ ∧
    steps
      (mk (concat (map pushInt_bytes ns) ++ rest) stack marks memo table lo
         objects)
      (mk rest (stack ++ map SIValue (map DInt ns)) marks memo table lo'
         objects).
Proof.
  revert stack lo. induction ns as [|n ns IH]; intros stack lo Hns Hlo.
  - exists lo. split; [done|]. simpl. rewrite app_nil_r. apply steps_refl.
  - simpl in Hns. apply andb_true_iff in Hns as [Hn Hns].
    destruct (run_pushInt (concat (map pushInt_bytes ns) ++ rest) stack
                marks memo table lo objects n Hn) as (lo1 & Hlo1 & Hs1).
    destruct (IH (stack ++ [SIValue (DInt n)]) lo1 Hns Hlo1)
      as (lo2 & Hlo2 & Hs2).
    exists lo2. split; [done|]. simpl. rewrite <- app_assoc.
    rewrite <- app_assoc in Hs2. by eapply steps_trans.
Qed.

(** *** The relation between decoded and encoded values *)

Lemma Forall2_Forall_impl {A B : Type} (P Q : A → B → Prop)
  (l : list A) (k : list B) :
  Forall (λ y, ∀ x, P x y → Q x y) k → Forall2 P l k → Forall2 Q l k.
Proof.
  intros Hk Hf. revert Hk.
  induction Hf as [|x y l k Hxy _ IH]; intros Hk; [constructor|].
  inversion Hk; subst. constructor; auto.
Qed.

Lemma represents_mono (bound bound' : ptr → option DValue)
  (objects objects' : list Object) (X X' : list nat) :
  (∀ q dv, bound q = Some dv → bound' q = Some dv) →
  (∀ a o, a ∉ X → objects !! a = Some o →
     (a ∉ X') ∧ objects' !! a = Some o) →
  ∀ w dv, represents bound objects X dv w → represents bound' objects' X' dv w.
Proof.
  intros Hb Hm w. induction w as [| | | | |q l IH|q l IH|q l IH| | |]
    using IValue_nested_ind; intros dv Hr; inversion Hr; subst; clear Hr;
    try (constructor; by auto).
  - constructor; [by auto|]. by eapply Forall2_Forall_impl.
  - match goal with
    | Ha : _ ∉ X, Ho : objects !! _ = Some _ |- _ =>
        destruct (Hm _ _ Ha Ho); clear Ho
    end.
    econstructor; [by auto|done..|]. by eapply Forall2_Forall_impl.
  - match goal with
    | Ha : _ ∉ X, Ho : objects !! _ = Some _ |- _ =>
        destruct (Hm _ _ Ha Ho); clear Ho
    end.
    econstructor; [by auto|done..|].
    eapply Forall2_Forall_impl; [|done].
    eapply Forall_impl; [exact IH|]. intros kv [Hk1 Hk2] dkv [? ?]. auto.
  - match goal with
    | Ha : _ ∉ X, Ho : objects !! _ = Some _ |- _ =>
        destruct (Hm _ _ Ha Ho)
    end.
    econstructor; [by auto|done..].
Qed.

Lemma represents_prefix (bound : ptr → option DValue)
  (objects objects' : list Object) (X : list nat)
  (w : IValue) (dv : DValue) :
  objects `prefix_of` objects' →
  represents bound objects X dv w → represents bound objects' X dv w.
Proof.
  intros Hp. apply represents_mono; [done|]. intros a o Ha Ho. split; [done|].
  by eapply prefix_lookup_Some.
Qed.

(** The value with a pointer is decoded as what is bound to the pointer. *)
Lemma represents_bound (bound : ptr → option DValue) (objects : list Object)
  (X : list nat) (dv : DValue) (v : IValue) (q : ptr) :
  represents bound objects X dv v → Pickler.getPointer v = Some q →
  bound q = Some dv.
Proof. intros Hr Hq. by inversion Hr; subst; simpl in Hq; simplify_eq. Qed.

Lemma decoded_at_mono (memo_map memo_map' : gmap ptr Z)
  (memo memo' : list StackItem) (q : ptr) (dv : DValue) :
  memo_map ⊆ memo_map' → memo `prefix_of` memo' →
  decoded_at memo_map memo q = Some dv →
  decoded_at memo_map' memo' q = Some dv.
Proof.
  intros Hm Hp. unfold decoded_at.
  destruct (memo_map !! q) as [memo_id|] eqn:Hq; [|done].
  rewrite (lookup_weaken _ _ _ _ Hq Hm).
  destruct (memo !! Z.to_nat memo_id) as [item|] eqn:Hi; [|done].
  by rewrite (prefix_lookup_Some _ _ _ _ Hi Hp).
Qed.

Lemma decoded_at_insert (memo_map : gmap ptr Z) (memo : list StackItem)
  (q : ptr) (dv : DValue) :
  decoded_at (<[q := Z.of_nat (length memo)]> memo_map)
    (memo ++ [SIValue dv]) q = Some dv.
Proof.
  unfold decoded_at. rewrite lookup_insert_eq, Nat2Z.id.
  by rewrite (list_lookup_middle memo [] (SIValue dv)).
Qed.

Lemma ref_for_Some (objects : list Object) (a : nat) (dv : DValue) :
  ref_for objects a = Some dv → (a < length objects)%nat.
Proof.
  unfold ref_for. destruct (objects !! a) eqn:H; [|done].
  intros _. by eapply lookup_lt_Some.
Qed.

Lemma ref_for_prefix (objects objects' : list Object) (a : nat) (dv : DValue) :
  objects `prefix_of` objects' →
  ref_for objects a = Some dv → ref_for objects' a = Some dv.
Proof.
  intros Hp. unfold ref_for. destruct (objects !! a) eqn:H; [|done].
  by rewrite (prefix_lookup_Some _ _ _ _ H Hp).
Qed.

Lemma ref_for_new (objects : list Object) (o : Object) :
  ref_for (objects ++ [o]) (length objects) =
  Some match o with
       | OGenericList _ => DGenericList (length objects)
       | OIntList _ => DIntList (length objects)
       | OGenericDict _ => DGenericDict (length objects)
       end.
Proof.
  unfold ref_for. rewrite (list_lookup_middle objects [] o) by done.
  by destruct o.
Qed.

(** *** The invariant, step by step *)

Section invariant_facts.
Context (universe : list IValue).

(** The encoder writes bytes that are no PUT; the decoder does not touch
    its memo table and only allocates. *)
Lemma invariant_plain (P : list (ptr * nat)) (p p' : Pickler.t) (u u' : t) :
  invariant universe P p u →
  Pickler.memo_id_ p' = Pickler.memo_id_ p →
  Pickler.memo_map_ p' = Pickler.memo_map_ p →
  Pickler.memoized_strings_map_ p' = Pickler.memoized_strings_map_ p →
  memo_table_ u' = memo_table_ u →
  objects_ u `prefix_of` objects_ u' →
  last_opcode_ u' ≠ NEWOBJ →
  invariant universe P p' u'.
Proof.
  intros [I1 I2 I3 I4 I5 I6] E1 E2 E3 E4 Hp Hlo.
  split; rewrite ?E1, ?E2, ?E3, ?E4; try done.
  - intros q memo_id Hq.
    destruct (I3 q memo_id Hq) as (Hid & dv & Hdv & Hcases).
    split; [done|]. exists dv. split; [done|].
    destruct Hcases as [(a & Ha & Hr)|[Hn Hr]].
    + left. exists a. split; [done|]. by eapply ref_for_prefix.
    + right. split; [done|]. intros w Hw Hwq.
      eapply represents_prefix; [done|]. by apply Hr.
  - intros q a Hqa. apply I5 in Hqa. apply prefix_length in Hp. lia.
Qed.

(** What was bound stays bound when a PUT binds a pointer that was not. *)
Lemma decoded_at_put (memo_map : gmap ptr Z) (memo : list StackItem)
  (q : ptr) (memo_id : Z) (item : StackItem) (k : ptr) (dv : DValue) :
  memo_map !! q = None →
  decoded_at memo_map memo k = Some dv →
  decoded_at (<[q := memo_id]> memo_map) (memo ++ [item]) k = Some dv.
Proof.
  intros Hq. apply decoded_at_mono; [by apply insert_subseteq|].
  by apply prefix_app_r.
Qed.

(** A PUT of a complete value. *)
Lemma invariant_memoize (P : list (ptr * nat)) (p p' : Pickler.t)
  (u u' : t) (q : ptr) (dv : DValue) :
  invariant universe P p u →
  Pickler.memo_map_ p !! q = None →
  Pickler.memo_id_ p ≤ 4294967295 →
  Pickler.memo_id_ p' = Pickler.memo_id_ p + 1 →
  Pickler.memo_map_ p' = <[q := Pickler.memo_id_ p]> (Pickler.memo_map_ p) →
  Pickler.memoized_strings_map_ p' = Pickler.memoized_strings_map_ p →
  memo_table_ u' = memo_table_ u ++ [SIValue dv] →
  objects_ u' = objects_ u →
  last_opcode_ u' ≠ NEWOBJ →
  q ∉ P.*1 →
  (∀ w, w ∈ universe → Pickler.getPointer w = Some q →
     represents (decoded_at (Pickler.memo_map_ p') (memo_table_ u'))
       (objects_ u) P.*2 dv w) →
  invariant universe P p' u'.
Proof.
  intros [I1 I2 I3 I4 I5 I6] Hnone Hmax E1 E2 E3 E4 E5 Hlo Hq Hrep.
  split; rewrite ?E1, ?E5; try done.
  - rewrite E4, length_app. simpl. lia.
  - lia.
  - rewrite E2. intros q' memo_id Hq'.
    destruct (decide (q' = q)) as [->|Hne].
    + rewrite lookup_insert_eq in Hq'. injection Hq' as <-.
      split; [lia|]. exists dv. split.
      { rewrite E4, I1, Nat2Z.id. by apply list_lookup_middle. }
      right. split; [done|]. by rewrite <- E2.
    + rewrite lookup_insert_ne in Hq' by done.
      destruct (I3 q' memo_id Hq') as (Hid & dv' & Hdv & Hcases).
      split; [done|]. exists dv'. split.
      { rewrite E4. by apply lookup_app_l_Some. }
      destruct Hcases as [Hl|[Hn Hr]]; [by left|]. right. split; [done|].
      intros w Hw Hwq. specialize (Hr w Hw Hwq). rewrite E4.
      eapply represents_mono; [| |exact Hr]; [|done].
      intros k dk. by apply decoded_at_put.
  - rewrite E3, E4. intros cls memo_id Hc.
    destruct (I4 cls memo_id Hc) as [Hid Hl].
    split; [done|]. by apply lookup_app_l_Some.
Qed.

(** A PUT of a container that the decoder has just allocated, and whose
    elements follow. *)
Lemma invariant_memoize_pending (P : list (ptr * nat)) (p p' : Pickler.t)
  (u u' : t) (q : ptr) (dv : DValue) (o : Object) :
  invariant universe P p u →
  Pickler.memo_map_ p !! q = None →
  Pickler.memo_id_ p ≤ 4294967295 →
  Pickler.memo_id_ p' = Pickler.memo_id_ p + 1 →
  Pickler.memo_map_ p' = <[q := Pickler.memo_id_ p]> (Pickler.memo_map_ p) →
  Pickler.memoized_strings_map_ p' = Pickler.memoized_strings_map_ p →
  memo_table_ u' = memo_table_ u ++ [SIValue dv] →
  objects_ u' = objects_ u ++ [o] →
  ref_for (objects_ u') (length (objects_ u)) = Some dv →
  last_opcode_ u' ≠ NEWOBJ →
  invariant universe ((q, length (objects_ u)) :: P) p' u'.
Proof.
  intros [I1 I2 I3 I4 I5 I6] Hnone Hmax E1 E2 E3 E4 E5 Hdv Hlo.
  split; rewrite ?E1; try done.
  - rewrite E4, length_app. simpl. lia.
  - lia.
  - rewrite E2. intros q' memo_id Hq'.
    destruct (decide (q' = q)) as [->|Hne].
    + rewrite lookup_insert_eq in Hq'. injection Hq' as <-.
      split; [lia|]. exists dv. split.
      { rewrite E4, I1, Nat2Z.id. by apply list_lookup_middle. }
      left. exists (length (objects_ u)). split; [by left|done].
    + rewrite lookup_insert_ne in Hq' by done.
      destruct (I3 q' memo_id Hq') as (Hid & dv' & Hl & Hcases).
      split; [done|]. exists dv'.
      split; [rewrite E4; by apply lookup_app_l_Some|].
      destruct Hcases as [(a & Ha & Hr)|[Hn Hr]].
      * left. exists a. split; [by right|].
        eapply ref_for_prefix; [|done]. rewrite E5. by apply prefix_app_r.
      * right. split.
        { rewrite fmap_cons, not_elem_of_cons. by split. }
        intros w Hw Hwq. specialize (Hr w Hw Hwq). rewrite E4.
        eapply represents_mono; [| |exact Hr].
        { intros k dk. by apply decoded_at_put. }
        intros a ob Ha Hob. rewrite E5. split.
        -- rewrite fmap_cons, not_elem_of_cons. split; [|done].
           apply lookup_lt_Some in Hob. simpl. lia.
        -- by apply lookup_app_l_Some.
  - rewrite E3, E4. intros cls memo_id Hc.
    destruct (I4 cls memo_id Hc) as [Hid Hl].
    split; [done|]. by apply lookup_app_l_Some.
  - intros q' a. rewrite elem_of_cons, E5, length_app. simpl.
    intros [[= -> ->]|Hqa]; [lia|]. apply I5 in Hqa. lia.
Qed.

(** The PUT that follows a GLOBAL. *)
Lemma invariant_global (P : list (ptr * nat)) (p p' : Pickler.t)
  (u u' : t) (cls : PicklerClass) :
  invariant universe P p u →
  Pickler.memo_id_ p ≤ 4294967295 →
  Pickler.memo_id_ p' = Pickler.memo_id_ p + 1 →
  Pickler.memo_map_ p' = Pickler.memo_map_ p →
  Pickler.memoized_strings_map_ p' =
    <[getModuleName ++ getClassName cls := Pickler.memo_id_ p]>
      (Pickler.memoized_strings_map_ p) →
  memo_table_ u' = memo_table_ u ++ [SIClass cls] →
  objects_ u' = objects_ u →
  last_opcode_ u' ≠ NEWOBJ →
  invariant universe P p' u'.
Proof.
  intros [I1 I2 I3 I4 I5 I6] Hmax E1 E2 E3 E4 E5 Hlo.
  split; rewrite ?E1, ?E2, ?E3, ?E4, ?E5; try done.
  - rewrite length_app. simpl. lia.
  - lia.
  - intros q' memo_id Hq'.
    destruct (I3 q' memo_id Hq') as (Hid & dv' & Hdv & Hcases).
    split; [done|]. exists dv'. split; [by apply lookup_app_l_Some|].
    destruct Hcases as [Hl|[Hn Hr]]; [by left|]. right. split; [done|].
    intros w Hw Hwq. specialize (Hr w Hw Hwq).
    eapply represents_mono; [| |exact Hr]; [|done].
    intros k dk. apply decoded_at_mono; [done|]. by apply prefix_app_r.
  - intros cls' memo_id Hc.
    destruct (decide (cls' = cls)) as [->|Hne].
    + rewrite lookup_insert_eq in Hc. injection Hc as <-.
      split; [lia|]. rewrite I1, Nat2Z.id. by apply list_lookup_middle.
    + rewrite lookup_insert_ne in Hc.
      2: { intros Heq. apply app_inv_head in Heq.
           by destruct cls, cls'. }
      destruct (I4 cls' memo_id Hc) as [Hid Hl].
      split; [done|]. by apply lookup_app_l_Some.
Qed.

(** The decoder fills the container at [a], whose PUT came before its
    elements: from now on a GET of it gives a complete value. *)
Lemma invariant_complete (P : list (ptr * nat)) (p p' : Pickler.t)
  (u u' : t) (q : ptr) (a : nat) (o : Object) :
  invariant universe ((q, a) :: P) p u →
  Pickler.memo_id_ p' = Pickler.memo_id_ p →
  Pickler.memo_map_ p' = Pickler.memo_map_ p →
  Pickler.memoized_strings_map_ p' = Pickler.memoized_strings_map_ p →
  memo_table_ u' = memo_table_ u →
  objects_ u' = <[a := o]> (objects_ u) →
  ref_for (objects_ u') a = ref_for (objects_ u) a →
  last_opcode_ u' ≠ NEWOBJ →
  q ∉ P.*1 → a ∉ P.*2 →
  (∀ w dv, w ∈ universe → Pickler.getPointer w = Some q →
     ref_for (objects_ u') a = Some dv →
     represents (decoded_at (Pickler.memo_map_ p') (memo_table_ u'))
       (objects_ u') P.*2 dv w) →
  invariant universe P p' u'.
Proof.
  intros [I1 I2 I3 I4 I5 I6] E1 E2 E3 E4 E5 Hkind Hlo Hq Ha Hrep.
  split; rewrite ?E1, ?E3; try done.
  - by rewrite E4.
  - rewrite E2, E4. intros q' memo_id Hq'.
    destruct (I3 q' memo_id Hq') as (Hid & dv' & Hl & Hcases).
    split; [done|]. exists dv'. split; [done|].
    destruct Hcases as [(a' & Ha' & Hr)|[Hn Hr]].
    + apply elem_of_cons in Ha' as [[= -> ->]|Ha'].
      * right. split; [done|]. intros w Hw Hwq.
        rewrite <- E2, <- E4. apply Hrep; [done..|].
        by rewrite Hkind.
      * left. exists a'. split; [done|].
        assert (a' ≠ a).
        { intros ->. apply Ha. apply list_elem_of_fmap.
          by exists (q', a). }
        unfold ref_for in *. rewrite E5.
        by rewrite list_lookup_insert_ne.
    + rewrite fmap_cons, not_elem_of_cons in Hn. destruct Hn as [Hn1 Hn2].
      right. split; [done|]. intros w Hw Hwq. specialize (Hr w Hw Hwq).
      eapply represents_mono; [| |exact Hr]; [done|].
      intros a' ob Ha' Hob. rewrite fmap_cons, not_elem_of_cons in Ha'.
      destruct Ha' as [Hne Ha']. split; [done|]. rewrite E5.
      by rewrite list_lookup_insert_ne.
  - rewrite E4. apply I4.
  - intros q' a' Hqa. rewrite E5, length_insert. apply (I5 q').
    by right.
Qed.

End invariant_facts.

(** *** Composition *)

Lemma top_is_value_values (stack : list StackItem) (dvs : list DValue) :
  top_is_value stack → top_is_value (stack ++ map SIValue dvs).
Proof.
  intros H. destruct dvs as [|dv dvs _] using rev_ind.
  - by rewrite app_nil_r.
  - unfold top_is_value. rewrite map_app. simpl.
    by rewrite app_assoc, last_snoc.
Qed.

Lemma grows_mode (p p' : Pickler.t) :
  Frame.grows p p' →
  is_Some (Pickler.tensor_table_ p) → is_Some (Pickler.tensor_table_ p').
Proof.
  intros (_ & _ & _ & _ & H) [t Ht]. rewrite Ht in H.
  by destruct (Pickler.tensor_table_ p').
Qed.

Lemma table_ok_grows (p p' : Pickler.t) (table : option (list Tensor)) :
  Frame.grows p p' → table_ok p' table → table_ok p table.
Proof.
  intros (_ & _ & _ & _ & H). unfold table_ok.
  destruct (Pickler.tensor_table_ p) as [t|]; [|done].
  destruct (Pickler.tensor_table_ p') as [t'|]; [|done].
  destruct H as [Hp _]. intros (t'' & -> & Ht & Hlen). exists t''.
  split; [done|]. split; [by etrans|done].
Qed.

Section composition.
Context (universe : list IValue) (table : option (list Tensor)).
Context (reference_mode : bool).

Lemma sim_consequence (P : list (ptr * nat)) (p p' : Pickler.t)
  (out : list Z)
  (R R' : list StackItem → list Object → list DValue → Prop) :
  (∀ memo objects dvs, R memo objects dvs → R' memo objects dvs) →
  sim universe table P p p' out R → sim universe table P p p' out R'.
Proof.
  intros HR H stack marks memo lo objects rest Hi Hne Htop.
  destruct (H stack marks memo lo objects rest Hi Hne Htop)
    as (memo' & lo' & objects' & dvs & ? & ? & ? & ? & ?).
  exists memo', lo', objects', dvs. auto 6.
Qed.

Lemma sim_seq (P : list (ptr * nat)) (p p1 p2 : Pickler.t)
  (out1 out2 : list Z)
  (R1 R2 : list StackItem → list Object → list DValue → Prop) :
  (∀ memo memo' objects objects' dvs,
     memo `prefix_of` memo' → objects `prefix_of` objects' →
     R1 memo objects dvs → R1 memo' objects' dvs) →
  sim universe table P p p1 out1 R1 →
  sim universe table P p1 p2 out2 R2 →
  sim universe table P p p2 (out1 ++ out2)
    (λ memo objects dvs,
       ∃ d1 d2, dvs = d1 ++ d2 ∧ R1 memo objects d1 ∧ R2 memo objects d2).
Proof.
  intros Hmono H1 H2 stack marks memo lo objects rest Hi Hne Htop.
  rewrite <- app_assoc in *.
  destruct (H1 stack marks memo lo objects (out2 ++ rest))
    as (memo1 & lo1 & objects1 & d1 & Hs1 & Hm1 & Hp1 & Hr1 & Hi1);
    [done| |done|].
  { destruct out2; [done|]. done. }
  destruct (H2 (stack ++ map SIValue d1) marks memo1 lo1 objects1 rest)
    as (memo2 & lo2 & objects2 & d2 & Hs2 & Hm2 & Hp2 & Hr2 & Hi2);
    [done|done|by apply top_is_value_values|].
  rewrite <- app_assoc, <- map_app in Hs2, Hi2.
  exists memo2, lo2, objects2, (d1 ++ d2).
  split; [by eapply steps_trans|]. split; [by etrans|].
  split; [by etrans|].
  split; [|done]. exists d1, d2. split; [done|]. split; [|done].
  by eapply Hmono.
Qed.

Lemma sim_nil (P : list (ptr * nat)) (p : Pickler.t)
  (R : list StackItem → list Object → list DValue → Prop) :
  (∀ memo objects, R memo objects []) →
  sim universe table P p p [] R.
Proof.
  intros HR stack marks memo lo objects rest Hi Hne Htop.
  exists memo, lo, objects, []. simpl. rewrite app_nil_r.
  split; [apply steps_refl|]. split; [done|]. split; [done|].
  split; [apply HR|]. done.
Qed.

(** [forEach] over the elements of a container. *)
Lemma forEach_translates {A : Type} (f : A → Pickler.t → result Pickler.t)
  (ok : list (ptr * nat) → A → Prop) (inside : A → ptr → Prop)
  (R : A → gmap ptr Z → list nat → list StackItem → list Object →
       list DValue → Prop) (l : list A) :
  (∀ x p p', f x p = Ok p' → Frame.grows p p') →
  (∀ x X memo_map memo_map' memo memo' objects objects' dvs,
     memo_map ⊆ memo_map' → memo `prefix_of` memo' →
     objects `prefix_of` objects' →
     R x memo_map X memo objects dvs → R x memo_map' X memo' objects' dvs) →
  Forall
    (λ x, ∀ p p', f x p = Ok p' →
       (reference_mode = true → is_Some (Pickler.tensor_table_ p)) →
       table_ok p' table →
       translates universe table ok inside R p p' x) l →
  ∀ p p', Pickler.forEach f l p = Ok p' →
    (reference_mode = true → is_Some (Pickler.tensor_table_ p)) →
    table_ok p' table →
    translates universe table (λ P l, Forall (ok P) l)
      (λ l k, ∃ x, x ∈ l ∧ inside x k)
      (λ l memo_map X memo objects dvs,
         ∃ dvss, dvs = concat dvss ∧
           Forall2 (λ ds x, R x memo_map X memo objects ds) dvss l)
      p p' l.
Proof.
  intros Hgrows Hmono Hall. induction Hall as [|x l Hx Hl IH];
    intros p p' Hf Hmode Htable.
  - injection Hf as <-. exists []. split; [by rewrite app_nil_r|].
    split; [done|]. split.
    { intros k Hk [? Hs]. congruence. }
    intros P _. apply sim_nil. intros memo objects. exists []. by split.
  - cbn [Pickler.forEach] in Hf. apply bind_Ok in Hf as (p1 & Hf1 & Hf).
    assert (Hg1 : Frame.grows p p1) by by eapply Hgrows.
    assert (Hg2 : Frame.grows p1 p').
    { eapply FrameFacts.grows_forEach; [|exact Hf].
      apply Forall_forall. intros y _ r r'. apply Hgrows. }
    destruct (Hx p p1 Hf1 Hmode) as (out1 & Ho1 & Hsub1 & Hin1 & Hs1).
    { by eapply table_ok_grows. }
    destruct (IH p1 p' Hf) as (out2 & Ho2 & Hsub2 & Hin2 & Hs2); [|done|].
    { intros Hrm. eapply grows_mode; [done|]. by apply Hmode. }
    exists (out1 ++ out2). split.
    { by rewrite Ho2, Ho1, <- app_assoc. }
    split; [by etrans|]. split.
    { intros k Hk Hk'.
      destruct (Pickler.memo_map_ p1 !! k) as [memo_id|] eqn:Hk1.
      - exists x. split; [by left|]. apply Hin1; [done|]. by rewrite Hk1.
      - destruct (Hin2 k Hk1 Hk') as (y & Hy & Hi). exists y.
        split; [by right|done]. }
    intros P Hok. inversion Hok as [|? ? Hokx Hokl]; subst.
    eapply sim_consequence;
      [|eapply sim_seq; [|by apply Hs1|by apply Hs2]].
    + intros memo objects dvs (d1 & d2 & -> & Hr1 & dvss & -> & Hr2).
      exists (d1 :: dvss). split; [done|]. constructor; [|done].
      by eapply Hmono.
    + intros memo memo' objects objects' dvs Hm Hp.
      by apply Hmono.
Qed.

End composition.

(** *** Values inside values *)

Lemma list_sum_elem_of {A : Type} (f : A → nat) (l : list A) (x : A) :
  x ∈ l → (f x ≤ list_sum (map f l))%nat.
Proof.
  induction 1 as [x l|x y l _ IH]; simpl; lia.
Qed.

Lemma elem_of_flat_map {A B : Type} (f : A → list B) (l : list A) (y : B) :
  y ∈ flat_map f l ↔ ∃ x, x ∈ l ∧ y ∈ f x.
Proof.
  rewrite list_elem_of_In, in_flat_map. split.
  - intros (x & Hx & Hy). exists x. by rewrite !list_elem_of_In.
  - intros (x & Hx & Hy). exists x. by rewrite <- !list_elem_of_In.
Qed.

Lemma subvalues_size (v w : IValue) :
  w ∈ subvalues v → (IValue_size w ≤ IValue_size v)%nat.
Proof.
  revert w. induction v as [| | | | |q l IH|q l IH|q l IH| | |]
    using IValue_nested_ind; intros w Hw;
    cbn [subvalues] in Hw; apply elem_of_cons in Hw as [->|Hw];
    try done; try by apply elem_of_nil in Hw.
  - apply elem_of_flat_map in Hw as (c & Hc & Hw).
    rewrite Forall_forall in IH. specialize (IH c Hc w Hw).
    pose proof (list_sum_elem_of IValue_size l c Hc). simpl. lia.
  - apply elem_of_flat_map in Hw as (c & Hc & Hw).
    rewrite Forall_forall in IH. specialize (IH c Hc w Hw).
    pose proof (list_sum_elem_of IValue_size l c Hc). simpl. lia.
  - apply elem_of_flat_map in Hw as (c & Hc & Hw).
    rewrite Forall_forall in IH. destruct (IH c Hc) as [IH1 IH2].
    pose proof (list_sum_elem_of
                  (λ kv, IValue_size kv.1 + IValue_size kv.2)%nat l c Hc)
      as Hs. simpl in Hs.
    apply elem_of_app in Hw as [Hw|Hw];
      [specialize (IH1 w Hw)|specialize (IH2 w Hw)]; simpl; lia.
Qed.

(** The values strictly inside a container. *)
Lemma subvalues_tuple (q : ptr) (l : list IValue) (c w : IValue) :
  c ∈ l → w ∈ subvalues c →
  w ∈ subvalues (IVTuple q l) ∧
  (IValue_size w < IValue_size (IVTuple q l))%nat.
Proof.
  intros Hc Hw. split.
  - cbn [subvalues]. right. apply elem_of_flat_map. by exists c.
  - apply subvalues_size in Hw.
    pose proof (list_sum_elem_of IValue_size l c Hc). simpl. lia.
Qed.

Lemma subvalues_list (q : ptr) (l : list IValue) (c w : IValue) :
  c ∈ l → w ∈ subvalues c →
  w ∈ subvalues (IVGenericList q l) ∧
  (IValue_size w < IValue_size (IVGenericList q l))%nat.
Proof.
  intros Hc Hw. split.
  - cbn [subvalues]. right. apply elem_of_flat_map. by exists c.
  - apply subvalues_size in Hw.
    pose proof (list_sum_elem_of IValue_size l c Hc). simpl. lia.
Qed.

Lemma subvalues_dict (q : ptr) (l : list (IValue * IValue))
  (kv : IValue * IValue) (w : IValue) :
  kv ∈ l → w ∈ subvalues kv.1 ∨ w ∈ subvalues kv.2 →
  w ∈ subvalues (IVGenericDict q l) ∧
  (IValue_size w < IValue_size (IVGenericDict q l))%nat.
Proof.
  intros Hc Hw. split.
  - cbn [subvalues]. right. apply elem_of_flat_map. exists kv.
    split; [done|]. by apply elem_of_app.
  - pose proof (list_sum_elem_of
                  (λ kv, IValue_size kv.1 + IValue_size kv.2)%nat l kv Hc)
      as Hs. simpl in Hs.
    destruct Hw as [Hw|Hw]; apply subvalues_size in Hw; simpl; lia.
Qed.

Lemma concat_one_value (memo_map : gmap ptr Z) (X : list nat)
  (memo : list StackItem) (objects : list Object)
  (l : list IValue) (dvs : list DValue) :
  (∃ dvss, dvs = concat dvss ∧
     Forall2 (λ ds x, one_value x memo_map X memo objects ds) dvss l) →
  Forall2 (represents (decoded_at memo_map memo) objects X) dvs l.
Proof.
  intros (dvss & -> & H).
  induction H as [|ds x dvss l (dv & -> & Hr) _ IH]; [constructor|].
  simpl. by constructor.
Qed.

Lemma one_value_mono (v : IValue) (X : list nat)
  (memo_map memo_map' : gmap ptr Z) (memo memo' : list StackItem)
  (objects objects' : list Object) (dvs : list DValue) :
  memo_map ⊆ memo_map' → memo `prefix_of` memo' →
  objects `prefix_of` objects' →
  one_value v memo_map X memo objects dvs →
  one_value v memo_map' X memo' objects' dvs.
Proof.
  intros Hm Hp Ho (dv & -> & Hr). exists dv. split; [done|].
  eapply represents_mono; [| |exact Hr].
  - intros q dq. by apply decoded_at_mono.
  - intros a o Ha Hl. split; [done|]. by eapply prefix_lookup_Some.
Qed.

Lemma concat_pairs (memo_map : gmap ptr Z) (X : list nat)
  (memo : list StackItem) (objects : list Object)
  (l : list (IValue * IValue)) (dvs : list DValue) :
  (∃ dvss, dvs = concat dvss ∧
     Forall2
       (λ ds kv, ∃ d1 d2, ds = d1 ++ d2 ∧
          one_value kv.1 memo_map X memo objects d1 ∧
          one_value kv.2 memo_map X memo objects d2) dvss l) →
  ∃ dkvs, dvs = flat_map (λ dkv, [dkv.1; dkv.2]) dkvs ∧
    Forall2
      (λ dkv kv,
         represents (decoded_at memo_map memo) objects X dkv.1 kv.1 ∧
         represents (decoded_at memo_map memo) objects X dkv.2 kv.2) dkvs l.
Proof.
  intros (dvss & -> & H).
  induction H as [|ds x dvss l (d1 & d2 & -> & (dk & -> & Hk) & (dv & -> & Hv))
                    _ (dkvs & IH1 & IH2)].
  - exists []. split; [done|constructor].
  - exists ((dk, dv) :: dkvs). split.
    + simpl. by rewrite IH1.
    + by constructor.
Qed.

(** *** Dict keys *)

Lemma setitems_pairs (dkvs d : list (DValue * DValue)) :
  setitems (map SIValue (flat_map (λ dkv, [dkv.1; dkv.2]) dkvs)) d =
  Ok (fold_left (λ d dkv, dict_insert dkv.1 dkv.2 d) dkvs d).
Proof.
  revert d. induction dkvs as [|dkv dkvs IH]; intros d; [done|].
  simpl. apply IH.
Qed.

Lemma represents_key (bound : ptr → option DValue) (objects : list Object)
  (X : list nat) (dk : DValue) (k : IValue) :
  scalar_key k = true → represents bound objects X dk k → dk = key_value k.
Proof. intros Hk Hr. by inversion Hr; subst. Qed.

Lemma DValue_eqb_key_sym (k1 k2 : IValue) :
  scalar_key k1 = true → scalar_key k2 = true →
  DValue_eqb (key_value k1) (key_value k2) =
  DValue_eqb (key_value k2) (key_value k1).
Proof.
  intros H1 H2. destruct k1, k2; try done; simpl;
    apply bool_decide_ext; split; congruence.
Qed.

Lemma distinct_keys_app (ks1 ks2 : list DValue) (k k' : DValue) :
  distinct_keys (ks1 ++ k :: ks2) = true → k' ∈ ks1 →
  DValue_eqb k' k = false.
Proof.
  induction ks1 as [|k1 ks1 IH]; intros Hd Hin;
    [by apply elem_of_nil in Hin|].
  simpl in Hd. apply andb_true_iff in Hd as [Hd1 Hd2].
  apply elem_of_cons in Hin as [->|Hin]; [|by apply IH].
  apply negb_true_iff in Hd1.
  destruct (DValue_eqb k1 k) eqn:He; [|done].
  assert (Hex : existsb (DValue_eqb k1) (ks1 ++ k :: ks2) = true);
    [|congruence].
  apply existsb_exists. exists k. split; [|done].
  apply in_or_app. right. by left.
Qed.

Lemma dict_insert_fresh (k v : DValue) (d : list (DValue * DValue)) :
  (∀ kv, kv ∈ d → DValue_eqb k kv.1 = false) →
  dict_insert k v d = d ++ [(k, v)].
Proof.
  induction d as [|[k' v'] d IH]; intros H; [done|].
  pose proof (H (k', v') ltac:(by left)) as Hk. simpl in Hk |- *.
  rewrite Hk, IH; [done|]. intros kv Hkv. apply H. by right.
Qed.

Lemma fold_dict_insert (dkvs d : list (DValue * DValue)) :
  Forall (λ dk, ∃ k, scalar_key k = true ∧ dk = key_value k)
    (map fst (d ++ dkvs)) →
  distinct_keys (map fst (d ++ dkvs)) = true →
  fold_left (λ d dkv, dict_insert dkv.1 dkv.2 d) dkvs d = d ++ dkvs.
Proof.
  revert d. induction dkvs as [|[dk dv] dkvs IH]; intros d Hs Hd.
  { by rewrite app_nil_r. }
  simpl. rewrite dict_insert_fresh.
  - rewrite IH; rewrite <- ?app_assoc; done.
  - intros [dk' dv'] Hin. simpl.
    rewrite map_app in Hs, Hd. simpl in Hs, Hd.
    assert (Hin' : dk' ∈ map fst d).
    { apply list_elem_of_In, in_map_iff. exists (dk', dv').
      split; [done|]. by apply list_elem_of_In. }
    pose proof (distinct_keys_app _ _ _ _ Hd Hin') as He.
    rewrite Forall_forall in Hs.
    destruct (Hs dk) as (k & Hk & ->).
    { apply elem_of_app. right. by left. }
    destruct (Hs dk') as (k' & Hk' & ->).
    { apply elem_of_app. by left. }
    by rewrite DValue_eqb_key_sym.
Qed.

Lemma prefix_insert_ge {A : Type} (l k : list A) (a : nat) (x : A) :
  l `prefix_of` k → (length l ≤ a)%nat → l `prefix_of` <[a := x]> k.
Proof.
  intros [k' ->] Hle. rewrite insert_app_r_alt by done.
  by apply prefix_app_r.
Qed.

(** *** Scalars, strings and values seen before *)

Lemma subvalues_self (v : IValue) : v ∈ subvalues v.
Proof. destruct v; by left. Qed.

Lemma points_inside_self (v : IValue) (q : ptr) :
  Pickler.getPointer v = Some q → points_inside v q.
Proof. intros Hq. exists v. split; [apply subvalues_self|done]. Qed.

(** The pointers bound by one PUT. *)
Lemma insert_binds (memo_map : gmap ptr Z) (q k : ptr) (memo_id : Z) :
  memo_map !! k = None → is_Some (<[q := memo_id]> memo_map !! k) → k = q.
Proof.
  intros Hk Hs. destruct (decide (k = q)) as [|Hne]; [done|].
  rewrite lookup_insert_ne, Hk in Hs by done. by destruct Hs.
Qed.

Section cases.
Context (universe : list IValue) (table : option (list Tensor)).
Context (reference_mode : bool).
Hypothesis Hcons : consistent universe.

Lemma allowed_self (P : list (ptr * nat)) (v : IValue) :
  allowed universe P v →
  v ∈ universe ∧ ∀ q, Pickler.getPointer v = Some q → q ∉ P.*1.
Proof. intros H. apply H, subvalues_self. Qed.

(** A value of the universe is the only one with its pointer. *)
Lemma represents_unique (P : list (ptr * nat)) (v : IValue) (q : ptr)
  (bound : ptr → option DValue) (objects : list Object) (X : list nat)
  (dv : DValue) :
  allowed universe P v →
  Pickler.getPointer v = Some q →
  represents bound objects X dv v →
  ∀ w, w ∈ universe → Pickler.getPointer w = Some q →
    represents bound objects X dv w.
Proof.
  intros Hok Hq Hr w Hw Hwq. apply allowed_self in Hok as [Hv _].
  by rewrite (Hcons w v q Hw Hv Hwq Hq).
Qed.

Lemma translates_GET (v : IValue) (q : ptr) (memo_id : Z) (p : Pickler.t) :
  Pickler.getPointer v = Some q →
  Pickler.memo_map_ p !! q = Some memo_id →
  translates universe table (allowed universe) points_inside one_value
    p (Pickler.pushBinGet memo_id p) v.
Proof.
  intros Hq Hm. exists (pushBinGet_bytes memo_id).
  rewrite PicklerFacts.pushBinGet_frame. split; [done|].
  split; [done|]. split.
  { intros k Hk [? Hs]. cbn [Pickler.memo_map_ Pickler.insert_end] in Hs.
    congruence. }
  intros P Hok stack marks memo lo objects rest Hi Hne Htop.
  destruct (inv_memo_map _ _ _ _ Hi q memo_id Hm)
    as (Hid & dv & Hl & Hcases).
  apply allowed_self in Hok as [Hv Hp]. specialize (Hp q Hq).
  destruct Hcases as [(a & Ha & _)|[_ Hr]].
  { destruct Hp. apply list_elem_of_fmap. by exists (q, a). }
  cbn [memo_table_ objects_] in Hl, Hr.
  pose proof (inv_memo_id _ _ _ _ Hi) as H1.
  pose proof (inv_memo_id_max _ _ _ _ Hi) as H2.
  cbn [memo_table_] in H1.
  pose proof (lookup_lt_Some _ _ _ Hl) as Hlt.
  destruct (run_GET rest stack marks memo table lo objects memo_id
              (SIValue dv)) as (lo' & Hlo & Hs); [lia|done|].
  exists memo, lo', objects, [dv]. split; [done|]. split; [done|].
  split; [done|].
  split; [by exists dv; split; [|apply Hr]|].
  by eapply invariant_plain.
Qed.

(** An emission that is one instruction pushing one value, with no PUT. *)
Lemma sim_plain (P : list (ptr * nat)) (p : Pickler.t) (out : list Z)
  (dv : DValue) (R : list StackItem → list Object → list DValue → Prop) :
  (∀ rest stack marks memo lo objects, rest ≠ [] →
     ∃ lo', lo' ≠ NEWOBJ ∧
       steps (mk (out ++ rest) stack marks memo table lo objects)
         (mk rest (stack ++ [SIValue dv]) marks memo table lo' objects)) →
  (∀ memo objects, R memo objects [dv]) →
  sim universe table P p (Pickler.insert_end out p) out R.
Proof.
  intros Hsteps HR stack marks memo lo objects rest Hi Hne Htop.
  destruct (Hsteps rest stack marks memo lo objects Hne)
    as (lo' & Hlo & Hs).
  exists memo, lo', objects, [dv]. split; [done|]. split; [done|].
  split; [done|].
  split; [apply HR|]. by eapply invariant_plain.
Qed.

(** An emission that binds no pointer. *)
Lemma translates_plain (v : IValue) (p : Pickler.t) (out : list Z) :
  (∀ P, sim universe table P p (Pickler.insert_end out p) out
          (one_value v (Pickler.memo_map_ p) P.*2)) →
  translates universe table (allowed universe) points_inside one_value
    p (Pickler.insert_end out p) v.
Proof.
  intros Hs. exists out. split; [done|]. split; [done|]. split.
  { intros k Hk [? Hk']. cbn [Pickler.memo_map_ Pickler.insert_end] in Hk'.
    congruence. }
  intros P _. apply Hs.
Qed.

Lemma translates_bool (b : bool) (p : Pickler.t) :
  translates universe table (allowed universe) points_inside one_value
    p (Pickler.addIValue_bool b p) (IVBool b).
Proof.
  rewrite PicklerFacts.addIValue_bool_frame. apply translates_plain.
  intros P. apply (sim_plain _ _ _ (DBool b)).
  - intros. apply run_bool.
  - intros memo objects. exists (DBool b). split; [done|constructor].
Qed.

Lemma translates_int (n : Z) (p : Pickler.t) :
  int64 n = true →
  translates universe table (allowed universe) points_inside one_value
    p (Pickler.pushInt n p) (IVInt n).
Proof.
  intros Hn. rewrite PicklerFacts.pushInt_frame. apply translates_plain.
  intros P. apply (sim_plain _ _ _ (DInt n)).
  - intros. by apply run_pushInt.
  - intros memo objects. exists (DInt n). split; [done|constructor].
Qed.

Lemma translates_double (bits : Z) (p : Pickler.t) :
  0 ≤ bits < 2 ^ 64 →
  translates universe table (allowed universe) points_inside one_value
    p (Pickler.pushDouble bits p) (IVDouble bits).
Proof.
  intros Hn. rewrite PicklerFacts.pushDouble_frame. apply translates_plain.
  intros P. apply (sim_plain _ _ _ (DDouble bits)).
  - intros. exists BINFLOAT. split; [done|]. by apply run_pushDouble.
  - intros memo objects. exists (DDouble bits). split; [done|constructor].
Qed.

Lemma translates_string (q : ptr) (s : list Z) (p p' : Pickler.t) :
  Pickler.memo_map_ p !! q = None →
  Z.of_nat (length s) < 2 ^ 32 →
  Pickler.pushMemoizedString (IVString q s) s p = Ok p' →
  translates universe table (allowed universe) points_inside one_value
    p p' (IVString q s).
Proof.
  intros Hnone Hn Hp.
  apply PicklerFacts.pushMemoizedString_Ok in Hp as (q' & [= <-] & Hmax & ->).
  eexists. split; [reflexivity|].
  cbn [Pickler.memo_map_]. split; [by apply insert_subseteq|]. split.
  { intros k Hk Hk'. apply insert_binds in Hk' as ->; [|done].
    by apply points_inside_self. }
  intros P Hok stack marks memo lo objects rest Hi Hne Htop.
  rewrite <- !app_assoc.
  pose proof (run_BINUNICODE
                (pushNextBinPut_bytes (Pickler.memo_id_ p) ++ rest)
                stack marks memo table lo objects s Hn) as Hs1.
  destruct (run_PUT rest (stack ++ [SIValue (DString s)]) marks memo table
              BINUNICODE objects (Pickler.memo_id_ p)
              (SIValue (DString s))) as (lo' & Hlo & Hs2).
  { by rewrite last_snoc. }
  pose proof (inv_memo_id _ _ _ _ Hi) as Hid. cbn [memo_table_] in Hid.
  assert (Hrep : represents
                   (decoded_at
                      (<[q := Pickler.memo_id_ p]> (Pickler.memo_map_ p))
                      (memo ++ [SIValue (DString s)]))
                   objects P.*2 (DString s) (IVString q s)).
  { constructor. rewrite Hid. apply decoded_at_insert. }
  exists (memo ++ [SIValue (DString s)]), lo', objects, [DString s].
  split.
  { eapply steps_trans; [apply Hs1|exact Hs2].
    unfold pushNextBinPut_bytes. by destruct (_ <=? _). }
  split; [by apply prefix_app_r|]. split; [done|].
  split; [by exists (DString s)|].
  eapply (invariant_memoize _ _ _ _ _ _ q (DString s) Hi); try done.
  - by apply (allowed_self _ _ Hok).
  - by eapply represents_unique.
Qed.

(** *** Tuples and lists *)

Lemma allowed_inside (P : list (ptr * nat)) (v c : IValue) :
  allowed universe P v →
  (∀ w, w ∈ subvalues c → w ∈ subvalues v) →
  allowed universe P c.
Proof. intros Hok Hsub w Hw. by apply Hok, Hsub. Qed.

(** A value strictly inside a value does not have its pointer. *)
Lemma no_pointer_inside (P : list (ptr * nat)) (v w : IValue) (q : ptr) :
  allowed universe P v →
  Pickler.getPointer v = Some q →
  w ∈ subvalues v → (IValue_size w < IValue_size v)%nat →
  Pickler.getPointer w ≠ Some q.
Proof.
  intros Hok Hq Hw Hlt Hwq. destruct (Hok w Hw) as [Hu _].
  apply allowed_self in Hok as [Hv _].
  rewrite (Hcons w v q Hu Hv Hwq Hq) in Hlt. lia.
Qed.

(** The values inside a container are not the container: it can be
    pending while they are written. *)
Lemma allowed_pending (P : list (ptr * nat)) (v c : IValue) (q : ptr)
  (a : nat) :
  allowed universe P v →
  Pickler.getPointer v = Some q →
  (∀ w, w ∈ subvalues c →
     w ∈ subvalues v ∧ (IValue_size w < IValue_size v)%nat) →
  allowed universe ((q, a) :: P) c.
Proof.
  intros Hok Hq Hsub w Hw. destruct (Hsub w Hw) as [Hwv Hlt].
  destruct (Hok w Hwv) as [Hu Hp]. split; [done|].
  intros q' Hq'. rewrite fmap_cons, not_elem_of_cons.
  split; [|by apply Hp]. simpl. intros ->.
  by eapply no_pointer_inside.
Qed.

Lemma translates_tuple (q : ptr) (l : list IValue) (p p2 p' : Pickler.t) :
  Pickler.memo_map_ p !! q = None →
  translates universe table (λ P l, Forall (allowed universe P) l)
    (λ l k, ∃ x, x ∈ l ∧ points_inside x k)
    (λ l memo_map X memo objects dvs,
       ∃ dvss, dvs = concat dvss ∧
         Forall2 (λ ds x, one_value x memo_map X memo objects ds) dvss l)
    (Pickler.pushOp MARK p) p2 l →
  Pickler.pushMemoization (IVTuple q l) (Pickler.pushOp TUPLE p2) = Ok p' →
  translates universe table (allowed universe) points_inside one_value
    p p' (IVTuple q l).
Proof.
  intros Hnone (out & Ho & Hsub & Hin & Hsim) Hp.
  apply PicklerFacts.pushMemoization_Ok in Hp as (q' & [= <-] & Hmax & ->).
  cbn [Pickler.memo_map_ Pickler.memo_id_ Pickler.pushOp Pickler.push
       Pickler.insert_end] in Hsub, Hin, Hmax |- *.
  exists (op_bytes MARK ++ out ++ op_bytes TUPLE ++
          pushNextBinPut_bytes (Pickler.memo_id_ p2)).
  split.
  { cbn [Pickler.stack_ Pickler.pushOp Pickler.push Pickler.insert_end]
      in Ho |- *.
    rewrite Ho. by rewrite <- !app_assoc. }
  split; [by apply insert_subseteq_r|]. split.
  { intros k Hk Hk'. destruct (decide (k = q)) as [->|Hne].
    { by apply points_inside_self. }
    cbn [Pickler.memo_map_] in Hk'.
    rewrite lookup_insert_ne in Hk' by done.
    destruct (Hin k Hk Hk') as (c & Hc & w & Hw & Hwk).
    exists w. split; [|done]. by apply (subvalues_tuple q l c w). }
  intros P Hok stack marks memo lo objects rest Hi Hne Htop.
  rewrite <- !app_assoc.
  assert (Hnone2 : Pickler.memo_map_ p2 !! q = None).
  { destruct (Pickler.memo_map_ p2 !! q) as [memo_id|] eqn:Hq2; [|done].
    destruct (Hin q Hnone) as (c & Hc & w & Hw & Hwq); [by rewrite Hq2|].
    destruct (subvalues_tuple q l c w Hc Hw) as [Hwv Hlt].
    by destruct (no_pointer_inside P (IVTuple q l) w q). }
  pose proof (run_MARK
                (out ++ op_bytes TUPLE ++
                 pushNextBinPut_bytes (Pickler.memo_id_ p2) ++ rest)
                stack marks memo table lo objects) as Hs1.
  destruct (Hsim P) with
    (stack := stack) (marks := marks ++ [length stack]) (memo := memo)
    (lo := MARK) (objects := objects)
    (rest := op_bytes TUPLE ++
             pushNextBinPut_bytes (Pickler.memo_id_ p2) ++ rest)
    as (memo1 & lo1 & objects1 & dvs & Hs2 & Hm1 & Hp1 & Hr & Hi2);
    [|by eapply invariant_plain|done|done|].
  { apply Forall_forall. intros c Hc.
    eapply allowed_inside; [done|].
    intros w Hw. by apply (subvalues_tuple q l c w). }
  apply concat_one_value in Hr.
  pose proof (run_TUPLE
                (pushNextBinPut_bytes (Pickler.memo_id_ p2) ++ rest)
                stack marks memo1 table lo1 objects1 dvs) as Hs3.
  destruct (run_PUT rest (stack ++ [SIValue (DTuple dvs)]) marks memo1
              table TUPLE objects1 (Pickler.memo_id_ p2)
              (SIValue (DTuple dvs))) as (lo' & Hlo & Hs4).
  { by rewrite last_snoc. }
  pose proof (inv_memo_id _ _ _ _ Hi2) as Hid. cbn [memo_table_] in Hid.
  assert (Hrep : represents
                   (decoded_at
                      (<[q := Pickler.memo_id_ p2]> (Pickler.memo_map_ p2))
                      (memo1 ++ [SIValue (DTuple dvs)]))
                   objects1 P.*2 (DTuple dvs) (IVTuple q l)).
  { constructor; [rewrite Hid; apply decoded_at_insert|].
    eapply Forall2_impl; [exact Hr|]. intros dv w.
    apply represents_mono; [|done].
    intros k dk. by apply decoded_at_put. }
  exists (memo1 ++ [SIValue (DTuple dvs)]), lo', objects1, [DTuple dvs].
  split.
  { eapply steps_trans; [exact Hs1|]. eapply steps_trans; [exact Hs2|].
    eapply steps_trans; [exact Hs3|exact Hs4]. }
  split; [etrans; [exact Hm1|by apply prefix_app_r]|].
  split; [done|].
  split; [by exists (DTuple dvs)|].
  eapply (invariant_memoize _ _ _ _ _ _ q (DTuple dvs) Hi2); try done.
  - by apply (allowed_self _ _ Hok).
  - by eapply represents_unique.
Qed.

Lemma not_pending (P : list (ptr * nat)) (p : Pickler.t) (u : t) :
  invariant universe P p u → length (objects_ u) ∉ P.*2.
Proof.
  intros Hi Hin. apply list_elem_of_fmap in Hin as ([q a] & Ha & Hin).
  simpl in Ha. subst a. apply (inv_pending _ _ _ _ Hi) in Hin. lia.
Qed.

(** What the PUT at the start of a container bound stays bound while its
    elements are read. *)
Lemma decoded_at_container (memo_map memo_map' : gmap ptr Z)
  (memo memo' : list StackItem) (q : ptr) (dv : DValue) :
  <[q := Z.of_nat (length memo)]> memo_map ⊆ memo_map' →
  memo ++ [SIValue dv] `prefix_of` memo' →
  decoded_at memo_map' memo' q = Some dv.
Proof.
  intros Hm Hp. eapply decoded_at_mono; [exact Hm|exact Hp|].
  apply decoded_at_insert.
Qed.

Lemma translates_list (q : ptr) (l : list IValue) (p p2 p4 : Pickler.t) :
  Pickler.memo_map_ p !! q = None →
  Pickler.pushMemoization (IVGenericList q l) (Pickler.pushOp EMPTY_LIST p)
  = Ok p2 →
  translates universe table (λ P l, Forall (allowed universe P) l)
    (λ l k, ∃ x, x ∈ l ∧ points_inside x k)
    (λ l memo_map X memo objects dvs,
       ∃ dvss, dvs = concat dvss ∧
         Forall2 (λ ds x, one_value x memo_map X memo objects ds) dvss l)
    (Pickler.pushOp MARK p2) p4 l →
  translates universe table (allowed universe) points_inside one_value
    p (Pickler.pushOp APPENDS p4) (IVGenericList q l).
Proof.
  intros Hnone Hp (out & Ho & Hsub & Hin & Hsim).
  apply PicklerFacts.pushMemoization_Ok in Hp as (q' & [= <-] & Hmax & ->).
  cbn [Pickler.memo_map_ Pickler.memo_id_ Pickler.pushOp Pickler.push
       Pickler.insert_end] in Hsub, Hin, Hmax |- *.
  exists (op_bytes EMPTY_LIST ++ pushNextBinPut_bytes (Pickler.memo_id_ p) ++
          op_bytes MARK ++ out ++ op_bytes APPENDS).
  split.
  { cbn [Pickler.stack_ Pickler.pushOp Pickler.push Pickler.insert_end
         Pickler.memo_id_] in Ho |- *.
    rewrite Ho. by rewrite <- !app_assoc. }
  split; [etrans; [by apply insert_subseteq|exact Hsub]|]. split.
  { intros k Hk Hk'. destruct (decide (k = q)) as [->|Hne].
    { by apply points_inside_self. }
    destruct (Hin k) as (c & Hc & w & Hw & Hwk);
      [by rewrite lookup_insert_ne|done|].
    exists w. split; [|done]. by apply (subvalues_list q l c w). }
  intros P Hok stack marks memo lo objects rest Hi Hne Htop.
  rewrite <- !app_assoc.
  pose proof (not_pending _ _ _ Hi) as Hfresh. cbn [objects_] in Hfresh.
  pose proof (inv_memo_id _ _ _ _ Hi) as Hid. cbn [memo_table_] in Hid.
  set (a := length objects) in *.
  pose proof (run_EMPTY_LIST
                (pushNextBinPut_bytes (Pickler.memo_id_ p) ++
                 op_bytes MARK ++ out ++ op_bytes APPENDS ++ rest)
                stack marks memo table lo objects
                (inv_last_opcode _ _ _ _ Hi) Htop) as Hs1.
  destruct (run_PUT (op_bytes MARK ++ out ++ op_bytes APPENDS ++ rest)
              (stack ++ [SIValue (DGenericList a)]) marks memo table
              EMPTY_LIST (objects ++ [OGenericList []])
              (Pickler.memo_id_ p) (SIValue (DGenericList a)))
    as (lo1 & Hlo1 & Hs2).
  { by rewrite last_snoc. }
  pose proof (run_MARK (out ++ op_bytes APPENDS ++ rest)
                (stack ++ [SIValue (DGenericList a)]) marks
                (memo ++ [SIValue (DGenericList a)]) table lo1
                (objects ++ [OGenericList []])) as Hs3.
  destruct (Hsim ((q, a) :: P)) with
    (stack := stack ++ [SIValue (DGenericList a)])
    (marks := marks ++ [length (stack ++ [SIValue (DGenericList a)])])
    (memo := memo ++ [SIValue (DGenericList a)])
    (lo := MARK) (objects := objects ++ [OGenericList []])
    (rest := op_bytes APPENDS ++ rest)
    as (memo1 & lo2 & objects1 & dvs & Hs4 & Hm1 & Hp1 & Hr & Hi4);
    [| |done|by unfold top_is_value; rewrite last_snoc|].
  { apply Forall_forall. intros c Hc.
    eapply allowed_pending; [done..|].
    intros w Hw. by apply (subvalues_list q l c w). }
  { eapply (invariant_memoize_pending _ _ _ _ _ _ q (DGenericList a)
              (OGenericList []) Hi); try done.
    apply (ref_for_new objects (OGenericList [])). }
  apply concat_one_value in Hr. cbn [fmap list_fmap snd] in Hr.
  assert (Ha1 : objects1 !! a = Some (OGenericList [])).
  { eapply prefix_lookup_Some; [|done].
    by apply (list_lookup_middle objects []). }
  pose proof (run_APPENDS rest stack marks memo1 table lo2 objects1 a []
                dvs Ha1) as Hs5.
  cbn [app] in Hs5.
  assert (Hrep : represents (decoded_at (Pickler.memo_map_ p4) memo1)
                   (<[a := OGenericList dvs]> objects1) P.*2
                   (DGenericList a) (IVGenericList q l)).
  { econstructor; [|done| |].
    - eapply decoded_at_container; [|exact Hm1]. by rewrite <- Hid.
    - apply list_lookup_insert_eq. by eapply lookup_lt_Some.
    - eapply Forall2_impl; [exact Hr|]. intros dv w.
      apply represents_mono; [done|]. intros a' o Ha' Hlook.
      apply not_elem_of_cons in Ha' as [Hne' Ha'].
      split; [done|]. by rewrite list_lookup_insert_ne. }
  exists memo1, APPENDS, (<[a := OGenericList dvs]> objects1),
    [DGenericList a].
  split.
  { eapply steps_trans; [exact Hs1|]. eapply steps_trans; [exact Hs2|].
    eapply steps_trans; [exact Hs3|]. eapply steps_trans; [exact Hs4|].
    exact Hs5. }
  split; [etrans; [|exact Hm1]; by apply prefix_app_r|].
  split.
  { apply prefix_insert_ge; [|done]. etrans; [|exact Hp1].
    by apply prefix_app_r. }
  split; [by exists (DGenericList a)|].
  eapply (invariant_complete _ _ _ _ _ _ q a (OGenericList dvs) Hi4);
    try done.
  - cbn [objects_]. unfold ref_for. rewrite Ha1.
    rewrite list_lookup_insert_eq by (by eapply lookup_lt_Some). done.
  - by apply (allowed_self _ _ Hok).
  - cbn [objects_]. intros w dv Hw Hwq Hdv.
    unfold ref_for in Hdv.
    rewrite list_lookup_insert_eq in Hdv by (by eapply lookup_lt_Some).
    injection Hdv as <-.
    exact (represents_unique _ _ _ _ _ _ _ Hok eq_refl Hrep w Hw Hwq).
Qed.

(** *** Dicts *)

Lemma translates_pair (kv : IValue * IValue) :
  (∀ p p', Pickler.addIValue kv.1 p = Ok p' →
     (reference_mode = true → is_Some (Pickler.tensor_table_ p)) →
     table_ok p' table →
     translates universe table (allowed universe) points_inside one_value
       p p' kv.1) →
  (∀ p p', Pickler.addIValue kv.2 p = Ok p' →
     (reference_mode = true → is_Some (Pickler.tensor_table_ p)) →
     table_ok p' table →
     translates universe table (allowed universe) points_inside one_value
       p p' kv.2) →
  ∀ p p',
    (p1 ← Pickler.addIValue kv.1 p; Pickler.addIValue kv.2 p1) = Ok p' →
    (reference_mode = true → is_Some (Pickler.tensor_table_ p)) →
    table_ok p' table →
    translates universe table
      (λ P kv, allowed universe P kv.1 ∧ allowed universe P kv.2)
      (λ kv k, points_inside kv.1 k ∨ points_inside kv.2 k)
      (λ kv memo_map X memo objects ds,
         ∃ d1 d2, ds = d1 ++ d2 ∧ one_value kv.1 memo_map X memo objects d1 ∧
                  one_value kv.2 memo_map X memo objects d2)
      p p' kv.
Proof.
  intros H1 H2 p p' Hp Hmode Htable.
  apply bind_Ok in Hp as (p1 & Hp1 & Hp2).
  pose proof (FrameFacts.grows_addIValue _ _ _ Hp1) as Hg1.
  pose proof (FrameFacts.grows_addIValue _ _ _ Hp2) as Hg2.
  destruct (H1 p p1 Hp1 Hmode) as (out1 & Ho1 & Hsub1 & Hin1 & Hs1).
  { by eapply table_ok_grows. }
  destruct (H2 p1 p' Hp2) as (out2 & Ho2 & Hsub2 & Hin2 & Hs2); [|done|].
  { intros Hrm. eapply grows_mode; [done|]. by apply Hmode. }
  exists (out1 ++ out2). split; [by rewrite Ho2, Ho1, <- app_assoc|].
  split; [by etrans|]. split.
  { intros k Hk Hk'.
    destruct (Pickler.memo_map_ p1 !! k) as [memo_id|] eqn:Hk1.
    - left. apply Hin1; [done|]. by rewrite Hk1.
    - right. by apply Hin2. }
  intros P [Hok1 Hok2].
  eapply sim_seq; [| |by apply Hs2].
  { intros memo memo' objects objects' dvs.
    by apply (one_value_mono kv.1 P.*2 (Pickler.memo_map_ p')). }
  eapply sim_consequence; [|by apply Hs1].
  intros memo objects dvs. by apply one_value_mono.
Qed.

Lemma translates_dict (q : ptr) (l : list (IValue * IValue))
  (p p2 p4 : Pickler.t) :
  Pickler.memo_map_ p !! q = None →
  Forall (λ kv, scalar_key kv.1 = true) l →
  distinct_keys (map (λ kv, key_value kv.1) l) = true →
  Pickler.pushMemoization (IVGenericDict q l) (Pickler.pushOp EMPTY_DICT p)
  = Ok p2 →
  translates universe table
    (λ P l, Forall (λ kv, allowed universe P kv.1 ∧
                          allowed universe P kv.2) l)
    (λ l k, ∃ kv, kv ∈ l ∧ (points_inside kv.1 k ∨ points_inside kv.2 k))
    (λ l memo_map X memo objects dvs,
       ∃ dvss, dvs = concat dvss ∧
         Forall2
           (λ ds kv, ∃ d1 d2, ds = d1 ++ d2 ∧
              one_value kv.1 memo_map X memo objects d1 ∧
              one_value kv.2 memo_map X memo objects d2)
           dvss l)
    (Pickler.pushOp MARK p2) p4 l →
  translates universe table (allowed universe) points_inside one_value
    p (Pickler.pushOp SETITEMS p4) (IVGenericDict q l).
Proof.
  intros Hnone Hscalar Hdistinct Hp (out & Ho & Hsub & Hin & Hsim).
  apply PicklerFacts.pushMemoization_Ok in Hp as (q' & [= <-] & Hmax & ->).
  cbn [Pickler.memo_map_ Pickler.memo_id_ Pickler.pushOp Pickler.push
       Pickler.insert_end] in Hsub, Hin, Hmax |- *.
  exists (op_bytes EMPTY_DICT ++ pushNextBinPut_bytes (Pickler.memo_id_ p) ++
          op_bytes MARK ++ out ++ op_bytes SETITEMS).
  split.
  { cbn [Pickler.stack_ Pickler.pushOp Pickler.push Pickler.insert_end
         Pickler.memo_id_] in Ho |- *.
    rewrite Ho. by rewrite <- !app_assoc. }
  split; [etrans; [by apply insert_subseteq|exact Hsub]|]. split.
  { intros k Hk Hk'. destruct (decide (k = q)) as [->|Hne].
    { by apply points_inside_self. }
    destruct (Hin k) as (kv & Hkv & Hw);
      [by rewrite lookup_insert_ne|done|].
    destruct Hw as [(w & Hw & Hwk)|(w & Hw & Hwk)];
      (exists w; split; [|done]);
      apply (subvalues_dict q l kv w); auto. }
  intros P Hok stack marks memo lo objects rest Hi Hne Htop.
  rewrite <- !app_assoc.
  pose proof (not_pending _ _ _ Hi) as Hfresh. cbn [objects_] in Hfresh.
  pose proof (inv_memo_id _ _ _ _ Hi) as Hid. cbn [memo_table_] in Hid.
  set (a := length objects) in *.
  pose proof (run_EMPTY_DICT
                (pushNextBinPut_bytes (Pickler.memo_id_ p) ++
                 op_bytes MARK ++ out ++ op_bytes SETITEMS ++ rest)
                stack marks memo table lo objects) as Hs1.
  destruct (run_PUT (op_bytes MARK ++ out ++ op_bytes SETITEMS ++ rest)
              (stack ++ [SIValue (DGenericDict a)]) marks memo table
              EMPTY_DICT (objects ++ [OGenericDict []])
              (Pickler.memo_id_ p) (SIValue (DGenericDict a)))
    as (lo1 & Hlo1 & Hs2).
  { by rewrite last_snoc. }
  pose proof (run_MARK (out ++ op_bytes SETITEMS ++ rest)
                (stack ++ [SIValue (DGenericDict a)]) marks
                (memo ++ [SIValue (DGenericDict a)]) table lo1
                (objects ++ [OGenericDict []])) as Hs3.
  destruct (Hsim ((q, a) :: P)) with
    (stack := stack ++ [SIValue (DGenericDict a)])
    (marks := marks ++ [length (stack ++ [SIValue (DGenericDict a)])])
    (memo := memo ++ [SIValue (DGenericDict a)])
    (lo := MARK) (objects := objects ++ [OGenericDict []])
    (rest := op_bytes SETITEMS ++ rest)
    as (memo1 & lo2 & objects1 & dvs & Hs4 & Hm1 & Hp1 & Hr & Hi4);
    [| |done|by unfold top_is_value; rewrite last_snoc|].
  { apply Forall_forall. intros kv Hkv.
    split; (eapply allowed_pending; [done..|]); intros w Hw;
      apply (subvalues_dict q l kv w); auto. }
  { eapply (invariant_memoize_pending _ _ _ _ _ _ q (DGenericDict a)
              (OGenericDict []) Hi); try done.
    apply (ref_for_new objects (OGenericDict [])). }
  apply concat_pairs in Hr as (dkvs & -> & Hr).
  cbn [fmap list_fmap snd] in Hr.
  assert (Ha1 : objects1 !! a = Some (OGenericDict [])).
  { eapply prefix_lookup_Some; [|done].
    by apply (list_lookup_middle objects []). }
  assert (Hkeys : map fst dkvs = map (λ kv, key_value kv.1) l).
  { clear -Hr Hscalar. induction Hr as [|dkv kv dkvs l [Hk _] _ IH];
      [done|].
    inversion Hscalar; subst. simpl. rewrite IH by done. f_equal.
    by eapply represents_key. }
  assert (Hset : setitems
                   (map SIValue (flat_map (λ dkv, [dkv.1; dkv.2]) dkvs)) []
                 = Ok dkvs).
  { rewrite setitems_pairs, fold_dict_insert; [done| |].
    - simpl. rewrite Hkeys. clear -Hscalar.
      induction Hscalar as [|kv l Hkv _ IH]; constructor; [|done].
      by exists kv.1.
    - simpl. by rewrite Hkeys. }
  pose proof (run_SETITEMS rest stack marks memo1 table lo2 objects1 a []
                dkvs _ Ha1 Hset) as Hs5.
  assert (Hrep : represents (decoded_at (Pickler.memo_map_ p4) memo1)
                   (<[a := OGenericDict dkvs]> objects1) P.*2
                   (DGenericDict a) (IVGenericDict q l)).
  { econstructor; [|done| |].
    - eapply decoded_at_container; [|exact Hm1]. by rewrite <- Hid.
    - apply list_lookup_insert_eq. by eapply lookup_lt_Some.
    - eapply Forall2_impl; [exact Hr|]. intros dkv kv [Hk Hv].
      assert (Hm : ∀ a' o, a' ∉ a :: P.*2 → objects1 !! a' = Some o →
                     (a' ∉ P.*2) ∧
                     <[a := OGenericDict dkvs]> objects1 !! a' = Some o).
      { intros a' o Ha' Hlook.
        apply not_elem_of_cons in Ha' as [Hne' Ha'].
        split; [done|]. by rewrite list_lookup_insert_ne. }
      split; eapply represents_mono; done. }
  exists memo1, SETITEMS, (<[a := OGenericDict dkvs]> objects1),
    [DGenericDict a].
  split.
  { eapply steps_trans; [exact Hs1|]. eapply steps_trans; [exact Hs2|].
    eapply steps_trans; [exact Hs3|]. eapply steps_trans; [exact Hs4|].
    exact Hs5. }
  split; [etrans; [|exact Hm1]; by apply prefix_app_r|].
  split.
  { apply prefix_insert_ge; [|done]. etrans; [|exact Hp1].
    by apply prefix_app_r. }
  split; [by exists (DGenericDict a)|].
  eapply (invariant_complete _ _ _ _ _ _ q a (OGenericDict dkvs) Hi4);
    try done.
  - cbn [objects_]. unfold ref_for. rewrite Ha1.
    rewrite list_lookup_insert_eq by (by eapply lookup_lt_Some). done.
  - by apply (allowed_self _ _ Hok).
  - cbn [objects_]. intros w dv Hw Hwq Hdv.
    unfold ref_for in Hdv.
    rewrite list_lookup_insert_eq in Hdv by (by eapply lookup_lt_Some).
    injection Hdv as <-.
    exact (represents_unique _ _ _ _ _ _ _ Hok eq_refl Hrep w Hw Hwq).
Qed.

(** *** Class markers, int lists and tensors *)

Lemma run_pushClass (cls : PicklerClass) (p p' : Pickler.t)
  (P : list (ptr * nat)) :
  Pickler.pushClass cls p = Ok p' →
  Pickler.stack_ p' =
    Pickler.stack_ p ++
    Pickler.pushGlobal_bytes (getModuleName ++ getClassName cls) p ∧
  Pickler.tensor_table_ p' = Pickler.tensor_table_ p ∧
  Pickler.memo_map_ p' = Pickler.memo_map_ p ∧
  ∀ stack marks memo lo objects rest,
    invariant universe P p
      (mk (Pickler.pushGlobal_bytes (getModuleName ++ getClassName cls) p ++
           rest) stack marks memo table lo objects) →
    ∃ memo' lo',
      steps
        (mk (Pickler.pushGlobal_bytes (getModuleName ++ getClassName cls) p
             ++ rest) stack marks memo table lo objects)
        (mk rest (stack ++ [SIClass cls]) marks memo' table lo' objects) ∧
      memo `prefix_of` memo' ∧
      invariant universe P p'
        (mk rest (stack ++ [SIClass cls]) marks memo' table lo' objects).
Proof.
  intros Hp. apply PicklerFacts.pushGlobal_Ok in Hp as [-> Hmax].
  split; [done|]. split; [done|]. split; [done|].
  intros stack marks memo lo objects rest Hi.
  unfold Pickler.pushGlobal_bytes in *.
  destruct (Pickler.memoized_strings_map_ p !!
              (getModuleName ++ getClassName cls)) as [memo_id|] eqn:Hm.
  - destruct (inv_globals _ _ _ _ Hi cls memo_id Hm) as [Hid Hl].
    cbn [memo_table_] in Hl.
    pose proof (inv_memo_id _ _ _ _ Hi) as H1.
    pose proof (inv_memo_id_max _ _ _ _ Hi) as H2.
    cbn [memo_table_] in H1.
    pose proof (lookup_lt_Some _ _ _ Hl) as Hlt.
    destruct (run_GET rest stack marks memo table lo objects memo_id
                (SIClass cls)) as (lo' & Hlo & Hs); [lia|done|].
    exists memo, lo'. split; [done|]. split; [done|].
    by eapply invariant_plain.
  - specialize (Hmax eq_refl). rewrite <- !app_assoc.
    pose proof (run_GLOBAL
                  (pushNextBinPut_bytes (Pickler.memo_id_ p) ++ rest)
                  stack marks memo table lo objects cls) as Hs1.
    rewrite <- app_assoc in Hs1.
    destruct (run_PUT rest (stack ++ [SIClass cls]) marks memo table
                GLOBAL objects (Pickler.memo_id_ p) (SIClass cls))
      as (lo' & Hlo & Hs2).
    { by rewrite last_snoc. }
    exists (memo ++ [SIClass cls]), lo'.
    split; [by eapply steps_trans|]. split; [by apply prefix_app_r|].
    by eapply (invariant_global _ _ _ _ _ _ cls Hi).
Qed.

Lemma translates_intlist (q : ptr) (ns : list Z) (p p' : Pickler.t) :
  Pickler.memo_map_ p !! q = None →
  forallb int64 ns = true →
  Pickler.pushIntList (IVIntList q ns) ns p = Ok p' →
  translates universe table (allowed universe) points_inside one_value
    p p' (IVIntList q ns).
Proof.
  intros Hnone Hns Hp. unfold Pickler.pushIntList in Hp.
  apply bind_Ok in Hp as (p1 & Hp1 & Hp).
  rewrite PicklerFacts.fold_left_pushInt in Hp.
  apply PicklerFacts.pushMemoization_Ok in Hp as (q' & [= <-] & Hmax & ->).
  cbn [Pickler.memo_id_ Pickler.pushOp Pickler.push Pickler.insert_end]
    in Hmax.
  destruct (run_pushClass INTLIST p p1 [] Hp1) as (Ho & _ & Hmap & _).
  exists (Pickler.pushGlobal_bytes (getModuleName ++ getClassName INTLIST) p
          ++ op_bytes MARK ++ op_bytes EMPTY_LIST ++ op_bytes MARK ++
          concat (map pushInt_bytes ns) ++ op_bytes APPENDS ++
          op_bytes TUPLE ++ op_bytes REDUCE ++
          pushNextBinPut_bytes (Pickler.memo_id_ p1)).
  split.
  { cbn [Pickler.stack_ Pickler.pushOp Pickler.push Pickler.insert_end
         Pickler.memo_id_].
    rewrite Ho. by rewrite <- !app_assoc. }
  cbn [Pickler.memo_map_ Pickler.pushOp Pickler.push Pickler.insert_end].
  rewrite Hmap.
  split; [by apply insert_subseteq|]. split.
  { intros k Hk Hk'. destruct (decide (k = q)) as [->|Hne].
    { by apply points_inside_self. }
    rewrite lookup_insert_ne, Hk in Hk' by done. by destruct Hk'. }
  intros P Hok stack marks memo lo objects rest Hi Hne Htop.
  destruct (run_pushClass INTLIST p p1 P Hp1) as (_ & _ & _ & Hclass).
  rewrite <- !app_assoc. rewrite <- !app_assoc in Hi.
  destruct (Hclass stack marks memo lo objects _ Hi)
    as (memo1 & lo1 & Hs1 & Hm1 & Hi1).
  pose proof (inv_memo_id _ _ _ _ Hi1) as Hid. cbn [memo_table_] in Hid.
  pose proof (not_pending _ _ _ Hi) as Hfresh. cbn [objects_] in Hfresh.
  pose proof (inv_pending _ _ _ _ Hi) as Hpending.
  cbn [objects_] in Hpending.
  set (a := length objects) in *.
  set (stack1 := stack ++ [SIClass INTLIST]) in *.
  pose proof (run_MARK
                (op_bytes EMPTY_LIST ++ op_bytes MARK ++
                 concat (map pushInt_bytes ns) ++ op_bytes APPENDS ++
                 op_bytes TUPLE ++ op_bytes REDUCE ++
                 pushNextBinPut_bytes (Pickler.memo_id_ p1) ++ rest)
                stack1 marks memo1 table lo1 objects) as Hs2.
  pose proof (run_EMPTY_LIST_INTLIST
                (op_bytes MARK ++
                 concat (map pushInt_bytes ns) ++ op_bytes APPENDS ++
                 op_bytes TUPLE ++ op_bytes REDUCE ++
                 pushNextBinPut_bytes (Pickler.memo_id_ p1) ++ rest)
                stack (marks ++ [length stack1]) memo1 table MARK objects
                ltac:(done)) as Hs3.
  fold stack1 a in Hs3.
  pose proof (run_MARK
                (concat (map pushInt_bytes ns) ++ op_bytes APPENDS ++
                 op_bytes TUPLE ++ op_bytes REDUCE ++
                 pushNextBinPut_bytes (Pickler.memo_id_ p1) ++ rest)
                (stack1 ++ [SIValue (DIntList a)])
                (marks ++ [length stack1]) memo1 table EMPTY_LIST
                (objects ++ [OIntList []])) as Hs4.
  destruct (run_ints ns
              (op_bytes APPENDS ++
               op_bytes TUPLE ++ op_bytes REDUCE ++
               pushNextBinPut_bytes (Pickler.memo_id_ p1) ++ rest)
              (stack1 ++ [SIValue (DIntList a)])
              ((marks ++ [length stack1]) ++
               [length (stack1 ++ [SIValue (DIntList a)])])
              memo1 table MARK (objects ++ [OIntList []]) Hns ltac:(done))
    as (lo2 & Hlo2 & Hs5).
  pose proof (run_APPENDS_INTLIST
                (op_bytes TUPLE ++ op_bytes REDUCE ++
                 pushNextBinPut_bytes (Pickler.memo_id_ p1) ++ rest)
                stack1 (marks ++ [length stack1]) memo1 table lo2
                (objects ++ [OIntList []]) a [] ns
                (list_lookup_middle objects [] (OIntList []) a eq_refl))
    as Hs6.
  cbn [app] in Hs6.
  replace (<[a := OIntList ns]> (objects ++ [OIntList []]))
    with (objects ++ [OIntList ns]) in Hs6.
  2: { rewrite insert_app_r_alt by done. fold a.
       by rewrite Nat.sub_diag. }
  pose proof (run_TUPLE
                (op_bytes REDUCE ++
                 pushNextBinPut_bytes (Pickler.memo_id_ p1) ++ rest)
                stack1 marks memo1 table APPENDS
                (objects ++ [OIntList ns]) [DIntList a]) as Hs7.
  pose proof (run_REDUCE_INTLIST
                (pushNextBinPut_bytes (Pickler.memo_id_ p1) ++ rest)
                stack marks memo1 table TUPLE
                (objects ++ [OIntList ns]) a ns
                (list_lookup_middle objects [] (OIntList ns) a eq_refl))
    as Hs8.
  fold stack1 in Hs8.
  set (a2 := length (objects ++ [OIntList ns])) in *.
  destruct (run_PUT rest (stack ++ [SIValue (DIntList a2)]) marks memo1
              table REDUCE
              ((objects ++ [OIntList ns]) ++ [OIntList ns])
              (Pickler.memo_id_ p1) (SIValue (DIntList a2)))
    as (lo3 & Hlo3 & Hs9).
  { by rewrite last_snoc. }
  assert (Hrep : represents
                   (decoded_at
                      (<[q := Pickler.memo_id_ p1]> (Pickler.memo_map_ p))
                      (memo1 ++ [SIValue (DIntList a2)]))
                   ((objects ++ [OIntList ns]) ++ [OIntList ns])
                   P.*2 (DIntList a2) (IVIntList q ns)).
  { econstructor; [rewrite Hid; apply decoded_at_insert|
                   |by apply list_lookup_middle].
    intros Hin. apply list_elem_of_fmap in Hin as ([q' a'] & Ha' & Hin).
    simpl in Ha'. subst a'. apply Hpending in Hin.
    unfold a2 in Hin. rewrite length_app in Hin. simpl in Hin. lia. }
  exists (memo1 ++ [SIValue (DIntList a2)]), lo3,
    ((objects ++ [OIntList ns]) ++ [OIntList ns]), [DIntList a2].
  split.
  { eapply steps_trans; [exact Hs1|]. eapply steps_trans; [exact Hs2|].
    eapply steps_trans; [exact Hs3|]. eapply steps_trans; [exact Hs4|].
    eapply steps_trans; [exact Hs5|]. eapply steps_trans; [exact Hs6|].
    eapply steps_trans; [exact Hs7|]. eapply steps_trans; [exact Hs8|].
    exact Hs9. }
  split; [etrans; [exact Hm1|by apply prefix_app_r]|].
  split.
  { rewrite <- app_assoc. by apply prefix_app_r. }
  split; [by exists (DIntList a2)|].
  assert (Hi2 : invariant universe P p1
                  (mk (pushNextBinPut_bytes (Pickler.memo_id_ p1) ++ rest)
                     (stack ++ [SIValue (DIntList a2)]) marks memo1 table
                     REDUCE ((objects ++ [OIntList ns]) ++ [OIntList ns]))).
  { eapply invariant_plain; [exact Hi1|done..| |done].
    cbn [objects_]. rewrite <- app_assoc. by apply prefix_app_r. }
  eapply (invariant_memoize _ _ _ _ _ _ q (DIntList a2) Hi2); try done.
  - by rewrite Hmap.
  - cbn [Pickler.memo_map_]. by rewrite Hmap.
  - by apply (allowed_self _ _ Hok).
  - cbn [Pickler.memo_map_ Pickler.memo_id_ Pickler.pushOp Pickler.push
         Pickler.insert_end memo_table_ objects_].
    intros w Hw Hwq.
    exact (represents_unique _ _ _ _ _ _ _ Hok eq_refl Hrep w Hw Hwq).
Qed.

Lemma translates_tensor (tensor : Tensor) (p p' : Pickler.t) :
  is_Some (Pickler.tensor_table_ p) →
  table_ok p' table →
  Pickler.pushTensor tensor p = Ok p' →
  translates universe table (allowed universe) points_inside one_value
    p p' (IVTensor tensor).
Proof.
  intros [tensors Ht] Htable Hp. unfold Pickler.pushTensor in Hp.
  rewrite Ht in Hp. unfold Pickler.pushTensorReference in Hp.
  apply bind_Ok in Hp as (p1 & Hp1 & Hp).
  rewrite PicklerFacts.pushInt_frame in Hp. injection Hp as <-.
  unfold table_ok in Htable.
  cbn [Pickler.tensor_table_ Pickler.pushOp Pickler.push
       Pickler.insert_end] in Htable.
  destruct Htable as (tensors' & Htab & Hprefix & Hlen).
  set (tensor_id := Z.of_nat (length (tensors ++ [tensor])) - 1) in *.
  assert (Hid : tensor_id = Z.of_nat (length tensors)).
  { unfold tensor_id. rewrite length_app. simpl. lia. }
  assert (Hlook : tensors' !! Z.to_nat tensor_id = Some tensor).
  { eapply prefix_lookup_Some; [|done].
    rewrite Hid, Nat2Z.id. by apply list_lookup_middle. }
  assert (Hint : int64 tensor_id = true).
  { apply lookup_lt_Some in Hlook. unfold int64.
    apply andb_true_iff. split; [apply Z.leb_le|apply Z.ltb_lt]; lia. }
  exists (Pickler.pushGlobal_bytes (getModuleName ++ getClassName TENSOR) p
          ++ op_bytes MARK ++ pushInt_bytes tensor_id ++ op_bytes TUPLE ++
          op_bytes REDUCE).
  split.
  { destruct (run_pushClass TENSOR p p1 [] Hp1) as (Ho & _).
    cbn [Pickler.stack_ Pickler.pushOp Pickler.push Pickler.insert_end].
    rewrite Ho. by rewrite <- !app_assoc. }
  destruct (run_pushClass TENSOR p p1 [] Hp1) as (_ & _ & Hmap & _).
  cbn [Pickler.memo_map_ Pickler.pushOp Pickler.push Pickler.insert_end].
  rewrite Hmap.
  split; [done|]. split.
  { intros k Hk [? Hk']. congruence. }
  intros P Hok stack marks memo lo objects rest Hi Hne Htop.
  destruct (run_pushClass TENSOR p p1 P Hp1) as (_ & _ & _ & Hclass).
  rewrite <- !app_assoc. rewrite <- !app_assoc in Hi.
  destruct (Hclass stack marks memo lo objects _ Hi)
    as (memo1 & lo1 & Hs1 & Hm1 & Hi1).
  set (stack1 := stack ++ [SIClass TENSOR]) in *.
  pose proof (run_MARK
                (pushInt_bytes tensor_id ++ op_bytes TUPLE ++
                 op_bytes REDUCE ++ rest)
                stack1 marks memo1 table lo1 objects) as Hs2.
  destruct (run_pushInt (op_bytes TUPLE ++ op_bytes REDUCE ++ rest)
              stack1 (marks ++ [length stack1]) memo1 table MARK
              objects tensor_id Hint) as (lo2 & Hlo2 & Hs3).
  pose proof (run_TUPLE (op_bytes REDUCE ++ rest) stack1 marks memo1
                table lo2 objects [DInt tensor_id]) as Hs4.
  pose proof (run_REDUCE_TENSOR rest stack marks memo1 table
                TUPLE objects tensors' tensor_id tensor Htab
                ltac:(lia) Hlook) as Hs5.
  exists memo1, REDUCE, objects, [DTensor tensor].
  split.
  { eapply steps_trans; [exact Hs1|]. eapply steps_trans; [exact Hs2|].
    eapply steps_trans; [exact Hs3|]. eapply steps_trans; [exact Hs4|].
    exact Hs5. }
  split; [done|]. split; [done|].
  split; [exists (DTensor tensor); split; [done|constructor]|].
  by eapply invariant_plain; [exact Hi1|..].
Qed.

(** *** Every value *)

Lemma table_ok_ext (p p' : Pickler.t) :
  Pickler.tensor_table_ p = Pickler.tensor_table_ p' →
  table_ok p' table → table_ok p table.
Proof. unfold table_ok. by intros ->. Qed.

Lemma addIValue_translates (v : IValue) :
  supported reference_mode v = true →
  ∀ p p', Pickler.addIValue v p = Ok p' →
    (reference_mode = true → is_Some (Pickler.tensor_table_ p)) →
    table_ok p' table →
    translates universe table (allowed universe) points_inside one_value
      p p' v.
Proof.
  induction v as [|b|n|bits|q s|q l IH|q l IH|q l IH|q ns|tensor|k]
    using IValue_nested_ind; intros Hsup p p' Hadd Hmode Htable;
    try discriminate Hsup;
    rewrite MemoFacts.addIValue_eq in Hadd;
    (destruct (Pickler.getPointer _ ≫= _) as [memo_id|] eqn:Hmemo;
     [injection Hadd as <-;
      match type of Hmemo with
      | Pickler.getPointer ?v ≫= _ = _ =>
          destruct (Pickler.getPointer v) as [q'|] eqn:Hq';
          [by eapply translates_GET|done]
      end|]).
  - injection Hadd as <-. apply translates_bool.
  - injection Hadd as <-. by apply translates_int.
  - injection Hadd as <-. apply translates_double.
    simpl in Hsup. apply andb_true_iff in Hsup as [H1 H2].
    apply Z.leb_le in H1. apply Z.ltb_lt in H2. lia.
  - simpl in Hsup. apply Z.ltb_lt in Hsup. by apply translates_string.
  - cbn zeta in Hadd. apply bind_Ok in Hadd as (p2 & Hf & Hm).
    eapply translates_tuple; [exact Hmemo| |exact Hm].
    eapply (forEach_translates universe table reference_mode);
      [apply FrameFacts.grows_addIValue| |
       |exact Hf|exact Hmode|].
    + intros x X memo_map memo_map' memo memo' objects objects' dvs.
      apply one_value_mono.
    + cbn [supported] in Hsup. rewrite forallb_forall in Hsup.
      rewrite Forall_forall in IH |- *. intros x Hx.
      apply IH; [done|]. by apply Hsup, list_elem_of_In.
    + apply PicklerFacts.pushMemoization_Ok in Hm as (? & _ & _ & ->).
      by eapply table_ok_ext; [|exact Htable].
  - cbn zeta in Hadd. apply bind_Ok in Hadd as (p2 & Hm & Hadd).
    apply bind_Ok in Hadd as (p4 & Hf & Hadd). injection Hadd as <-.
    eapply translates_list; [exact Hmemo|exact Hm|].
    eapply (forEach_translates universe table reference_mode);
      [apply FrameFacts.grows_addIValue| |
       |exact Hf| |].
    + intros x X memo_map memo_map' memo memo' objects objects' dvs.
      apply one_value_mono.
    + cbn [supported] in Hsup. rewrite forallb_forall in Hsup.
      rewrite Forall_forall in IH |- *. intros x Hx.
      apply IH; [done|]. by apply Hsup, list_elem_of_In.
    + apply PicklerFacts.pushMemoization_Ok in Hm as (? & _ & _ & ->).
      exact Hmode.
    + by eapply table_ok_ext; [|exact Htable].
  - cbn zeta in Hadd. apply bind_Ok in Hadd as (p2 & Hm & Hadd).
    apply bind_Ok in Hadd as (p4 & Hf & Hadd). injection Hadd as <-.
    cbn [supported] in Hsup. apply andb_true_iff in Hsup as [Hsup Hd].
    rewrite forallb_forall in Hsup.
    eapply translates_dict; [exact Hmemo| |exact Hd|exact Hm|].
    { apply Forall_forall. intros kv Hkv.
      apply list_elem_of_In, Hsup in Hkv.
      by apply andb_true_iff in Hkv as [Hkv _];
        apply andb_true_iff in Hkv as [Hkv _]. }
    eapply (forEach_translates universe table reference_mode
              (λ pair p, p1 ← Pickler.addIValue pair.1 p;
                         Pickler.addIValue pair.2 p1));
      [| | |exact Hf| |].
    + intros kv r r' Hr. apply bind_Ok in Hr as (r1 & Hr1 & Hr2).
      eapply FrameFacts.grows_trans;
        by eapply FrameFacts.grows_addIValue.
    + intros kv X memo_map memo_map' memo memo' objects objects' dvs
        Hmm Hpm Hpo (d1 & d2 & -> & H1 & H2).
      exists d1, d2. split; [done|].
      split; by eapply one_value_mono.
    + rewrite Forall_forall in IH |- *. intros kv Hkv.
      destruct (IH kv Hkv) as [IH1 IH2].
      apply list_elem_of_In, Hsup in Hkv.
      apply andb_true_iff in Hkv as [Hkv Hv].
      apply andb_true_iff in Hkv as [_ Hk].
      apply translates_pair; auto.
    + apply PicklerFacts.pushMemoization_Ok in Hm as (? & _ & _ & ->).
      exact Hmode.
    + by eapply table_ok_ext; [|exact Htable].
  - by apply translates_intlist.
  - apply translates_tensor; auto.
Qed.

End cases.


(** *** A whole session *)

Lemma steps_run_loop (u u1 u2 : t) :
  steps u u1 → readInstruction u1 = Ok (STOP, u2) →
  run_loop (length (bytes_ u)) u = Ok u2.
Proof.
  induction 1 as [u|u op u1' u1 Hr Hne _ IH]; intros Hstop.
  - pose proof (readInstruction_consumes _ _ _ Hstop) as Hlt.
    destruct (bytes_ u) as [|b bs] eqn:Hb; [simpl in Hlt; lia|].
    cbn [length run_loop]. rewrite Hb, Hstop. cbn [mbind result_bind].
    by rewrite decide_True.
  - pose proof (readInstruction_consumes _ _ _ Hr) as Hlt.
    destruct (bytes_ u) as [|b bs] eqn:Hb; [simpl in Hlt; lia|].
    cbn [length run_loop]. rewrite Hb, Hr. cbn [mbind result_bind].
    rewrite decide_False by done. rewrite <- (IH Hstop).
    apply DecoderProperties.run_loop_fuel; [|done].
    simpl in *. lia.
Qed.

Lemma allowed_top (ivalues : list IValue) :
  Forall (allowed (flat_map subvalues ivalues) []) ivalues.
Proof.
  apply Forall_forall. intros v Hv w Hw. split.
  - apply elem_of_flat_map. by exists v.
  - intros q _. apply not_elem_of_nil.
Qed.

Lemma invariant_start (universe : list IValue) (p : Pickler.t) (u : t) :
  Pickler.memo_id_ p = 0 → Pickler.memo_map_ p = ∅ →
  Pickler.memoized_strings_map_ p = ∅ →
  memo_table_ u = [] → last_opcode_ u ≠ NEWOBJ →
  invariant universe [] p u.
Proof.
  intros E1 E2 E3 E4 Hlo. split; rewrite ?E1, ?E2, ?E3, ?E4; try done.
  intros q a Hqa. by apply elem_of_nil in Hqa.
Qed.

Lemma finish_trailer (p p' : Pickler.t) :
  Pickler.finish p = Ok p' →
  ∃ trailer, p' = Pickler.insert_end (op_bytes STOP ++ trailer) p.
Proof.
  rewrite PicklerClaims.finish_Ok. intros [= <-]. by eexists.
Qed.

Lemma run_PROTO (rest : list Z) (table : option (list Tensor))
  (last_opcode : OpCode) :
  run (create ([OpCode_byte PROTO; PROTOCOL_VERSION] ++ rest) table
         last_opcode) =
  run_loop (length rest) (mk rest [] [] [] table last_opcode []).
Proof.
  unfold run, create.
  erewrite (UnpicklerClaims.readOpCode_cons _ PROTO) by reflexivity.
  cbn [mbind result_bind]. rewrite decide_True by done.
  erewrite (read_app 1 _ [PROTOCOL_VERSION]) by reflexivity.
  cbn [mbind result_bind]. rewrite le_uint_singleton.
  by rewrite decide_True.
Qed.

(** What a session writes up to its STOP, read by the decoder. *)
Lemma session_run (tensor_table : option (list Tensor))
  (ivalues : list IValue) (p : Pickler.t) (last_opcode : OpCode) :
  consistent (flat_map subvalues ivalues) →
  forallb (supported (if tensor_table is Some _ then true else false))
    ivalues = true →
  (∀ table, Pickler.tensor_table_ p = Some table →
     Z.of_nat (length table) < 2 ^ 63) →
  Pickler.session tensor_table ivalues = Ok p →
  ∃ dvs memo lo objects trailer,
    run (create (Pickler.stack p) (Pickler.tensor_table_ p) last_opcode) =
      Ok (mk trailer [SIValue (DTuple dvs)] [] memo
            (Pickler.tensor_table_ p) lo objects) ∧
    Forall2 (represents (decoded_at (Pickler.memo_map_ p) memo) objects [])
      dvs ivalues ∧
    Pickler.memo_id_ p = Z.of_nat (length memo).
Proof.
  intros Hcons Hsup Hlen Hs.
  apply EncoderProperties.session_Ok in Hs as (p1 & Hf & Hfin).
  apply finish_trailer in Hfin as [trailer ->].
  cbn [Pickler.tensor_table_ Pickler.endTuple Pickler.pushOp Pickler.push
       Pickler.insert_end] in Hlen.
  set (table := Pickler.tensor_table_ p1).
  set (rm := if tensor_table is Some _ then true else false) in *.
  pose proof (FrameFacts.grows_forEach _ _
                ltac:(apply Forall_forall; intros v _;
                      apply FrameFacts.grows_addIValue) _ _ Hf) as Hg.
  destruct (forEach_translates (flat_map subvalues ivalues) table rm
              Pickler.addIValue (allowed (flat_map subvalues ivalues))
              points_inside one_value ivalues) with
    (p := Pickler.startTuple (Pickler.start (Pickler.create tensor_table)))
    (p' := p1) as (out & Ho & _ & _ & Hsim).
  - apply FrameFacts.grows_addIValue.
  - intros x X memo_map memo_map' memo memo' objects objects' dvs.
    apply one_value_mono.
  - rewrite forallb_forall in Hsup. apply Forall_forall. intros v Hv.
    intros r r' Hr Hmode Htable.
    eapply addIValue_translates; [done| |done..].
    by apply Hsup, list_elem_of_In.
  - done.
  - intros Hrm. simpl. unfold rm in Hrm. by destruct tensor_table.
  - unfold table_ok, table. destruct (Pickler.tensor_table_ p1) as [t|] eqn:Ht;
      [|done].
    exists t. split; [done|]. split; [done|]. by apply Hlen.
  - cbn [Pickler.stack_ Pickler.startTuple Pickler.start Pickler.pushOp
         Pickler.push Pickler.insert_end Pickler.create] in Ho.
    destruct (Hsim [] (allowed_top ivalues)) with
      (stack := @nil StackItem) (marks := [0%nat]) (memo := @nil StackItem)
      (lo := MARK) (objects := @nil Object)
      (rest := op_bytes TUPLE ++ op_bytes STOP ++ trailer)
      as (memo & lo & objects & dvs & Hs & _ & _ & Hr & Hi); [|done|done|].
    { by apply invariant_start. }
    apply concat_one_value in Hr.
    pose proof (run_TUPLE (op_bytes STOP ++ trailer) [] [] memo table lo
                  objects dvs) as Hs2.
    exists dvs, memo, TUPLE, objects, trailer.
    assert (Hstack :
      Pickler.stack
        (Pickler.insert_end (op_bytes STOP ++ trailer) (Pickler.endTuple p1))
      = [OpCode_byte PROTO; PROTOCOL_VERSION] ++ op_bytes MARK ++ out ++
        op_bytes TUPLE ++ op_bytes STOP ++ trailer).
    { unfold Pickler.stack.
      cbn [Pickler.stack_ Pickler.endTuple Pickler.pushOp Pickler.push
           Pickler.insert_end].
      rewrite Ho. by rewrite <- !app_assoc. }
    rewrite Hstack. split; [|split; [done|exact (inv_memo_id _ _ _ _ Hi)]].
    rewrite run_PROTO.
    cbn [Pickler.tensor_table_ Pickler.endTuple Pickler.pushOp Pickler.push
         Pickler.insert_end]. fold table.
    apply (steps_run_loop
             (mk (op_bytes MARK ++ out ++ op_bytes TUPLE ++ op_bytes STOP ++
                  trailer) [] [] [] table last_opcode [])
             (mk (op_bytes STOP ++ trailer) [SIValue (DTuple dvs)] [] memo
                table TUPLE objects)).
    + eapply steps_trans; [|eapply steps_trans; [exact Hs|exact Hs2]].
      apply (run_MARK (out ++ op_bytes TUPLE ++ op_bytes STOP ++ trailer)
               [] [] [] table last_opcode []).
    + unfold readInstruction.
      erewrite (UnpicklerClaims.readOpCode_cons _ STOP) by reflexivity.
      reflexivity.
Qed.


End Simulation.

(** ** Round trips *)

Module RoundTripProperties.
Import Unpickler RoundTrip.
Import PicklerFacts(bind_Ok).

Lemma parse_of_run (u : t) (dvs : list DValue) (trailer : list Z)
  (memo : list StackItem) (table : option (list Tensor)) (lo : OpCode)
  (objects : list Object) :
  run u = Ok (mk trailer [SIValue (DTuple dvs)] [] memo table lo objects) →
  parse_ivalue_list u =
    Ok (dvs, mk trailer [SIValue (DTuple dvs)] [] memo table lo objects).
Proof. intros H. unfold parse_ivalue_list. by rewrite H. Qed.

(** A session over values without None, with 64-bit integers, strings
    shorter than [2^32], dicts with distinct scalar or string keys, and
    tensors only in reference mode, is read back by [parse_ivalue_list] as
    values of the same structure and content: the decoder, given the bytes
    and the side table the session returns, returns one decoded value for
    each encoded value, and every string, tuple, list, dict and int list
    inside them is the entry of the decoder's memo table at the id that the
    encoder bound to its pointer. *)
Theorem session_is_read_back (tensor_table : option (list Tensor))
  (ivalues : list IValue) (p : Pickler.t) (last_opcode : OpCode) :
  consistent (flat_map subvalues ivalues) →
  forallb (supported (if tensor_table is Some _ then true else false))
    ivalues = true →
  (∀ table, Pickler.tensor_table_ p = Some table →
     Z.of_nat (length table) < 2 ^ 63) →
  Pickler.session tensor_table ivalues = Ok p →
  ∃ dvs u,
    parse_ivalue_list
      (create (Pickler.stack p) (Pickler.tensor_table_ p) last_opcode)
    = Ok (dvs, u) ∧
    Forall2
      (represents (decoded_at (Pickler.memo_map_ p) (memo_table_ u))
         (objects_ u) [])
      dvs ivalues.
Proof.
  intros Hcons Hsup Hlen Hs.
  destruct (Simulation.session_run tensor_table ivalues p last_opcode
              Hcons Hsup Hlen Hs)
    as (dvs & memo & lo & objects & trailer & Hrun & Hr & _).
  exists dvs. eexists. split; [by apply parse_of_run|]. done.
Qed.

Lemma session_is_read_back_witness :
  let ivalues :=
    [IVGenericList (inl 1)
       [IVInt 5; IVString (inl 2) (chars "ab"); IVString (inl 2) (chars "ab");
        IVTensor Samples.tensor1;
        IVGenericDict (inl 3) [(IVInt 1, IVIntList (inl 4) [7; 8])]]] in
  let p := Samples.state_of (Pickler.session (Some []) ivalues) in
  ∃ dvs u,
    parse_ivalue_list (create (Pickler.stack p) (Pickler.tensor_table_ p) MARK)
    = Ok (dvs, u) ∧
    Forall2
      (represents (decoded_at (Pickler.memo_map_ p) (memo_table_ u))
         (objects_ u) [])
      dvs ivalues.
Proof.
  intros ivalues p.
  apply (session_is_read_back (Some []) ivalues p MARK).
  - intros w1 w2 q H1 H2 Hq1 Hq2. vm_compute in H1, H2.
    repeat (apply elem_of_cons in H1 as [->|H1]);
      try (by apply elem_of_nil in H1);
      repeat (apply elem_of_cons in H2 as [->|H2]);
      try (by apply elem_of_nil in H2);
      try done; simpl in Hq1, Hq2; congruence.
  - vm_compute. reflexivity.
  - intros table H. vm_compute in H. injection H as <-. simpl. lia.
  - vm_compute. reflexivity.
Defined.

(** After such a session is read back, the decoder's memo table has as many
    entries as the encoder has bound memo ids: every PUT of the stream added
    one entry, at the index that is its id. *)
Theorem memo_tables_agree (tensor_table : option (list Tensor))
  (ivalues : list IValue) (p : Pickler.t) (last_opcode : OpCode) :
  consistent (flat_map subvalues ivalues) →
  forallb (supported (if tensor_table is Some _ then true else false))
    ivalues = true →
  (∀ table, Pickler.tensor_table_ p = Some table →
     Z.of_nat (length table) < 2 ^ 63) →
  Pickler.session tensor_table ivalues = Ok p →
  ∃ u,
    run (create (Pickler.stack p) (Pickler.tensor_table_ p) last_opcode)
    = Ok u ∧
    Z.of_nat (length (memo_table_ u)) = Pickler.memo_id_ p.
Proof.
  intros Hcons Hsup Hlen Hs.
  destruct (Simulation.session_run tensor_table ivalues p last_opcode
              Hcons Hsup Hlen Hs)
    as (dvs & memo & lo & objects & trailer & Hrun & _ & Hm).
  eexists. split; [exact Hrun|]. by rewrite Hm.
Qed.

Lemma memo_tables_agree_witness :
  let ivalues :=
    [IVString (inl 1) (chars "a"); IVIntList (inl 2) [1];
     IVString (inl 1) (chars "a")] in
  let p := Samples.state_of (Pickler.session None ivalues) in
  ∃ u,
    run (create (Pickler.stack p) (Pickler.tensor_table_ p) MARK) = Ok u ∧
    Z.of_nat (length (memo_table_ u)) = 3.
Proof.
  intros ivalues p.
  apply (memo_tables_agree None ivalues p MARK).
  - intros w1 w2 q H1 H2 Hq1 Hq2. vm_compute in H1, H2.
    repeat (apply elem_of_cons in H1 as [->|H1]);
      try (by apply elem_of_nil in H1);
      repeat (apply elem_of_cons in H2 as [->|H2]);
      try (by apply elem_of_nil in H2);
      try done; simpl in Hq1, Hq2; congruence.
  - vm_compute. reflexivity.
  - intros table H. vm_compute in H. discriminate.
  - vm_compute. reflexivity.
Defined.

Lemma represents_occurs (bound : ptr → option DValue)
  (objects : list Object) (X : list nat) (dv dw : DValue) (v w : IValue) :
  occurs objects dv v dw w →
  represents bound objects X dv v → represents bound objects X dw w.
Proof.
  induction 1 as [dv v|p dvs vs i dv v dw w Hd Hv _ IH
                  |a p dvs vs i dv v dw w Ha Hd Hv _ IH
                  |a p dkvs kvs i dkv kv dw w Ha Hd Hv _ IH
                  |a p dkvs kvs i dkv kv dw w Ha Hd Hv _ IH]; intros Hr;
    [done|apply IH..]; inversion Hr; subst; simplify_eq.
  - by eapply Forall2_lookup_lr.
  - by eapply Forall2_lookup_lr.
  - match goal with
    | H : Forall2 _ dkvs kvs |- _ =>
        by destruct (Forall2_lookup_lr _ _ _ _ _ _ H Hd Hv)
    end.
  - match goal with
    | H : Forall2 _ dkvs kvs |- _ =>
        by destruct (Forall2_lookup_lr _ _ _ _ _ _ H Hd Hv)
    end.
Qed.

(** Sharing is read back: when one value (one pointer) is at two places of
    the values of such a session, the decoder returns the same decoded
    value at both places; for a list, a dict or an int list that is one
    address of the object store, so the two places are aliases of one
    container after decoding as they were before encoding. *)
Theorem shared_values_are_read_back_shared
  (tensor_table : option (list Tensor)) (ivalues : list IValue)
  (p : Pickler.t) (last_opcode : OpCode) :
  consistent (flat_map subvalues ivalues) →
  forallb (supported (if tensor_table is Some _ then true else false))
    ivalues = true →
  (∀ table, Pickler.tensor_table_ p = Some table →
     Z.of_nat (length table) < 2 ^ 63) →
  Pickler.session tensor_table ivalues = Ok p →
  ∃ dvs u,
    parse_ivalue_list
      (create (Pickler.stack p) (Pickler.tensor_table_ p) last_opcode)
    = Ok (dvs, u) ∧
    length dvs = length ivalues ∧
    ∀ i j dv1 dv2 v1 v2 dw1 dw2 w1 w2 q,
      dvs !! i = Some dv1 → ivalues !! i = Some v1 →
      dvs !! j = Some dv2 → ivalues !! j = Some v2 →
      occurs (objects_ u) dv1 v1 dw1 w1 →
      occurs (objects_ u) dv2 v2 dw2 w2 →
      Pickler.getPointer w1 = Some q → Pickler.getPointer w2 = Some q →
      dw1 = dw2.
Proof.
  intros Hcons Hsup Hlen Hs.
  destruct (Simulation.session_run tensor_table ivalues p last_opcode
              Hcons Hsup Hlen Hs)
    as (dvs & memo & lo & objects & trailer & Hrun & Hr & _).
  exists dvs. eexists. split; [by apply parse_of_run|].
  split; [by eapply Forall2_length|].
  cbn [objects_].
  intros i j dv1 dv2 v1 v2 dw1 dw2 w1 w2 q Hd1 Hv1 Hd2 Hv2 Ho1 Ho2 Hq1 Hq2.
  pose proof (Forall2_lookup_lr _ _ _ _ _ _ Hr Hd1 Hv1) as Hr1.
  pose proof (Forall2_lookup_lr _ _ _ _ _ _ Hr Hd2 Hv2) as Hr2.
  apply (represents_occurs _ _ _ _ _ _ _ Ho1) in Hr1.
  apply (represents_occurs _ _ _ _ _ _ _ Ho2) in Hr2.
  pose proof (Simulation.represents_bound _ _ _ _ _ _ Hr1 Hq1) as Hb1.
  pose proof (Simulation.represents_bound _ _ _ _ _ _ Hr2 Hq2) as Hb2.
  congruence.
Qed.

Lemma shared_values_are_read_back_shared_witness :
  let shared := IVGenericList (inl 2) [IVInt 5] in
  let ivalues := [IVTuple (inl 1) [shared; shared]; shared] in
  let p := Samples.state_of (Pickler.session None ivalues) in
  ∃ dvs u,
    parse_ivalue_list (create (Pickler.stack p) (Pickler.tensor_table_ p) MARK)
    = Ok (dvs, u) ∧
    length dvs = length ivalues ∧
    ∀ i j dv1 dv2 v1 v2 dw1 dw2 w1 w2 q,
      dvs !! i = Some dv1 → ivalues !! i = Some v1 →
      dvs !! j = Some dv2 → ivalues !! j = Some v2 →
      occurs (objects_ u) dv1 v1 dw1 w1 →
      occurs (objects_ u) dv2 v2 dw2 w2 →
      Pickler.getPointer w1 = Some q → Pickler.getPointer w2 = Some q →
      dw1 = dw2.
Proof.
  intros shared ivalues p.
  apply (shared_values_are_read_back_shared None ivalues p MARK).
  - intros w1 w2 q H1 H2 Hq1 Hq2. vm_compute in H1, H2.
    repeat (apply elem_of_cons in H1 as [->|H1]);
      try (by apply elem_of_nil in H1);
      repeat (apply elem_of_cons in H2 as [->|H2]);
      try (by apply elem_of_nil in H2);
      try done; simpl in Hq1, Hq2; congruence.
  - vm_compute. reflexivity.
  - intros table H. vm_compute in H. discriminate.
  - vm_compute. reflexivity.
Defined.

(** A dict is read back with its entries in the order in which the encoder
    was given them: the keys of the decoded dict, in its iteration order,
    are the decoded forms of the keys of the encoded dict, in the same
    order. *)
Theorem dict_is_read_back_in_order (tensor_table : option (list Tensor))
  (q : ptr) (items : list (IValue * IValue)) (p : Pickler.t)
  (last_opcode : OpCode) :
  consistent (subvalues (IVGenericDict q items)) →
  supported (if tensor_table is Some _ then true else false)
    (IVGenericDict q items) = true →
  (∀ table, Pickler.tensor_table_ p = Some table →
     Z.of_nat (length table) < 2 ^ 63) →
  Pickler.session tensor_table [IVGenericDict q items] = Ok p →
  ∃ u a elements,
    parse_ivalue_list
      (create (Pickler.stack p) (Pickler.tensor_table_ p) last_opcode)
    = Ok ([DGenericDict a], u) ∧
    objects_ u !! a = Some (OGenericDict elements) ∧
    map fst elements = map (λ kv, key_value kv.1) items.
Proof.
  intros Hcons Hsup Hlen Hs.
  destruct (Simulation.session_run tensor_table [IVGenericDict q items] p
              last_opcode)
    as (dvs & memo & lo & objects & trailer & Hrun & Hr & _); [| |done|done|].
  { intros w1 w2 r H1 H2. cbn [flat_map] in H1, H2.
    rewrite app_nil_r in H1, H2. by apply Hcons. }
  { cbn [forallb]. by rewrite Hsup. }
  inversion Hr as [|dv v dvs' l' Hdv Hnil]; subst.
  inversion Hnil; subst. inversion Hdv as [| | | | | |a ? dkvs ? Hb Ha Hl Hf|
                                          |]; subst.
  eexists. exists a, dkvs. split; [by apply parse_of_run|].
  split; [done|].
  cbn [supported] in Hsup. apply andb_true_iff in Hsup as [Hsup _].
  rewrite forallb_forall in Hsup. clear -Hf Hsup.
  induction Hf as [|dkv kv dkvs items [Hk _] _ IH]; [done|].
  simpl. rewrite IH.
  - f_equal. eapply Simulation.represents_key; [|done].
    specialize (Hsup kv ltac:(by left)).
    apply andb_true_iff in Hsup as [Hsup _].
    by apply andb_true_iff in Hsup as [Hsup _].
  - intros kv' Hkv'. apply Hsup. by right.
Qed.

Lemma dict_is_read_back_in_order_witness :
  let items := [(IVInt 3, IVBool true); (IVInt 1, IVBool false);
                (IVString (inl 2) (chars "k"), IVInt 0)] in
  let p := Samples.state_of
             (Pickler.session None [IVGenericDict (inl 1) items]) in
  ∃ u a elements,
    parse_ivalue_list (create (Pickler.stack p) (Pickler.tensor_table_ p) MARK)
    = Ok ([DGenericDict a], u) ∧
    objects_ u !! a = Some (OGenericDict elements) ∧
    map fst elements = [DInt 3; DInt 1; DString (chars "k")].
Proof.
  intros items p.
  apply (dict_is_read_back_in_order None (inl 1) items p MARK).
  - intros w1 w2 q H1 H2 Hq1 Hq2. vm_compute in H1, H2.
    repeat (apply elem_of_cons in H1 as [->|H1]);
      try (by apply elem_of_nil in H1);
      repeat (apply elem_of_cons in H2 as [->|H2]);
      try (by apply elem_of_nil in H2);
      try done; simpl in Hq1, Hq2; congruence.
  - vm_compute. reflexivity.
  - intros table H. vm_compute in H. discriminate.
  - vm_compute. reflexivity.
Defined.

Lemma parse_MARK_NONE (rest : list Z) (table : option (list Tensor))
  (last_opcode : OpCode) :
  parse_ivalue_list
    (create ([OpCode_byte PROTO; PROTOCOL_VERSION] ++
             OpCode_byte MARK :: OpCode_byte NONE :: rest) table last_opcode)
  = Err (Exception "Unknown opcode for unpickling").
Proof.
  unfold parse_ivalue_list. rewrite Simulation.run_PROTO.
  assert (H1 : readInstruction
                 (mk (OpCode_byte MARK :: OpCode_byte NONE :: rest) [] [] []
                    table last_opcode [])
               = Ok (MARK, mk (OpCode_byte NONE :: rest) [] [0%nat] [] table
                             last_opcode [])).
  { unfold readInstruction.
    erewrite (UnpicklerClaims.readOpCode_cons _ MARK) by reflexivity.
    reflexivity. }
  assert (H2 : readInstruction
                 (set_last_opcode MARK
                    (mk (OpCode_byte NONE :: rest) [] [0%nat] [] table
                       last_opcode []))
               = Err (Exception "Unknown opcode for unpickling")).
  { unfold readInstruction.
    erewrite (UnpicklerClaims.readOpCode_cons _ NONE) by reflexivity.
    reflexivity. }
  cbn [length run_loop bytes_]. rewrite H1. cbn [mbind result_bind].
  rewrite decide_False by done.
  cbn [run_loop set_last_opcode bytes_ stack_ marks_ memo_table_
       tensor_table_ last_opcode_ objects_].
  by rewrite H2.
Qed.

(** The decoder has no case for the opcode NONE that the encoder writes for
    None: a session whose first value is None is not read back. *)
Theorem None_is_not_read_back (tensor_table : option (list Tensor))
  (ivalues : list IValue) (p : Pickler.t) (last_opcode : OpCode) :
  Pickler.session tensor_table (IVNone :: ivalues) = Ok p →
  parse_ivalue_list
    (create (Pickler.stack p) (Pickler.tensor_table_ p) last_opcode)
  = Err (Exception "Unknown opcode for unpickling").
Proof.
  intros Hs.
  apply EncoderProperties.session_Ok in Hs as (p1 & Hf & Hfin).
  apply Simulation.finish_trailer in Hfin as [trailer ->].
  cbn [Pickler.forEach] in Hf. apply bind_Ok in Hf as (p0 & Hnone & Hf).
  rewrite MemoFacts.addIValue_eq in Hnone. cbn in Hnone.
  injection Hnone as <-.
  pose proof (FrameFacts.grows_forEach _ _
                ltac:(apply Forall_forall; intros v _;
                      apply FrameFacts.grows_addIValue) _ _ Hf)
    as ([more Hmore] & _).
  assert (Hstack :
    Pickler.stack
      (Pickler.insert_end (Pickler.op_bytes STOP ++ trailer)
         (Pickler.endTuple p1))
    = [OpCode_byte PROTO; PROTOCOL_VERSION] ++
      OpCode_byte MARK :: OpCode_byte NONE ::
      more ++ Pickler.op_bytes TUPLE ++ Pickler.op_bytes STOP ++ trailer).
  { unfold Pickler.stack.
    cbn [Pickler.stack_ Pickler.endTuple Pickler.pushOp Pickler.push
         Pickler.insert_end].
    rewrite Hmore.
    cbn [Pickler.stack_ Pickler.startTuple Pickler.start Pickler.pushOp
         Pickler.push Pickler.insert_end Pickler.create].
    by rewrite <- !app_assoc. }
  rewrite Hstack. apply parse_MARK_NONE.
Qed.

Lemma None_is_not_read_back_witness :
  parse_ivalue_list
    (create
       (Pickler.stack
          (Samples.state_of (Pickler.session None [IVNone; IVInt 1])))
       None MARK)
  = Err (Exception "Unknown opcode for unpickling").
Proof.
  apply (None_is_not_read_back None [IVInt 1]
           (Samples.state_of (Pickler.session None [IVNone; IVInt 1])) MARK).
  vm_compute. reflexivity.
Defined.

Lemma pushLiteralTensor_starts_with_GLOBAL (tensor : Tensor)
  (p p' : Pickler.t) :
  Pickler.tensor_table_ p = None →
  Pickler.memoized_strings_map_ p = ∅ →
  Pickler.pushLiteralTensor tensor p = Ok p' →
  ∃ more,
    Pickler.stack_ p' =
      Pickler.stack_ p ++ Pickler.op_bytes GLOBAL ++
      (chars "torch._utils" ++ [newline] ++
       chars "_rebuild_tensor_v2" ++ [newline]) ++ more.
Proof.
  unfold Pickler.pushLiteralTensor. intros Ht Hm H.
  apply bind_Ok in H as (q & Hq & H).
  pose proof (PicklerFacts.pushGlobal_Ok _ _ _ Hq) as [Hq' _].
  assert (Hstack : ∃ more,
            Pickler.stack_ q =
              Pickler.stack_ p ++ Pickler.op_bytes GLOBAL ++
              (chars "torch._utils" ++ [newline] ++
               chars "_rebuild_tensor_v2" ++ [newline]) ++ more).
  { rewrite Hq'. unfold Pickler.pushGlobal_bytes. rewrite Hm, lookup_empty.
    cbn [Pickler.stack_]. eexists. by rewrite <- !app_assoc. }
  assert (Hg : Frame.grows q p'); [|clear -Hg Hstack].
  { assert (Htq : Pickler.tensor_table_ q = None) by (by rewrite Hq').
    clear Hq Hq' Hstack Hm Ht.
    apply bind_Ok in H as (q0 & Hq0 & H).
    apply FrameFacts.grows_pushMemoizedString_temporary in Hq0.
    apply bind_Ok in H as (q1 & Hq1 & H).
    apply FrameFacts.grows_pushGlobal in Hq1.
    apply bind_Ok in H as (q2 & Hq2 & H).
    apply FrameFacts.grows_pushMemoizedString_temporary in Hq2.
    apply bind_Ok in H as (q3 & Hq3 & H).
    apply FrameFacts.grows_pushMemoizedString_temporary in Hq3.
    apply bind_Ok in H as (q4 & Hq4 & H).
    apply FrameFacts.grows_pushGlobal in Hq4.
    injection H as <-.
    assert (Hp : Frame.grows q q4).
    { eapply FrameFacts.grows_trans;
        [|eapply FrameFacts.grows_trans; [exact Hq0|]];
        [FrameFacts.grows_plain|].
      eapply FrameFacts.grows_trans; [exact Hq1|].
      eapply FrameFacts.grows_trans; [exact Hq2|].
      eapply FrameFacts.grows_trans; [exact Hq3|].
      eapply FrameFacts.grows_trans; [|exact Hq4].
      FrameFacts.grows_plain. }
    eapply FrameFacts.grows_trans; [exact Hp|].
    assert (Hn : Pickler.tensor_table_ q4 = None).
    { destruct Hp as (_ & _ & _ & _ & Hp). rewrite Htq in Hp.
      by destruct (Pickler.tensor_table_ q4). }
    unfold Frame.grows. simpl. rewrite Hn. repeat split; try done.
    - rewrite <- !app_assoc. by apply prefix_app_r.
    - by apply prefix_app_r. }
  destruct Hstack as [more Hmore]. destruct Hg as ([more' Hmore'] & _).
  exists (more ++ more'). rewrite Hmore', Hmore. by rewrite <- !app_assoc.
Qed.

Lemma parse_MARK_GLOBAL_rebuild (rest : list Z) (table : option (list Tensor))
  (last_opcode : OpCode) :
  parse_ivalue_list
    (create ([OpCode_byte PROTO; PROTOCOL_VERSION] ++
             OpCode_byte MARK :: Pickler.op_bytes GLOBAL ++
             (chars "torch._utils" ++ [newline] ++
              chars "_rebuild_tensor_v2" ++ [newline]) ++ rest)
       table last_opcode)
  = Err (Exception "Unknown class name for unpickler").
Proof.
  unfold parse_ivalue_list. rewrite Simulation.run_PROTO.
  set (program := Pickler.op_bytes GLOBAL ++ _).
  assert (H1 : readInstruction
                 (mk (OpCode_byte MARK :: program) [] [] [] table
                    last_opcode [])
               = Ok (MARK, mk program [] [0%nat] [] table last_opcode [])).
  { unfold readInstruction.
    erewrite (UnpicklerClaims.readOpCode_cons _ MARK) by reflexivity.
    reflexivity. }
  assert (H2 : readInstruction
                 (set_last_opcode MARK
                    (mk program [] [0%nat] [] table last_opcode []))
               = Err (Exception "Unknown class name for unpickler")).
  { unfold readInstruction, program.
    erewrite (UnpicklerClaims.readOpCode_cons _ GLOBAL) by reflexivity.
    cbn [mbind result_bind].
    rewrite (InstructionRoundTrips.readString_identifier
               (chars "torch._utils")
               (chars "_rebuild_tensor_v2" ++ [newline] ++ rest)).
    2: { vm_compute. reflexivity. }
    2: { cbn [bytes_ set_bytes set_last_opcode]. by rewrite <- ?app_assoc. }
    cbn [mbind result_bind].
    rewrite (InstructionRoundTrips.readString_identifier
               (chars "_rebuild_tensor_v2") rest).
    2: { vm_compute. reflexivity. }
    2: { cbn [bytes_ set_bytes set_last_opcode]. by rewrite <- ?app_assoc. }
    cbn [mbind result_bind].
    replace (getClass (chars "_rebuild_tensor_v2"))
      with (@Err PicklerClass (Exception "Unknown class name for unpickler"))
      by (vm_compute; reflexivity).
    reflexivity. }
  assert (Hlen : ∃ n, length (OpCode_byte MARK :: program) = S (S n)).
  { unfold program. simpl. by eexists. }
  destruct Hlen as [n ->].
  cbn [run_loop bytes_]. rewrite H1. cbn [mbind result_bind].
  rewrite decide_False by done.
  assert (Hp : ∃ b bs, program = b :: bs) by (unfold program; by eexists _, _).
  destruct Hp as (b & bs & Hp).
  cbn [run_loop]. unfold set_last_opcode at 2. cbn [bytes_].
  rewrite Hp at 1. by rewrite H2.
Qed.

(** The decoder does not read what the encoder writes for a tensor in
    literal mode: the program starts with the global
    [torch._utils._rebuild_tensor_v2], which [getClass] does not know. *)
Theorem literal_tensor_is_not_read_back (tensor : Tensor)
  (ivalues : list IValue) (p : Pickler.t) (table : option (list Tensor))
  (last_opcode : OpCode) :
  Pickler.session None (IVTensor tensor :: ivalues) = Ok p →
  parse_ivalue_list (create (Pickler.stack p) table last_opcode)
  = Err (Exception "Unknown class name for unpickler").
Proof.
  intros Hs.
  apply EncoderProperties.session_Ok in Hs as (p1 & Hf & Hfin).
  apply Simulation.finish_trailer in Hfin as [trailer ->].
  cbn [Pickler.forEach] in Hf. apply bind_Ok in Hf as (p0 & Ht & Hf).
  rewrite MemoFacts.addIValue_eq in Ht. cbn in Ht.
  apply pushLiteralTensor_starts_with_GLOBAL in Ht as [more0 Hmore0];
    [|done..].
  pose proof (FrameFacts.grows_forEach _ _
                ltac:(apply Forall_forall; intros v _;
                      apply FrameFacts.grows_addIValue) _ _ Hf)
    as ([more Hmore] & _).
  assert (Hstack :
    Pickler.stack
      (Pickler.insert_end (Pickler.op_bytes STOP ++ trailer)
         (Pickler.endTuple p1))
    = [OpCode_byte PROTO; PROTOCOL_VERSION] ++
      OpCode_byte MARK :: Pickler.op_bytes GLOBAL ++
      (chars "torch._utils" ++ [newline] ++
       chars "_rebuild_tensor_v2" ++ [newline]) ++
      (more0 ++ more ++ Pickler.op_bytes TUPLE ++ Pickler.op_bytes STOP ++
       trailer)).
  { unfold Pickler.stack.
    cbn [Pickler.stack_ Pickler.endTuple Pickler.pushOp Pickler.push
         Pickler.insert_end].
    rewrite Hmore, Hmore0. by rewrite <- !app_assoc. }
  rewrite Hstack. apply parse_MARK_GLOBAL_rebuild.
Qed.

Lemma literal_tensor_is_not_read_back_witness :
  parse_ivalue_list
    (create
       (Pickler.stack
          (Samples.state_of
             (Pickler.session None [IVTensor Samples.tensor1])))
       None MARK)
  = Err (Exception "Unknown class name for unpickler").
Proof.
  apply (literal_tensor_is_not_read_back Samples.tensor1 []
           (Samples.state_of
              (Pickler.session None [IVTensor Samples.tensor1])) None MARK).
  vm_compute. reflexivity.
Defined.

Lemma run_keys (tensors : list Tensor) (rest : list Z)
  (stack : list StackItem) (marks : list nat) (memo : list StackItem)
  (table : option (list Tensor)) (lo : OpCode) (objects : list Object) :
  rest ≠ [] →
  ∃ lo',
    steps
      (mk (concat (map Pickler.key_entry tensors) ++ rest) stack marks memo
         table lo objects)
      (mk rest
         (stack ++
          map SIValue
            (map (λ tensor, DString (to_string (getStorageKey tensor)))
               tensors))
         marks memo table lo' objects).
Proof.
  intros Hne. revert stack lo.
  induction tensors as [|tensor tensors IH]; intros stack lo.
  - exists lo. simpl. rewrite app_nil_r. apply steps_refl.
  - destruct (IH (stack ++
                  [SIValue (DString (to_string (getStorageKey tensor)))])
                BINUNICODE) as (lo' & Hs).
    exists lo'. cbn [map concat]. unfold Pickler.key_entry at 1.
    rewrite <- !app_assoc. rewrite <- app_assoc in Hs.
    eapply Simulation.steps_trans; [|exact Hs].
    apply Simulation.run_BINUNICODE.
    + pose proof (MemoFacts.length_to_string (getStorageKey tensor)). lia.
    + destruct tensors; [done|]. done.
Qed.

(** When a session has written literal tensors, what [finish] appends after
    the STOP of the main program is a second pickle program that the decoder
    reads as the storage keys of these tensors, as decimal strings in the
    order of emission; it stops in front of the tensor records, which follow
    in the same order. *)
Theorem storage_keys_are_read_back (p p' : Pickler.t)
  (table : option (list Tensor)) (last_opcode : OpCode) :
  Pickler.literal_tensors_ p ≠ [] →
  Pickler.finish p = Ok p' →
  ∃ second u,
    Pickler.stack p' = Pickler.stack p ++ Pickler.op_bytes STOP ++ second ∧
    parse_ivalue_list (create second table last_opcode) =
      Ok (map (λ tensor, DString (to_string (getStorageKey tensor)))
            (Pickler.literal_tensors_ p), u) ∧
    bytes_ u = concat (map Pickler.tensor_record (Pickler.literal_tensors_ p)).
Proof.
  intros Hne. rewrite PicklerClaims.finish_Ok. intros [= <-].
  destruct (Pickler.literal_tensors_ p) as [|tensor tensors] eqn:Hl; [done|].
  clear Hne. rewrite <- Hl.
  set (tensors' := Pickler.literal_tensors_ p).
  set (records := concat (map Pickler.tensor_record tensors')).
  destruct (run_keys tensors' (Pickler.op_bytes TUPLE ++
                               Pickler.op_bytes STOP ++ records)
              [] [0%nat] [] table MARK []) as (lo & Hs); [done|].
  exists ([OpCode_byte PROTO; PROTOCOL_VERSION] ++ Pickler.op_bytes MARK ++
          concat (map Pickler.key_entry tensors') ++
          Pickler.op_bytes TUPLE ++ Pickler.op_bytes STOP ++ records).
  exists (mk records
            [SIValue
               (DTuple
                  (map (λ tensor, DString (to_string (getStorageKey tensor)))
                     tensors'))] [] [] table TUPLE []).
  split; [by subst tensors'; rewrite Hl|]. split; [|reflexivity].
  apply parse_of_run. rewrite Simulation.run_PROTO.
  apply (Simulation.steps_run_loop
           (mk (Pickler.op_bytes MARK ++
                concat (map Pickler.key_entry tensors') ++
                Pickler.op_bytes TUPLE ++ Pickler.op_bytes STOP ++ records)
              [] [] [] table last_opcode [])
           (mk (Pickler.op_bytes STOP ++ records)
              [SIValue
                 (DTuple
                    (map (λ tensor,
                            DString (to_string (getStorageKey tensor)))
                       tensors'))] [] [] table TUPLE [])).
  - eapply Simulation.steps_trans; [apply Simulation.run_MARK|].
    eapply Simulation.steps_trans; [exact Hs|].
    apply (Simulation.run_TUPLE (Pickler.op_bytes STOP ++ records) [] []).
  - unfold readInstruction.
    erewrite (UnpicklerClaims.readOpCode_cons _ STOP) by reflexivity.
    reflexivity.
Qed.

Lemma storage_keys_are_read_back_witness :
  ∃ second u,
    Pickler.stack (Samples.state_of (Pickler.finish Samples.literal2)) =
      Pickler.stack Samples.literal2 ++ Pickler.op_bytes STOP ++ second ∧
    parse_ivalue_list (create second None MARK) =
      Ok ([DString (chars "4660"); DString (chars "4660")], u) ∧
    bytes_ u =
      concat (map Pickler.tensor_record [Samples.tensor1; Samples.tensor2]).
Proof.
  apply (storage_keys_are_read_back Samples.literal2
           (Samples.state_of (Pickler.finish Samples.literal2)) None MARK).
  - vm_compute. discriminate.
  - vm_compute. reflexivity.
Defined.

End RoundTripProperties.

(** ** Single emissions and the end of the input *)

Module EdgeProperties.
Import Unpickler UnpicklerFacts RoundTrip.
Import PicklerFacts(bind_Ok).
Import Pickler(pushInt_bytes, pushDouble_bytes, op_bytes).

(** What [pushInt] writes for a 64-bit integer is read back by one
    instruction as that integer, whichever of the three encodings was
    chosen. *)
Theorem pushInt_is_read_back (n : Z) (u : t) (rest : list Z) :
  - 2 ^ 63 ≤ n < 2 ^ 63 →
  bytes_ u = Pickler.stack_ (Pickler.pushInt n (Pickler.create None)) ++ rest →
  ∃ op,
    readInstruction u =
      Ok (op, emplace_back (SIValue (DInt n)) (set_bytes rest u)).
Proof.
  intros Hn Hb.
  destruct (InstructionRoundTrips.step_pushInt n u rest Hn Hb)
    as (op & _ & Hr).
  by exists op.
Qed.

Lemma pushInt_is_read_back_witness :
  ∃ op,
    readInstruction (create [0x4A; 0x00; 0x00; 0x00; 0x80; 0x2E] None MARK) =
      Ok (op, emplace_back (SIValue (DInt (-2147483648)))
                (set_bytes [0x2E]
                   (create [0x4A; 0x00; 0x00; 0x00; 0x80; 0x2E] None MARK))).
Proof.
  apply (pushInt_is_read_back (-2147483648)
           (create [0x4A; 0x00; 0x00; 0x00; 0x80; 0x2E] None MARK) [0x2E]).
  - lia.
  - vm_compute. reflexivity.
Defined.

(** What [pushDouble] writes is read back as the same 64 bits, unless these
    eight bytes end the input: [readFloat] asks for a ninth byte and throws
    when there is none. *)
Theorem pushDouble_is_read_back_unless_it_ends_the_input
  (bits : Z) (u : t) (rest : list Z) :
  0 ≤ bits < 2 ^ 64 →
  bytes_ u =
    Pickler.stack_ (Pickler.pushDouble bits (Pickler.create None)) ++ rest →
  readInstruction u =
    if decide (rest = []) then Err (Exception "bytes_ + 8 < end_ptr_")
    else Ok (BINFLOAT, emplace_back (SIValue (DDouble bits)) (set_bytes rest u)).
Proof. apply InstructionRoundTrips.step_pushDouble. Qed.

Lemma pushDouble_is_read_back_unless_it_ends_the_input_witness :
  readInstruction
    (create [0x47; 0x3F; 0xF0; 0; 0; 0; 0; 0; 0] None MARK) =
  Err (Exception "bytes_ + 8 < end_ptr_").
Proof.
  apply (pushDouble_is_read_back_unless_it_ends_the_input
           0x3FF0000000000000
           (create [0x47; 0x3F; 0xF0; 0; 0; 0; 0; 0; 0] None MARK) []).
  - lia.
  - vm_compute. reflexivity.
Defined.

(** The BINUNICODE that [pushMemoizedString] writes, with its length and
    its characters, is read back as that string, unless the characters end
    the input: the decoder asks for one more byte and throws when there is
    none. *)
Theorem string_is_read_back_unless_it_ends_the_input
  (s : list Z) (u : t) (rest : list Z) :
  Z.of_nat (length s) < 2 ^ 32 →
  bytes_ u =
    op_bytes BINUNICODE ++ le_bytes 4 (Z.of_nat (length s)) ++ s ++ rest →
  readInstruction u =
    if decide (rest = []) then Err (Exception "bytes_ + length < end_ptr_")
    else Ok (BINUNICODE, emplace_back (SIValue (DString s)) (set_bytes rest u)).
Proof. apply InstructionRoundTrips.step_BINUNICODE. Qed.

Lemma string_is_read_back_unless_it_ends_the_input_witness :
  readInstruction (create [0x58; 2; 0; 0; 0; 97; 98] None MARK) =
  Err (Exception "bytes_ + length < end_ptr_").
Proof.
  apply (string_is_read_back_unless_it_ends_the_input [97; 98]
           (create [0x58; 2; 0; 0; 0; 97; 98] None MARK) []).
  - simpl. lia.
  - reflexivity.
Defined.

Lemma readString_loop_Ok (rest str s rest' : list Z) :
  readString_loop rest str = Ok (s, rest') →
  ∃ name, s = str ++ name ∧ rest = name ++ newline :: rest' ∧
    forallb is_valid_python_id_char name = true.
Proof.
  revert str; induction rest as [|c rest IH]; intros str; [done|].
  cbn [readString_loop]. destruct (Z.eqb_spec c newline) as [->|Hc].
  { intros [= <- <-]. exists []. by rewrite app_nil_r. }
  destruct (is_valid_python_id_char c) eqn:Hv; [|done]. cbn [negb].
  destruct rest as [|c' rest'']; [done|].
  intros (name & -> & Hr & Hn)%IH. exists (c :: name).
  rewrite <- app_assoc. split; [done|]. split; [by rewrite Hr|].
  simpl. by rewrite Hv, Hn.
Qed.

(** [readString] succeeds exactly on an input that starts with characters
    of Python identifiers (letters, digits, [_] and [.]) followed by a
    newline; it returns these characters and leaves the cursor after the
    newline. *)
Theorem readString_reads_an_identifier_line (u : t) (s rest : list Z) :
  readString u = Ok (s, set_bytes rest u) ↔
  bytes_ u = s ++ newline :: rest ∧
  forallb is_valid_python_id_char s = true.
Proof.
  split.
  - unfold readString. intros H.
    apply bind_Ok in H as ([s' rest'] & Hr & H).
    apply readString_loop_Ok in Hr as (name & -> & Hb & Hn).
    cbn [mret result_ret] in H. injection H as <- <-. by split.
  - intros [Hb Hs]. by apply InstructionRoundTrips.readString_identifier.
Qed.

(** On an input that is not empty [readString] returns or throws: the read
    of [chars[n]] stays inside the input. *)
Theorem readString_is_defined_on_nonempty_input (u : t) :
  bytes_ u ≠ [] →
  (∃ s u', readString u = Ok (s, u')) ∨ is_exception (readString u).
Proof.
  intros Hne. unfold readString.
  pose proof (readString_loop_defined (bytes_ u) [] Hne) as Hd.
  pose proof (readString_loop_no_fuel (bytes_ u) []) as Hf.
  destruct (readString_loop (bytes_ u) []) as [[s rest]|[what|what|]];
    cbn [mbind result_bind mret result_ret].
  - left. by eexists _, _.
  - right. by exists what.
  - by destruct (Hd what).
  - done.
Qed.

Lemma readString_is_defined_on_nonempty_input_witness :
  (∃ s u', readString (create [97] None MARK) = Ok (s, u')) ∨
  is_exception (readString (create [97] None MARK)).
Proof.
  apply (readString_is_defined_on_nonempty_input (create [97] None MARK)).
  simpl. discriminate.
Defined.

(** With memo ids counted from zero in the order of the PUTs, as the
    encoder writes them, a PUT followed by a GET of the same id pushes the
    top of the stack a second time. *)
Theorem PUT_then_GET_pushes_the_top_again
  (memo_id : Z) (rest : list Z) (stack : list StackItem) (item : StackItem)
  (marks : list nat) (memo : list StackItem) (table : option (list Tensor))
  (lo : OpCode) (objects : list Object) :
  memo_id = Z.of_nat (length memo) → memo_id < 2 ^ 32 →
  ∃ lo',
    steps
      (mk (Pickler.pushNextBinPut_bytes memo_id ++
           Pickler.pushBinGet_bytes memo_id ++ rest)
         (stack ++ [item]) marks memo table lo objects)
      (mk rest ((stack ++ [item]) ++ [item]) marks (memo ++ [item]) table lo'
         objects).
Proof.
  intros Hid Hmax.
  destruct (Simulation.run_PUT (Pickler.pushBinGet_bytes memo_id ++ rest)
              (stack ++ [item]) marks memo table lo objects memo_id item)
    as (lo1 & _ & Hs1); [by rewrite last_snoc|].
  destruct (Simulation.run_GET rest (stack ++ [item]) marks (memo ++ [item])
              table lo1 objects memo_id item) as (lo2 & _ & Hs2); [lia| |].
  { rewrite Hid, Nat2Z.id. by apply list_lookup_middle. }
  exists lo2. by eapply Simulation.steps_trans.
Qed.

Lemma PUT_then_GET_pushes_the_top_again_witness :
  ∃ lo',
    steps
      (mk (Pickler.pushNextBinPut_bytes 1 ++ Pickler.pushBinGet_bytes 1 ++
           [0x2E])
         ([] ++ [SIValue (DInt 7)]) [] [SIValue (DInt 5)] None MARK [])
      (mk [0x2E] (([] ++ [SIValue (DInt 7)]) ++ [SIValue (DInt 7)]) []
         ([SIValue (DInt 5)] ++ [SIValue (DInt 7)]) None lo' []).
Proof.
  apply (PUT_then_GET_pushes_the_top_again 1 [0x2E] [] (SIValue (DInt 7)) []
           [SIValue (DInt 5)] None MARK []).
  - reflexivity.
  - lia.
Defined.

End EdgeProperties.

(** ** Programs that name a class of module [__main__] *)

Module ClassPrograms.
Import Unpickler UnpicklerFacts RoundTrip.
Import PicklerFacts(bind_Ok).
Import Pickler(pushInt_bytes, op_bytes).
Import Simulation(steps_one, steps_trans, back_last, pop_back_last).

Section instructions.
Context (rest : list Z) (stack : list StackItem) (marks : list nat)
  (memo : list StackItem) (table : option (list Tensor)) (lo : OpCode)
  (objects : list Object).

(** A GLOBAL of module [__main__] pushes the class as its integer. *)
Lemma run_GLOBAL_main (class_name : list Z) (cls : PicklerClass) :
  forallb is_valid_python_id_char class_name = true →
  getClass class_name = Ok cls →
  steps
    (mk (op_bytes GLOBAL ++ chars "__main__" ++ [newline] ++ class_name ++
         [newline] ++ rest) stack marks memo table lo objects)
    (mk rest (stack ++ [SIValue (DInt (PicklerClass_to_uint8 cls))]) marks
       memo table GLOBAL objects).
Proof.
  intros Hv Hc. Simulation.one_step GLOBAL.
  { rewrite (InstructionRoundTrips.readString_identifier
               (chars "__main__") (class_name ++ [newline] ++ rest)).
    2: { vm_compute. reflexivity. }
    2: { reflexivity. }
    cbn [mbind result_bind].
    rewrite (InstructionRoundTrips.readString_identifier class_name rest
               _ Hv) by reflexivity.
    cbn [mbind result_bind]. rewrite Hc. cbn [mbind result_bind].
    rewrite decide_True by done. reflexivity. }
  reflexivity.
Qed.

Lemma run_EMPTY_TUPLE :
  steps
    (mk (op_bytes EMPTY_TUPLE ++ rest) stack marks memo table lo objects)
    (mk rest (stack ++ [SIValue (DTuple [])]) marks memo table EMPTY_TUPLE
       objects).
Proof. Simulation.one_step EMPTY_TUPLE; reflexivity. Qed.

(** NEWOBJ drops the top of the stack. *)
Lemma run_NEWOBJ (item : StackItem) :
  steps
    (mk (op_bytes NEWOBJ ++ rest) (stack ++ [item]) marks memo table lo
       objects)
    (mk rest stack marks memo table NEWOBJ objects).
Proof.
  Simulation.one_step NEWOBJ.
  { erewrite pop_back_last by reflexivity. reflexivity. }
  reflexivity.
Qed.

Lemma run_BUILD_TENSOR (tensors : list Tensor) (i : Z) (tensor : Tensor) :
  table = Some tensors → 0 ≤ i →
  tensors !! Z.to_nat i = Some tensor →
  steps
    (mk (op_bytes BUILD ++ rest)
       ((stack ++ [SIValue (DInt (PicklerClass_to_uint8 TENSOR))]) ++
        [SIValue (DInt i)]) marks memo table lo objects)
    (mk rest (stack ++ [SIValue (DTensor tensor)]) marks memo table BUILD
       objects).
Proof.
  intros Ht Hi Hl. Simulation.one_step BUILD.
  { erewrite back_last by reflexivity. cbn [mbind result_bind ivalue].
    erewrite pop_back_last by reflexivity. cbn [mbind result_bind].
    erewrite back_last by reflexivity.
    cbn [mbind result_bind ivalue toInt].
    erewrite pop_back_last by reflexivity.
    cbn [mbind result_bind PicklerClass_to_uint8].
    change (PicklerClass_of_uint8 0) with (Some TENSOR).
    cbn [mbind result_bind toInt].
    unfold tensor_table_at. cbn [tensor_table_ set_stack set_bytes].
    rewrite Ht, decide_True by done. rewrite Hl. reflexivity. }
  reflexivity.
Qed.

Lemma run_BUILD_INTLIST (data : DValue) :
  steps
    (mk (op_bytes BUILD ++ rest)
       ((stack ++ [SIValue (DInt (PicklerClass_to_uint8 INTLIST))]) ++
        [SIValue data]) marks memo table lo objects)
    (mk rest (stack ++ [SIValue data]) marks memo table BUILD objects).
Proof.
  Simulation.one_step BUILD.
  { erewrite back_last by reflexivity. cbn [mbind result_bind ivalue].
    erewrite pop_back_last by reflexivity. cbn [mbind result_bind].
    erewrite back_last by reflexivity.
    cbn [mbind result_bind ivalue toInt].
    erewrite pop_back_last by reflexivity.
    cbn [mbind result_bind PicklerClass_to_uint8].
    change (PicklerClass_of_uint8 1) with (Some INTLIST).
    reflexivity. }
  reflexivity.
Qed.

(** EMPTY_LIST after NEWOBJ, on the integer of INTLIST. *)
Lemma run_EMPTY_LIST_after_NEWOBJ :
  steps
    (mk (op_bytes EMPTY_LIST ++ rest)
       (stack ++ [SIValue (DInt (PicklerClass_to_uint8 INTLIST))]) marks
       memo table NEWOBJ objects)
    (mk rest
       ((stack ++ [SIValue (DInt (PicklerClass_to_uint8 INTLIST))]) ++
        [SIValue (DIntList (length objects))])
       marks memo table EMPTY_LIST (objects ++ [OIntList []])).
Proof.
  Simulation.one_step EMPTY_LIST.
  { cbn [last_opcode_ stack_ set_bytes]. rewrite decide_True by done.
    rewrite decide_True by (rewrite length_app; simpl; lia).
    erewrite back_last by reflexivity.
    cbn [mbind result_bind ivalue toInt PicklerClass_to_uint8].
    rewrite decide_True by lia.
    rewrite decide_True by done. reflexivity. }
  reflexivity.
Qed.

End instructions.

(** The program GLOBAL [__main__ TensorID], EMPTY_TUPLE, NEWOBJ, an integer
    [i], BUILD is read as the tensor at index [i] of the side table. *)
Theorem BUILD_reads_the_tensor_at_the_index
  (class_name : list Z) (i : Z) (tensors : list Tensor) (tensor : Tensor)
  (rest : list Z) (stack : list StackItem) (marks : list nat)
  (memo : list StackItem) (lo : OpCode) (objects : list Object) :
  forallb is_valid_python_id_char class_name = true →
  getClass class_name = Ok TENSOR →
  0 ≤ i < 2 ^ 63 →
  tensors !! Z.to_nat i = Some tensor →
  steps
    (mk (op_bytes GLOBAL ++ chars "__main__" ++ [newline] ++ class_name ++
         [newline] ++ op_bytes EMPTY_TUPLE ++ op_bytes NEWOBJ ++
         pushInt_bytes i ++ op_bytes BUILD ++ rest)
       stack marks memo (Some tensors) lo objects)
    (mk rest (stack ++ [SIValue (DTensor tensor)]) marks memo (Some tensors)
       BUILD objects).
Proof.
  intros Hv Hc Hi Hl.
  eapply steps_trans; [by apply run_GLOBAL_main|].
  eapply steps_trans; [apply run_EMPTY_TUPLE|].
  eapply steps_trans; [apply run_NEWOBJ|].
  destruct (Simulation.run_pushInt (op_bytes BUILD ++ rest)
              (stack ++ [SIValue (DInt (PicklerClass_to_uint8 TENSOR))])
              marks memo (Some tensors) NEWOBJ objects i) as (lo' & _ & Hs).
  { unfold int64. apply andb_true_iff.
    split; [apply Z.leb_le|apply Z.ltb_lt]; lia. }
  eapply steps_trans; [exact Hs|].
  by eapply run_BUILD_TENSOR; [|lia|].
Qed.

Lemma BUILD_reads_the_tensor_at_the_index_witness :
  steps
    (mk (op_bytes GLOBAL ++ chars "__main__" ++ [newline] ++
         chars "TensorID" ++ [newline] ++ op_bytes EMPTY_TUPLE ++
         op_bytes NEWOBJ ++ pushInt_bytes 1 ++ op_bytes BUILD ++ [0x2E])
       [] [] [] (Some [Samples.tensor1; Samples.tensor2]) MARK [])
    (mk [0x2E] ([] ++ [SIValue (DTensor Samples.tensor2)]) [] []
       (Some [Samples.tensor1; Samples.tensor2]) BUILD []).
Proof.
  apply (BUILD_reads_the_tensor_at_the_index (chars "TensorID") 1
           [Samples.tensor1; Samples.tensor2] Samples.tensor2).
  - vm_compute. reflexivity.
  - vm_compute. reflexivity.
  - lia.
  - reflexivity.
Defined.

(** The program GLOBAL [__main__ IntList], EMPTY_TUPLE, NEWOBJ, EMPTY_LIST,
    MARK, integers, APPENDS, BUILD is read as an int list of these
    integers: EMPTY_LIST sees NEWOBJ as the last opcode and the integer of
    INTLIST on the stack. *)
Theorem BUILD_reads_an_int_list
  (class_name : list Z) (ns : list Z)
  (rest : list Z) (stack : list StackItem) (marks : list nat)
  (memo : list StackItem) (table : option (list Tensor)) (lo : OpCode)
  (objects : list Object) :
  forallb is_valid_python_id_char class_name = true →
  getClass class_name = Ok INTLIST →
  forallb int64 ns = true →
  steps
    (mk (op_bytes GLOBAL ++ chars "__main__" ++ [newline] ++ class_name ++
         [newline] ++ op_bytes EMPTY_TUPLE ++ op_bytes NEWOBJ ++
         op_bytes EMPTY_LIST ++ op_bytes MARK ++
         concat (map pushInt_bytes ns) ++ op_bytes APPENDS ++
         op_bytes BUILD ++ rest)
       stack marks memo table lo objects)
    (mk rest (stack ++ [SIValue (DIntList (length objects))]) marks memo
       table BUILD (objects ++ [OIntList ns])).
Proof.
  intros Hv Hc Hns.
  eapply steps_trans; [by apply run_GLOBAL_main|].
  eapply steps_trans; [apply run_EMPTY_TUPLE|].
  eapply steps_trans; [apply run_NEWOBJ|].
  eapply steps_trans; [apply run_EMPTY_LIST_after_NEWOBJ|].
  eapply steps_trans; [apply Simulation.run_MARK|].
  destruct (Simulation.run_ints ns (op_bytes APPENDS ++ op_bytes BUILD ++ rest)
              ((stack ++ [SIValue (DInt (PicklerClass_to_uint8 INTLIST))]) ++
               [SIValue (DIntList (length objects))])
              (marks ++
               [length
                  ((stack ++
                    [SIValue (DInt (PicklerClass_to_uint8 INTLIST))]) ++
                   [SIValue (DIntList (length objects))])])
              memo table MARK (objects ++ [OIntList []]) Hns ltac:(done))
    as (lo' & _ & Hs).
  eapply steps_trans; [exact Hs|].
  eapply steps_trans.
  { apply (Simulation.run_APPENDS_INTLIST _ _ _ _ _ _ _ (length objects) []
             ns).
    by apply list_lookup_middle. }
  cbn [app].
  replace (<[length objects := OIntList ns]> (objects ++ [OIntList []]))
    with (objects ++ [OIntList ns]).
  2: { rewrite insert_app_r_alt by done. by rewrite Nat.sub_diag. }
  apply run_BUILD_INTLIST.
Qed.

Lemma BUILD_reads_an_int_list_witness :
  steps
    (mk (op_bytes GLOBAL ++ chars "__main__" ++ [newline] ++
         chars "IntList" ++ [newline] ++ op_bytes EMPTY_TUPLE ++
         op_bytes NEWOBJ ++ op_bytes EMPTY_LIST ++ op_bytes MARK ++
         concat (map pushInt_bytes [3; 300]) ++ op_bytes APPENDS ++
         op_bytes BUILD ++ [0x2E])
       [] [] [] None MARK [])
    (mk [0x2E] ([] ++ [SIValue (DIntList 0)]) [] [] None BUILD
       ([] ++ [OIntList [3; 300]])).
Proof.
  apply (BUILD_reads_an_int_list (chars "IntList") [3; 300] [0x2E] [] [] []
           None MARK []).
  - vm_compute. reflexivity.
  - vm_compute. reflexivity.
  - vm_compute. reflexivity.
Defined.

End ClassPrograms.

(** ** The encoder returns *)

Module EncoderTotality.
Import Pickler PicklerFacts RoundTrip.

Lemma returns_pushMemoization (v : IValue) (q : ptr) (p : t) :
  getPointer v = Some q → memo_id_ p + 1 ≤ 2 ^ 32 →
  returns 1 (pushMemoization v) p.
Proof.
  intros Hq Hle.
  destruct (pushMemoization_total v q p Hq) as [p' Hp']; [lia|].
  pose proof (pushMemoization_Ok _ _ _ Hp') as (item & _ & _ & Heq).
  exists p'. split; [done|]. rewrite Heq. simpl. lia.
Qed.

Lemma returns_pushGlobal (name : list Z) (p : t) :
  memo_id_ p + 1 ≤ 2 ^ 32 → returns 1 (pushGlobal name) p.
Proof.
  intros Hle.
  destruct (pushGlobal_total name p) as [p' Hp']; [lia|].
  pose proof (pushGlobal_Ok _ _ _ Hp') as [Heq _].
  exists p'. split; [done|]. rewrite Heq. simpl.
  destruct (memoized_strings_map_ p !! name); lia.
Qed.

Lemma returns_pushMemoizedString_temporary (s : list Z) (p : t) :
  memo_id_ p + 1 ≤ 2 ^ 32 → returns 1 (pushMemoizedString_temporary s) p.
Proof.
  intros Hle. unfold returns, pushMemoizedString_temporary, pushMemoizedString.
  match goal with
  | |- context [pushMemoization ?v ?r] =>
      destruct (returns_pushMemoization v (inr (temporaries_ p)) r)
        as (p' & Hp' & H'); [done|simpl; lia|simpl in H']
  end.
  exists p'. split; [done|]. lia.
Qed.

Lemma returns_forEach {A : Type} (f : A → t → result t) (size : A → nat)
  (l : list A) :
  Forall
    (λ x, ∀ p, memo_id_ p + 6 * Z.of_nat (size x) ≤ 2 ^ 32 →
       returns (6 * Z.of_nat (size x)) (f x) p) l →
  ∀ p, memo_id_ p + 6 * Z.of_nat (list_sum (map size l)) ≤ 2 ^ 32 →
    returns (6 * Z.of_nat (list_sum (map size l))) (forEach f l) p.
Proof.
  induction 1 as [|x l Hx _ IH]; intros p Hle.
  - exists p. split; [done|]. simpl. lia.
  - unfold returns.
    change (list_sum (map size (x :: l)))
      with (size x + list_sum (map size l))%nat in *.
    rewrite Nat2Z.inj_add in Hle |- *.
    destruct (Hx p) as (p1 & Hf & H1); [lia|].
    destruct (IH p1) as (p2 & Hg & H2); [lia|].
    exists p2. cbn [forEach]. rewrite Hf. cbn [mbind result_bind].
    split; [done|]. lia.
Qed.

Lemma returns_step (k1 k2 k : Z) (m : result t) (g : t → result t) (p : t) :
  k1 + k2 ≤ k →
  (∃ p1, m = Ok p1 ∧ memo_id_ p ≤ memo_id_ p1 ≤ memo_id_ p + k1) →
  (∀ p1, memo_id_ p ≤ memo_id_ p1 ≤ memo_id_ p + k1 →
     ∃ p2, g p1 = Ok p2 ∧ memo_id_ p1 ≤ memo_id_ p2 ≤ memo_id_ p1 + k2) →
  ∃ p2, m ≫= g = Ok p2 ∧ memo_id_ p ≤ memo_id_ p2 ≤ memo_id_ p + k.
Proof.
  intros Hk (p1 & -> & H1) Hg. destruct (Hg p1 H1) as (p2 & Hg2 & H2).
  exists p2. split; [done|]. lia.
Qed.

Lemma returns_pushLiteralTensor (tensor : Tensor) (p : t) :
  memo_id_ p + 6 ≤ 2 ^ 32 → returns 6 (pushLiteralTensor tensor) p.
Proof.
  intros Hle. unfold returns, pushLiteralTensor.
  apply (returns_step 1 5 6); [lia|apply returns_pushGlobal; lia|].
  intros p1 H1. cbn zeta.
  apply (returns_step 1 4 5); [lia| |].
  { destruct (returns_pushMemoizedString_temporary (chars "storage")
                (pushOp MARK (pushOp MARK p1))) as (p2 & Hp2 & H2).
    - cbn [memo_id_ pushOp push insert_end]. lia.
    - exists p2. split; [done|].
      cbn [memo_id_ pushOp push insert_end] in H2. lia. }
  intros p2 H2.
  apply (returns_step 1 3 4); [lia|apply returns_pushGlobal; lia|].
  intros p3 H3.
  apply (returns_step 1 2 3);
    [lia|apply returns_pushMemoizedString_temporary; lia|].
  intros p4 H4.
  apply (returns_step 1 1 2);
    [lia|apply returns_pushMemoizedString_temporary; lia|].
  intros p5 H5.
  apply (returns_step 1 0 1); [lia| |].
  { rewrite !pushInt_frame, !fold_left_pushInt, addIValue_bool_frame.
    match goal with
    | |- context [pushGlobal ?name ?q] =>
        destruct (returns_pushGlobal name q) as (p6 & Hp6 & H6)
    end.
    - cbn [memo_id_ pushOp push insert_end]. lia.
    - exists p6. split; [done|].
      cbn [memo_id_ pushOp push insert_end] in H6. lia. }
  intros p6 H6. eexists. split; [reflexivity|].
  cbn [memo_id_ pushOp push insert_end]. lia.
Qed.

Lemma returns_pushTensor (tensor : Tensor) (p : t) :
  memo_id_ p + 6 ≤ 2 ^ 32 → returns 6 (pushTensor tensor) p.
Proof.
  intros Hle. unfold returns, pushTensor.
  destruct (tensor_table_ p) as [table|];
    [|by apply returns_pushLiteralTensor].
  unfold pushTensorReference, pushClass.
  destruct (returns_pushGlobal (getModuleName ++ getClassName TENSOR) p)
    as (p1 & -> & H1); [lia|]. cbn [mbind result_bind mret result_ret].
  rewrite pushInt_frame. eexists. split; [done|]. simpl. lia.
Qed.

Lemma returns_pushIntList (q : ptr) (ns : list Z) (p : t) :
  memo_id_ p + 6 ≤ 2 ^ 32 → returns 6 (pushIntList (IVIntList q ns) ns) p.
Proof.
  intros Hle. unfold returns, pushIntList, pushClass.
  destruct (returns_pushGlobal (getModuleName ++ getClassName INTLIST) p)
    as (p1 & -> & H1); [lia|]. cbn [mbind result_bind].
  rewrite fold_left_pushInt.
  match goal with
  | |- context [pushMemoization ?v ?r] =>
      destruct (returns_pushMemoization v q r) as (p2 & -> & H2);
        [done|simpl; lia|simpl in H2]
  end.
  eexists. split; [done|]. lia.
Qed.

Lemma returns_addIValue (v : IValue) (p : t) :
  encodable v = true →
  memo_id_ p + 6 * Z.of_nat (IValue_size v) ≤ 2 ^ 32 →
  ∃ p', addIValue v p = Ok p' ∧
    memo_id_ p ≤ memo_id_ p' ≤ memo_id_ p + 6 * Z.of_nat (IValue_size v).
Proof.
  revert p. induction v as [|b|n|bits|q s|q l IH|q l IH|q l IH|q ns|tensor|k]
    using IValue_nested_ind; intros p Henc Hle;
    try discriminate Henc;
    rewrite MemoFacts.addIValue_eq;
    (destruct (getPointer _ ≫= _) as [memo_id|] eqn:Hmemo;
     [eexists; split; [done|]; rewrite pushBinGet_frame; simpl; lia|]).
  - eexists. split; [done|]. simpl. lia.
  - eexists. split; [done|]. rewrite addIValue_bool_frame. simpl. lia.
  - eexists. split; [done|]. rewrite pushInt_frame. simpl. lia.
  - eexists. split; [done|]. rewrite pushDouble_frame. simpl. lia.
  - destruct (returns_pushMemoization (IVString q s) q
                (pushString s
                   (push 4 (Z.of_nat (length s)) (pushOp BINUNICODE p))))
      as (p' & Hp' & H'); [done|simpl in *; lia|].
    exists p'. split; [done|]. simpl in *. lia.
  - cbn [IValue_size] in Hle |- *. rewrite Nat2Z.inj_succ in Hle |- *.
    cbn zeta.
    destruct (returns_forEach addIValue IValue_size l) with
      (p := pushOp MARK p) as (p2 & -> & H2).
    { cbn [encodable] in Henc. rewrite forallb_forall in Henc.
      rewrite Forall_forall in IH |- *. intros x Hx r Hr.
      apply IH; [done| |done]. by apply Henc, list_elem_of_In. }
    { simpl. lia. }
    cbn [mbind result_bind]. simpl in H2.
    destruct (returns_pushMemoization (IVTuple q l) q (pushOp TUPLE p2))
      as (p' & -> & H'); [done|simpl; lia|].
    eexists. split; [done|]. simpl in H'. lia.
  - cbn [IValue_size] in Hle |- *. rewrite Nat2Z.inj_succ in Hle |- *.
    cbn zeta.
    destruct (returns_pushMemoization (IVGenericList q l) q
                (pushOp EMPTY_LIST p)) as (p1 & -> & H1);
      [done|simpl; lia|]. cbn [mbind result_bind]. simpl in H1.
    destruct (returns_forEach addIValue IValue_size l) with
      (p := pushOp MARK p1) as (p2 & -> & H2).
    { cbn [encodable] in Henc. rewrite forallb_forall in Henc.
      rewrite Forall_forall in IH |- *. intros x Hx r Hr.
      apply IH; [done| |done]. by apply Henc, list_elem_of_In. }
    { simpl. lia. }
    cbn [mbind result_bind mret result_ret]. simpl in H2.
    eexists. split; [done|]. simpl. lia.
  - cbn [IValue_size] in Hle |- *. rewrite Nat2Z.inj_succ in Hle |- *.
    cbn zeta.
    destruct (returns_pushMemoization (IVGenericDict q l) q
                (pushOp EMPTY_DICT p)) as (p1 & -> & H1);
      [done|simpl; lia|]. cbn [mbind result_bind]. simpl in H1.
    destruct (returns_forEach
                (λ pair p, p1 ← addIValue pair.1 p; addIValue pair.2 p1)
                (λ kv, IValue_size kv.1 + IValue_size kv.2)%nat l) with
      (p := pushOp MARK p1) as (p2 & -> & H2).
    { cbn [encodable] in Henc. rewrite forallb_forall in Henc.
      rewrite Forall_forall in IH |- *. intros kv Hkv r Hr.
      destruct (IH kv Hkv) as [IH1 IH2].
      apply list_elem_of_In, Henc, andb_true_iff in Hkv as [Hk Hv].
      unfold returns. cbn beta. rewrite Nat2Z.inj_add in Hr |- *.
      destruct (IH1 r Hk) as (r1 & -> & Hr1); [lia|].
      destruct (IH2 r1 Hv) as (r2 & Hr2' & Hr2); [lia|].
      exists r2. cbn [mbind result_bind]. split; [done|]. lia. }
    { simpl. lia. }
    cbn [mbind result_bind mret result_ret]. simpl in H2.
    eexists. split; [done|]. simpl. lia.
  - destruct (returns_pushIntList q ns p) as (p' & Hp' & H');
      [simpl in Hle; lia|].
    exists p'. split; [done|]. simpl. lia.
  - destruct (returns_pushTensor tensor p) as (p' & Hp' & H');
      [simpl in Hle; lia|].
    exists p'. split; [done|]. simpl. lia.
Qed.

(** [addIValue] returns on every value whose tags it knows, as long as the
    memo ids last: a value binds at most six ids for each value in it (a
    literal tensor binds six), and the encoder throws when an id would pass
    [2^32 - 1]. *)
Theorem addIValue_returns (v : IValue) (p : t) :
  encodable v = true →
  memo_id_ p + 6 * Z.of_nat (IValue_size v) ≤ 2 ^ 32 →
  ∃ p', addIValue v p = Ok p' ∧
    memo_id_ p ≤ memo_id_ p' ≤ memo_id_ p + 6 * Z.of_nat (IValue_size v).
Proof. apply returns_addIValue. Qed.

Lemma addIValue_returns_witness :
  ∃ p',
    addIValue (IVTuple (inl 1) [IVNone; IVTensor Samples.tensor1])
      (create None) = Ok p' ∧
    memo_id_ (create None) ≤ memo_id_ p' ≤ memo_id_ (create None) + 6 * 3.
Proof.
  apply (addIValue_returns
           (IVTuple (inl 1) [IVNone; IVTensor Samples.tensor1])
           (create None)).
  - reflexivity.
  - simpl. lia.
Defined.

(** A session over values whose tags [addIValue] knows returns, in
    reference mode and in literal mode, when six times the number of values
    is at most [2^32]: [finish] and the conversion of storages never
    throw. *)
Theorem session_returns (tensor_table : option (list Tensor))
  (ivalues : list IValue) :
  forallb encodable ivalues = true →
  6 * Z.of_nat (list_sum (map IValue_size ivalues)) ≤ 2 ^ 32 →
  ∃ p, session tensor_table ivalues = Ok p.
Proof.
  intros Henc Hle. unfold session.
  destruct (returns_forEach addIValue IValue_size ivalues) with
    (p := startTuple (start (create tensor_table))) as (p1 & -> & _).
  - rewrite forallb_forall in Henc. apply Forall_forall. intros v Hv p Hp.
    apply returns_addIValue; [|done]. by apply Henc, list_elem_of_In.
  - simpl. lia.
  - cbn [mbind result_bind]. rewrite PicklerClaims.finish_Ok. by eexists.
Qed.

Lemma session_returns_witness :
  ∃ p,
    session None
      [IVNone; IVTensor Samples.tensor1;
       IVGenericDict (inl 1) [(IVInt 1, IVIntList (inl 2) [7])]] = Ok p.
Proof.
  apply (session_returns None
           [IVNone; IVTensor Samples.tensor1;
            IVGenericDict (inl 1) [(IVInt 1, IVIntList (inl 2) [7])]]).
  - reflexivity.
  - simpl. lia.
Defined.

Lemma forEach_unknown_tag (before after : list IValue) (k : string) (p : t) :
  forallb encodable before = true →
  memo_id_ p + 6 * Z.of_nat (list_sum (map IValue_size before)) ≤ 2 ^ 32 →
  forEach addIValue (before ++ IVOther k :: after) p =
  Err (Exception "Unknown IValue type for pickling").
Proof.
  revert p. induction before as [|v before IH]; intros p Henc Hle.
  - cbn [app forEach]. by rewrite MemoFacts.addIValue_eq.
  - cbn [forallb] in Henc. apply andb_true_iff in Henc as [Hv Henc].
    change (list_sum (map IValue_size (v :: before)))
      with (IValue_size v + list_sum (map IValue_size before))%nat in Hle.
    rewrite Nat2Z.inj_add in Hle.
    destruct (returns_addIValue v p Hv) as (p1 & Hp1 & H1); [lia|].
    cbn [app forEach]. rewrite Hp1. cbn [mbind result_bind].
    apply IH; [done|lia].
Qed.

(** A value with a tag that [addIValue] does not know makes the session
    throw, wherever it stands among values that the encoder accepts. *)
Theorem unknown_tag_is_rejected (tensor_table : option (list Tensor))
  (before after : list IValue) (k : string) :
  forallb encodable before = true →
  6 * Z.of_nat (list_sum (map IValue_size before)) ≤ 2 ^ 32 →
  session tensor_table (before ++ IVOther k :: after) =
  Err (Exception "Unknown IValue type for pickling").
Proof.
  intros Henc Hle. unfold session.
  rewrite forEach_unknown_tag; [done..|]. simpl. lia.
Qed.

Lemma unknown_tag_is_rejected_witness :
  session None ([IVInt 1; IVString (inl 1) (chars "a")] ++
                IVOther "Future" :: [IVNone]) =
  Err (Exception "Unknown IValue type for pickling").
Proof.
  apply (unknown_tag_is_rejected None [IVInt 1; IVString (inl 1) (chars "a")]
           [IVNone] "Future").
  - reflexivity.
  - simpl. lia.
Defined.

End EncoderTotality.
